(** * pytermgui.parser: markup and ANSI tokenizers, converters, optimizer

    A shallow embedding of [src/pytermgui/parser.py].

    Python strings are modelled as lists of characters ([str]); a character
    is a code point in the range U+0000..U+00FF ([ascii]), and the character
    predicates ([str.isdigit], [str.isnumeric], [str.isspace], [str.lower])
    are the ones Python has on that range.  Exceptions are values of [exn];
    a function that can raise returns a [result]; a generator is the list of
    tokens it yields together with the exception that ends it, if any.

    The module [ansi_interface] (the colour registry [foreground.names], the
    hex translator [foreground.translate_hex] and [reset]) is not part of the
    sources: the registry and the translator are parameters of the
    functions that use them, and [reset] is the sequence ESC[0m; the
    sequence builders [bold] and [foreground], which only the
    pretty-printer calls, are parameters of the pretty-printer. *)

From Stdlib Require Import String Ascii Bool Arith Lia List.
Import ListNotations.

Set Implicit Arguments.

(** ** Strings *)

Definition str : Type := list ascii.

Definition lit (s : string) : str := list_ascii_of_string s.

Definition esc : ascii := ascii_of_nat 27.
Definition newline : ascii := ascii_of_nat 10.
Definition backslash : ascii := ascii_of_nat 92.

Fixpoint str_eqb (a b : str) : bool :=
  match a, b with
  | [], [] => true
  | x :: a', y :: b' => Ascii.eqb x y && str_eqb a' b'
  | _, _ => false
  end.

Definition opt_str_eqb (a b : option str) : bool :=
  match a, b with
  | None, None => true
  | Some x, Some y => str_eqb x y
  | _, _ => false
  end.

(** [x in xs] for a list of strings. *)
Definition str_in (x : str) (xs : list str) : bool := existsb (str_eqb x) xs.

(** [xs.index(x)] *)
Fixpoint str_index (x : str) (xs : list str) : option nat :=
  match xs with
  | [] => None
  | y :: ys => if str_eqb y x then Some 0 else option_map S (str_index x ys)
  end.

(** [s.startswith(p)] *)
Fixpoint startswith (s p : str) {struct p} : bool :=
  match p, s with
  | [], _ => true
  | c :: p', d :: s' => Ascii.eqb c d && startswith s' p'
  | _ :: _, [] => false
  end.

(** [s.endswith(p)] *)
Definition endswith (s p : str) : bool := startswith (rev s) (rev p).

(** [s.count(c)] for a one-character [c]. *)
Definition count_char (c : ascii) (s : str) : nat :=
  length (filter (Ascii.eqb c) s).

(** [s.lstrip(c)] for a one-character [c]. *)
Fixpoint lstrip_char (c : ascii) (s : str) : str :=
  match s with
  | d :: s' => if Ascii.eqb d c then lstrip_char c s' else s
  | [] => []
  end.

(** [s.split(c)] with an explicit one-character separator: empty fields are
    kept, and the empty string splits into one empty field. *)
Fixpoint split_on (c : ascii) (s : str) : list str :=
  match s with
  | [] => [[]]
  | d :: s' =>
      if Ascii.eqb d c then [] :: split_on c s'
      else match split_on c s' with
           | f :: fs => (d :: f) :: fs
           | [] => [[d]]
           end
  end.

(** [sep.join(xs)] *)
Fixpoint join (sep : str) (xs : list str) : str :=
  match xs with
  | [] => []
  | [x] => x
  | x :: xs' => x ++ sep ++ join sep xs'
  end.

(** [s.replace(c, r, 1)]: the first occurrence of the character [c]. *)
Fixpoint replace_first (c : ascii) (r : str) (s : str) : str :=
  match s with
  | [] => []
  | d :: s' => if Ascii.eqb d c then r ++ s' else d :: replace_first c r s'
  end.

(** [s[a:b]] for [0 <= a], [0 <= b]. *)
Definition slice (s : str) (a b : nat) : str := firstn (b - a) (skipn a s).

(** ** Character classes of Python on U+0000..U+00FF *)

Definition between (lo hi : nat) (c : ascii) : bool :=
  let n := nat_of_ascii c in (lo <=? n) && (n <=? hi).

(** [int] accepts the decimal digits only. *)
Definition isdecimal_char (c : ascii) : bool := between 48 57 c.

(** [c.isdigit()]: the decimal digits and the superscripts two, three, one. *)
Definition isdigit_char (c : ascii) : bool :=
  isdecimal_char c || between 178 179 c || between 185 185 c.

(** [c.isnumeric()]: as [isdigit], and the three vulgar fractions. *)
Definition isnumeric_char (c : ascii) : bool :=
  isdigit_char c || between 188 190 c.

(** [c.isspace()] *)
Definition isspace_char (c : ascii) : bool :=
  between 9 13 c || between 28 32 c || between 133 133 c || between 160 160 c.

(** [c.lower()] *)
Definition lower_char (c : ascii) : ascii :=
  if between 65 90 c || (between 192 222 c && negb (between 215 215 c))
  then ascii_of_nat (nat_of_ascii c + 32) else c.

(** [s.isdigit()], [s.isnumeric()]: false on the empty string. *)
Definition isdigit (s : str) : bool :=
  match s with [] => false | _ => forallb isdigit_char s end.

Definition isnumeric (s : str) : bool :=
  match s with [] => false | _ => forallb isnumeric_char s end.

(** [s.split()]: fields separated by runs of white space, no empty field.
    [cur] is the field being read, reversed. *)
Fixpoint split_ws_from (cur : str) (s : str) : list str :=
  match s with
  | [] => match cur with [] => [] | _ => [rev cur] end
  | c :: s' =>
      if isspace_char c
      then match cur with
           | [] => split_ws_from [] s'
           | _ => rev cur :: split_ws_from [] s'
           end
      else split_ws_from (c :: cur) s'
  end.

Definition split_ws (s : str) : list str := split_ws_from [] s.

(** [str(n)] for a natural number. *)
Definition digit_char (d : nat) : ascii := ascii_of_nat (48 + d).

Fixpoint str_of_nat_fuel (fuel n : nat) (acc : str) : str :=
  match fuel with
  | 0 => acc
  | S fuel' =>
      let acc' := digit_char (n mod 10) :: acc in
      if n <? 10 then acc' else str_of_nat_fuel fuel' (n / 10) acc'
  end.

Definition str_of_nat (n : nat) : str := str_of_nat_fuel (S n) n [].

(** ** Exceptions *)

Inductive exn : Type :=
| SyntaxError_unrecognized (tag text : str)
    (* 'Markup tag "<tag>" in string "<text>" is not recognized.' *)
| SyntaxError_hex (tag : str)
    (* '"<tag>" could not be converted to HEX.' *)
| SyntaxError_invalid_code (code : str)
    (* 'Invalid ANSI code "<code>" in token ...' *)
| SyntaxError_non_digit
    (* 'Cannot convert non-digit to color.' *)
| KeyError_lookup (key : str)
    (* a missing key in a dict subscript *)
| KeyError_no_unsetter
    (* 'Could not find setter for token ...' raised by get_unsetter *)
| ValueError_no_setter
    (* 'Could not find setter for token ...' raised by get_setter *)
| ValueError_int (s : str)
    (* int() on a string that is not a decimal literal *)
| IndexError
    (* NAMES[index] out of range *)
| AttributeError
    (* a method called on None *)
| AssertionError.

Definition is_SyntaxError (e : exn) : bool :=
  match e with
  | SyntaxError_unrecognized _ _ | SyntaxError_hex _
  | SyntaxError_invalid_code _ | SyntaxError_non_digit => true
  | _ => false
  end.

Definition is_KeyError (e : exn) : bool :=
  match e with
  | KeyError_lookup _ | KeyError_no_unsetter => true
  | _ => false
  end.

Inductive result (A : Type) : Type :=
| Ok (a : A)
| Raise (e : exn).

Arguments Ok {A} a.
Arguments Raise {A} e.

Definition bind {A B : Type} (r : result A) (k : A -> result B) : result B :=
  match r with
  | Ok a => k a
  | Raise e => Raise e
  end.

Notation "x <- r ;; k" := (bind r (fun x => k))
  (at level 61, r at next level, right associativity).

(** [int(s)] on a string of which every character is numeric: the decimal
    value when every character is a decimal digit, [ValueError] otherwise.
    The limit that the interpreter may put on the length of the literal is
    not modelled. *)
Definition int_of_str (s : str) : result nat :=
  match s with
  | [] => Raise (ValueError_int s)
  | _ =>
      if forallb isdecimal_char s
      then Ok (fold_left (fun acc c => 10 * acc + (nat_of_ascii c - 48)) s 0)
      else Raise (ValueError_int s)
  end.

(** ** The escape table *)

Definition NAMES : list str :=
  map lit
    ["/"; "bold"; "dim"; "italic"; "underline"; "blink"; "blink2";
     "inverse"; "invisible"; "strikethrough"]%string.

Definition UNSET_MAP : list (str * str) :=
  map (fun kv => (lit (fst kv), lit (snd kv)))
    [("/bold", "22"); ("/dim", "22"); ("/italic", "23");
     ("/underline", "24"); ("/blink", "25"); ("/blink2", "26");
     ("/inverse", "27"); ("/invisible", "28"); ("/strikethrough", "29");
     ("/fg", "39"); ("/bg", "49")]%string.

(** A dict with string keys, in insertion order: [k in d], [d[k]],
    [d.values()], and the first key that holds a given value. *)
Section Dict.
Variable V : Type.
Variable V_eqb : V -> V -> bool.

Fixpoint dict_get (d : list (str * V)) (k : str) : option V :=
  match d with
  | [] => None
  | (k', v) :: d' => if str_eqb k' k then Some v else dict_get d' k
  end.

Definition dict_mem (d : list (str * V)) (k : str) : bool :=
  match dict_get d k with Some _ => true | None => false end.

Definition dict_subscript (d : list (str * V)) (k : str) : result V :=
  match dict_get d k with
  | Some v => Ok v
  | None => Raise (KeyError_lookup k)
  end.

Definition dict_has_value (d : list (str * V)) (v : V) : bool :=
  existsb (fun kv => V_eqb (snd kv) v) d.

Fixpoint dict_key_of (d : list (str * V)) (v : V) : option str :=
  match d with
  | [] => None
  | (k, v') :: d' => if V_eqb v' v then Some k else dict_key_of d' v
  end.
End Dict.

(** Modelled from the spec: [reset()] of [ansi_interface], which is not
    among the sources; it returns the universal reset sequence, ESC[0m. *)
Definition reset : str := esc :: lit "[0m".

(** ** Tokens *)

Inductive TokenAttribute : Type :=
| CLEAR
| COLOR
| STYLE
| ESCAPED
| BACKGROUND_COLOR.

Record Token : Type := mkToken {
  start : nat;
  end_ : nat;
  plain : option str;
  code : option str;
  attribute : option TokenAttribute
}.

(** [Token.to_sequence] *)
Definition to_sequence (self : Token) : result str :=
  match code self with
  | None =>
      match plain self with
      | None => Raise AssertionError
      | Some p => Ok p
      end
  | Some c => Ok (esc :: lit "[" ++ c ++ lit "m")
  end.

Section Parser.

(** [foreground.names]: colour name to palette index. *)
Variable names : list (str * nat).

(** [foreground.translate_hex]: the components of a hex colour, [None]
    when it raises [ValueError]. *)
Variable translate_hex : str -> option (list nat).

(** The characters of a colour tag:
    [char.isdigit() or char.lower() in "#;@abcdef"]. *)
Definition color_char (c : ascii) : bool :=
  isdigit_char c || existsb (Ascii.eqb (lower_char c)) (lit "#;@abcdef").

Definition _handle_color (tag : str) : result (option (str * bool)) :=
  if negb (forallb color_char tag) then Ok None
  else
    let '(pretext, tag) :=
      if startswith tag (lit "@") then (lit "48;", tl tag)
      else (lit "38;", tag) in
    let hexcolor := startswith tag (lit "#") in
    let color_pre :=
      if (count_char ";" tag <? 2) && negb hexcolor then lit "5;"
      else lit "2;" in
    tag <- (if hexcolor
            then match translate_hex tag with
                 | Some vals => Ok (join (lit ";") (map str_of_nat vals))
                 | None => Raise (SyntaxError_hex tag)
                 end
            else Ok tag) ;;
    Ok (Some (pretext ++ color_pre ++ tag, str_eqb pretext (lit "48;"))).

Definition _handle_named_color (tag : str) : result (option (str * bool)) :=
  if negb (dict_mem names (lstrip_char "@" tag)) then Ok None
  else
    let '(tag, background) :=
      if startswith tag (lit "@") then (tl tag, lit "@")
      else (tag, []) in
    value <- dict_subscript names tag ;;
    _handle_color (background ++ str_of_nat value).

(** [Token.to_name] *)
Definition to_name (self : Token) : result str :=
  match plain self with
  | Some p => Ok p
  | None =>
      match code self with
      | None => Raise AssertionError
      | Some c =>
          if isdigit c then
            match dict_key_of str_eqb UNSET_MAP c with
            | Some key => Ok key
            | None =>
                index <- int_of_str c ;;
                match nth_error NAMES index with
                | Some name => Ok name
                | None => Raise IndexError
                end
            end
          else
            let numbers := split_on ";" c in
            let out :=
              if str_eqb (hd [] numbers) (lit "48") then lit "@" else [] in
            if length numbers <? 3 then Raise (SyntaxError_invalid_code c)
            else if negb (forallb isdigit numbers) then
              Raise SyntaxError_non_digit
            else
              simple <- int_of_str (nth 2 numbers []) ;;
              match
                (if (length numbers =? 3)
                    && dict_has_value Nat.eqb names simple
                 then dict_key_of Nat.eqb names simple else None)
              with
              | Some name => Ok (out ++ name)
              | None => Ok (out ++ join (lit ";") (skipn 2 numbers))
              end
      end
  end.

(** [Token.get_unsetter] *)
Definition get_unsetter (self : Token) : result (option str) :=
  match plain self with
  | Some _ => Ok None
  | None =>
      match attribute self with
      | Some CLEAR =>
          name <- to_name self ;;
          v <- dict_subscript UNSET_MAP name ;;
          Ok (Some v)
      | Some COLOR =>
          v <- dict_subscript UNSET_MAP (lit "/fg") ;; Ok (Some v)
      | Some BACKGROUND_COLOR =>
          v <- dict_subscript UNSET_MAP (lit "/bg") ;; Ok (Some v)
      | _ =>
          n <- to_name self ;;
          let name := lit "/" ++ n in
          if negb (dict_mem UNSET_MAP name) then Raise KeyError_no_unsetter
          else v <- dict_subscript UNSET_MAP name ;; Ok (Some v)
      end
  end.

(** [Token.get_setter] *)
Definition get_setter (self : Token) : result (option str) :=
  match plain self, attribute self with
  | None, Some CLEAR =>
      if opt_str_eqb (code self) (Some (lit "0")) then Ok None
      else
        name <- to_name self ;;
        if str_in name [lit "/fg"; lit "/bg"] then Ok None
        else
          let name := tl name in
          match str_index name NAMES with
          | None => Raise ValueError_no_setter
          | Some i => Ok (Some (str_of_nat i))
          end
  | _, _ => Ok None
  end.

End Parser.

(** ** The two grammars *)

(** [re.finditer]: the matches of a pattern in a text, leftmost first and
    not overlapping.  [match_here s] is the match of the pattern at the
    start of [s], as its length and its groups; the two patterns below
    match no empty string.  [skip] counts the characters of the last match
    that are still to be passed, [pos] is the offset of [s] in the text. *)
Section Finditer.
Variable G : Type.
Variable match_here : str -> option (nat * G).

Fixpoint finditer_from (skip pos : nat) (s : str) : list (nat * nat * G) :=
  match s with
  | [] => []
  | _ :: s' =>
      match skip with
      | S k => finditer_from k (S pos) s'
      | 0 =>
          match match_here s with
          | Some (len, g) =>
              (pos, pos + len, g) :: finditer_from (pred len) (S pos) s'
          | None => finditer_from 0 (S pos) s'
          end
      end
  end.

Definition finditer (text : str) : list (nat * nat * G) :=
  finditer_from 0 0 text.
End Finditer.

(** The lazy group before [m]: the shortest run of characters other than the line feed that
    is followed by [m]. *)
Fixpoint lazy_until_m (s : str) : option str :=
  match s with
  | [] => None
  | c :: s' =>
      if Ascii.eqb c "m" then Some []
      else if Ascii.eqb c newline then None
      else option_map (cons c) (lazy_until_m s')
  end.

(** The lazy group before ESC and a backslash: the shortest run of
    characters other than the line feed that these two follow. *)
Fixpoint lazy_until_st (s : str) : option str :=
  match s with
  | [] => None
  | c :: s' =>
      if startswith s [esc; backslash] then Some []
      else if Ascii.eqb c newline then None
      else option_map (cons c) (lazy_until_st s')
  end.

(** The lazy group before a closing bracket. *)
Fixpoint lazy_until_bracket (s : str) : option str :=
  match s with
  | [] => None
  | c :: s' =>
      if Ascii.eqb c "]" then Some []
      else if Ascii.eqb c newline then None
      else option_map (cons c) (lazy_until_bracket s')
  end.

(** [RE_ANSI] at the start of [s]: either ESC, an opening bracket, the
    shortest run of characters other than the line feed that [m] follows,
    and that [m]; or ESC, a closing bracket, the shortest such run that ESC
    and a backslash follow, and these two.  The result is the length of the
    match and its two groups, of which one is [None]. *)
Definition RE_ANSI (s : str) : option (nat * (option str * option str)) :=
  match s with
  | c0 :: c1 :: r =>
      if Ascii.eqb c0 esc && Ascii.eqb c1 "[" then
        match lazy_until_m r with
        | Some g => Some (2 + length g + 1, (Some g, None))
        | None => None
        end
      else if Ascii.eqb c0 esc && Ascii.eqb c1 "]" then
        match lazy_until_st r with
        | Some g => Some (2 + length g + 2, (None, Some g))
        | None => None
        end
      else None
  | _ => None
  end.

(** The leading backslashes of [s], and what follows them. *)
Fixpoint span_backslashes (s : str) : str * str :=
  match s with
  | c :: s' =>
      if Ascii.eqb c backslash
      then let (b, r) := span_backslashes s' in (c :: b, r)
      else ([], s)
  | [] => ([], [])
  end.

(** The class of the first character of a tag: a lower-case letter, a
    decimal digit, or one of the four characters below. *)
Definition tag_first_char (c : ascii) : bool :=
  between 97 122 c || between 48 57 c
  || existsb (Ascii.eqb c) (lit "!#@/").

(** [RE_TAGS] at the start of [s]: any number of backslashes (as many as
    there are), an opening bracket, one character of the class, the shortest
    run of characters other than the line feed that a closing bracket
    follows, and that bracket.  The result is the length of the match and
    the groups [full], [escapes], [tag_text]. *)
Definition RE_TAGS (s : str) : option (nat * (str * str * str)) :=
  let (escapes, r) := span_backslashes s in
  match r with
  | c0 :: c1 :: r' =>
      if Ascii.eqb c0 "[" && tag_first_char c1 then
        match lazy_until_bracket r' with
        | Some g =>
            let tag_text := c1 :: g in
            let full := escapes ++ lit "[" ++ tag_text ++ lit "]" in
            Some (length full, (full, escapes, tag_text))
        | None => None
        end
      else None
  | _ => None
  end.

(** ** The ANSI tokenizer *)

(** A generator: the tokens it yields, and the exception that ends it. *)
Definition generator : Type := list Token * option exn.

Definition yield (t : Token) (g : generator) : generator :=
  (t :: fst g, snd g).

(** The attribute [tokenize_ansi] gives to an SGR payload. *)
Definition ansi_attribute (sgr : str) : result (option TokenAttribute) :=
  if startswith sgr (lit "38;") then Ok (Some COLOR)
  else if startswith sgr (lit "48;") then Ok (Some BACKGROUND_COLOR)
  else if str_eqb sgr (lit "0") then Ok (Some CLEAR)
  else
    is_style <- (if isnumeric sgr
                 then n <- int_of_str sgr ;; Ok (n <? length NAMES)
                 else Ok false) ;;
    if is_style then Ok (Some STYLE)
    else if dict_has_value str_eqb UNSET_MAP sgr then Ok (Some CLEAR)
    else Ok None.

(** [previous is None or not previous.code == sgr] *)
Definition differs_from_previous (previous : option Token) (sgr : str) : bool :=
  match previous with
  | None => true
  | Some p => negb (opt_str_eqb (code p) (Some sgr))
  end.

(** The loop of [tokenize_ansi] over the matches that remain, and the code
    after the loop. *)
Fixpoint tokenize_ansi_loop (text : str)
    (matches : list (nat * nat * (option str * option str)))
    (position start end_ : nat) (previous : option Token) : generator :=
  match matches with
  | [] =>
      if position <? length text
      then ([mkToken start end_ (Some (skipn position text)) None None], None)
      else ([], None)
  | (start, end_, (sgr, _)) :: matches' =>
      let token := mkToken start end_ (Some (slice text position start))
                     None None in
      let between_matches := position <? start in
      let previous := if between_matches then Some token else previous in
      let rest :=
        match sgr with
        | None => ([], Some AttributeError)
        | Some sgr =>
            match ansi_attribute sgr with
            | Raise e => ([], Some e)
            | Ok attribute =>
                let token := mkToken start end_ None (Some sgr) attribute in
                if differs_from_previous previous sgr
                then yield token
                       (tokenize_ansi_loop text matches' end_ start end_
                          (Some token))
                else tokenize_ansi_loop text matches' end_ start end_ previous
            end
        end in
      if between_matches then yield token rest else rest
  end.

Definition tokenize_ansi (text : str) : generator :=
  tokenize_ansi_loop text (finditer RE_ANSI text) 0 0 0 None.

(** A [for] loop over a generator: the body is run on each token yielded,
    in order; an exception of the body ends the loop, and so does the
    exception of the generator once its tokens are consumed. *)
Section ForLoop.
Variable S : Type.
Variable body : S -> Token -> result S.

Fixpoint for_tokens (tokens : list Token) (s : S) : result S :=
  match tokens with
  | [] => Ok s
  | t :: tokens' => s' <- body s t ;; for_tokens tokens' s'
  end.

Definition for_each (g : generator) (s : S) : result S :=
  s' <- for_tokens (fst g) s ;;
  match snd g with
  | Some e => Raise e
  | None => Ok s'
  end.
End ForLoop.

Section Converters.

Variable names : list (str * nat).
Variable translate_hex : str -> option (list nat).

(** ** The markup tokenizer *)

Definition color_attribute (background : bool) : TokenAttribute :=
  if background then BACKGROUND_COLOR else COLOR.

(** The body of the loop over the tags of one bracket: the token of a
    tag, or the exception it raises. *)
Definition tag_token (text : str) (start end_ : nat) (tag : str)
  : result Token :=
  match str_index tag NAMES with
  | Some i =>
      Ok (mkToken start end_ None (Some (str_of_nat i))
            (Some (if str_eqb tag (lit "/") then CLEAR else STYLE)))
  | None =>
      match dict_get UNSET_MAP tag with
      | Some c => Ok (mkToken start end_ None (Some c) (Some CLEAR))
      | None =>
          data <- _handle_named_color names translate_hex tag ;;
          match data with
          | Some (code, background) =>
              Ok (mkToken start end_ None (Some code)
                    (Some (color_attribute background)))
          | None =>
              data <- _handle_color translate_hex tag ;;
              match data with
              | Some (color, background) =>
                  Ok (mkToken start end_ None (Some color)
                        (Some (color_attribute background)))
              | None => Raise (SyntaxError_unrecognized tag text)
              end
          end
      end
  end.

(** The tokens of the tags of one bracket, then [rest]. *)
Fixpoint tokenize_tags (text : str) (start end_ : nat) (tags : list str)
    (rest : generator) : generator :=
  match tags with
  | [] => rest
  | tag :: tags' =>
      match tag_token text start end_ tag with
      | Ok token => yield token (tokenize_tags text start end_ tags' rest)
      | Raise e => ([], Some e)
      end
  end.

Fixpoint tokenize_markup_loop (text : str)
    (matches : list (nat * nat * (str * str * str)))
    (position start end_ : nat) : generator :=
  match matches with
  | [] =>
      if position <? length text
      then ([mkToken start end_ (Some (skipn position text)) None None], None)
      else ([], None)
  | (start, end_, (full, escapes, tag_text)) :: matches' =>
      let rest :=
        if negb (str_eqb escapes [])
        then yield (mkToken start end_ (Some (skipn (length escapes) full))
                      None (Some ESCAPED))
               (tokenize_markup_loop text matches' end_ start end_)
        else tokenize_tags text start end_ (split_ws tag_text)
               (tokenize_markup_loop text matches' end_ start end_) in
      if position <? start
      then yield (mkToken start end_ (Some (slice text position start))
                    None None) rest
      else rest
  end.

Definition tokenize_markup (text : str) : generator :=
  tokenize_markup_loop text (finditer RE_TAGS text) 0 0 0.

(** ** The optimizer *)

Record optimize_state : Type := mkOptimize {
  out : str;
  sequence : str;
  previous_sequence : option str
}.

Definition optimize_body (s : optimize_state) (token : Token)
  : result optimize_state :=
  match code token with
  | Some c =>
      if str_eqb c (lit "0") then
        Ok (mkOptimize
              (if 0 <? length (sequence s) then out s ++ reset else out s)
              [] (previous_sequence s))
      else
        seq <- to_sequence token ;;
        Ok (mkOptimize (out s) (sequence s ++ seq) (previous_sequence s))
  | None =>
      let flush :=
        negb (opt_str_eqb (previous_sequence s) (Some (sequence s))) in
      name <- to_name names token ;;
      Ok (mkOptimize
            ((if flush then out s ++ sequence s else out s) ++ name)
            []
            (if flush then Some (sequence s) else previous_sequence s))
  end.

Definition optimize_ansi (ansi : str) : result str :=
  s <- for_each optimize_body (tokenize_ansi ansi) (mkOptimize [] [] None) ;;
  Ok (if negb (endswith (out s) reset) then out s ++ reset else out s).

(** ** The converters *)

Definition markup_to_ansi_body (ansi : str) (token : Token) : result str :=
  seq <- to_sequence token ;; Ok (ansi ++ seq).

Definition markup_to_ansi (markup : str)
    (ensure_reset ensure_optimized : bool) : result str :=
  ansi <- for_each markup_to_ansi_body (tokenize_markup markup) [] ;;
  let ansi :=
    if ensure_reset && negb (endswith ansi reset) then ansi ++ reset
    else ansi in
  if ensure_optimized then optimize_ansi ansi else Ok ansi.

Record markup_state : Type := mkMarkup {
  markup : str;
  in_attr : bool;
  current_bracket : list str
}.

Definition bracketed (current_bracket : list str) : str :=
  lit "[" ++ join (lit " ") current_bracket ++ lit "]".

Definition ansi_to_markup_body (s : markup_state) (token : Token)
  : result markup_state :=
  match code token with
  | Some c =>
      if str_eqb c (lit "0") then
        Ok (mkMarkup (markup s) true
              (if 0 <? length (markup s) then [lit "/"] else []))
      else
        name <- to_name names token ;;
        Ok (mkMarkup (markup s) true (current_bracket s ++ [name]))
  | None =>
      let close := in_attr s && (0 <? length (current_bracket s)) in
      name <- to_name names token ;;
      Ok (mkMarkup
            ((if close then markup s ++ bracketed (current_bracket s)
              else markup s)
             ++ replace_first "[" [backslash; "["%char] name)
            (in_attr s)
            (if close then [] else current_bracket s))
  end.

Definition ansi_to_markup (ansi : str) (no_duplicates ensure_reset : bool)
  : result str :=
  let ansi :=
    if ensure_reset && negb (endswith ansi reset) then ansi ++ reset
    else ansi in
  s <- for_each ansi_to_markup_body (tokenize_ansi ansi)
         (mkMarkup [] false []) ;;
  Ok (if 0 <? length (current_bracket s)
      then markup s ++ bracketed (current_bracket s)
      else markup s).

End Converters.

(** ** A colour registry and a hex translator

    The instances at which the statements below are evaluated. *)

(** Modelled from the spec: the colour registry of [ansi_interface], which
    is not among the sources; the eight base names and their palette
    indices, as the module documentation of the parser lists them. *)
Definition base_names : list (str * nat) :=
  map (fun kv => (lit (fst kv), snd kv))
    [("black", 0); ("red", 1); ("green", 2); ("yellow", 3); ("blue", 4);
     ("magenta", 5); ("cyan", 6); ("white", 7)]%string.

Definition hex_digit (c : ascii) : option nat :=
  let n := nat_of_ascii (lower_char c) in
  if between 48 57 c then Some (n - 48)
  else if between 97 102 (lower_char c) then Some (n - 87)
  else None.

(** Modelled from the spec: the hex translator of [ansi_interface], which
    is not among the sources; it maps a sharp sign and six hex digits to
    the three components, and rejects anything else. *)
Definition hex_translator (color : str) : option (list nat) :=
  match color with
  | c :: r1 :: r2 :: g1 :: g2 :: b1 :: b2 :: [] =>
      if Ascii.eqb c "#" then
        match hex_digit r1, hex_digit r2, hex_digit g1, hex_digit g2,
              hex_digit b1, hex_digit b2 with
        | Some r1, Some r2, Some g1, Some g2, Some b1, Some b2 =>
            Some [16 * r1 + r2; 16 * g1 + g2; 16 * b1 + b2]
        | _, _, _, _, _, _ => None
        end
      else None
  | _ => None
  end.

(** ** Vocabulary of the properties *)

(** Two tokens that carry the same code. *)
Definition same_code (t1 t2 : Token) : Prop :=
  exists c, code t1 = Some c /\ code t2 = Some c.

(** No two consecutive tokens carry the same code. *)
Fixpoint no_adjacent_duplicates (ts : list Token) : Prop :=
  match ts with
  | t1 :: ts' =>
      match ts' with
      | t2 :: _ => ~ same_code t1 t2
      | [] => True
      end /\ no_adjacent_duplicates ts'
  | [] => True
  end.

(** The first token of [ts], if any, does not repeat the code of
    [previous]. *)
Definition head_differs (previous : option Token) (ts : list Token) : Prop :=
  match previous, ts with
  | Some p, t :: _ => ~ same_code p t
  | _, _ => True
  end.

(** A token holds a text or a code, not both and not neither. *)
Definition text_or_code (t : Token) : Prop :=
  match plain t, code t with
  | Some _, None | None, Some _ => True
  | _, _ => False
  end.

(** The exception of a result, if it is one. *)
Definition error_of (A : Type) (r : result A) : option exn :=
  match r with
  | Ok _ => None
  | Raise e => Some e
  end.

(** The first exception of a list of outcomes. *)
Fixpoint first_error (es : list (option exn)) : option exn :=
  match es with
  | [] => None
  | Some e :: _ => Some e
  | None :: es' => first_error es'
  end.

(** The number of fields that the semicolons of [s] separate. *)
Definition semicolon_parts (s : str) : nat := length (split_on ";" s).

Section TagWords.

Variable names : list (str * nat).
Variable translate_hex : str -> option (list nat).

(** The tag words of a match of [RE_TAGS]: none when the bracket is
    escaped. *)
Definition bracket_words (m : nat * nat * (str * str * str)) : list str :=
  let '(_, _, (_, escapes, tag_text)) := m in
  if str_eqb escapes [] then split_ws tag_text else [].

(** The tag words of a markup string, in the order of the text. *)
Definition tag_words (text : str) : list str :=
  concat (map bracket_words (finditer RE_TAGS text)).

(** The exception that a tag word raises in the tokenizer, if any. *)
Definition tag_error (text tag : str) : option exn :=
  error_of (tag_token names translate_hex text 0 0 tag).

(** A tag word that is no style name, no key of [UNSET_MAP], no named
    colour and no colour by its characters. *)
Definition unrecognized (tag : str) : Prop :=
  str_index tag NAMES = None
  /\ dict_get UNSET_MAP tag = None
  /\ _handle_named_color names translate_hex tag = Ok None
  /\ _handle_color translate_hex tag = Ok None.

(** The tokenizer ends with the exception for an unrecognized tag, which
    carries that tag and the whole text. *)
Definition raises_unrecognized (text : str) : Prop :=
  exists tag,
    unrecognized tag
    /\ snd (tokenize_markup names translate_hex text)
       = Some (SyntaxError_unrecognized tag text).

(** The colour depth by the number of fields: the 8-bit palette when the
    tag has fewer than [bound] fields and is no hex colour. *)
Definition depth_by_parts (bound : nat) (tag : str) : str :=
  if (semicolon_parts tag <? bound) && negb (startswith tag (lit "#"))
  then lit "5;" else lit "2;".

(** The fragment of a colour tag begins with the layer, 48 for a tag that
    begins with an at sign and 38 otherwise, then the depth chosen with
    [bound], and the flag tells the layer. *)
Definition color_fragment_by_parts (bound : nat) (tag : str) : Prop :=
  let background := startswith tag (lit "@") in
  let body := if background then tl tag else tag in
  exists payload,
    _handle_color translate_hex tag
    = Ok (Some ((if background then lit "48;" else lit "38;")
                ++ depth_by_parts bound body ++ payload, background)).

(** No colour name is a style name, with or without its first
    character. *)
Definition names_apart_from_styles : bool :=
  forallb (fun kv => negb (str_in (fst kv) NAMES)
                     && negb (str_in (tl (fst kv)) NAMES)) names.

(** [get_setter] raises on [t] only after [to_name] has given a name
    whose tail is no style name. *)
Definition fails_only_on_unknown_style (t : Token) : Prop :=
  forall e,
    get_setter names t = Raise e ->
    exists name,
      to_name names t = Ok name /\ str_index (tl name) NAMES = None.

End TagWords.

(** ** ANSI strings as pieces

    An ANSI string read as a sequence of pieces, each an SGR sequence or a
    run of text; the content of a token is a piece as well. *)

Inductive content : Type :=
| Text (s : str)
| Sgr (c : str).

(** The SGR sequence of a code, as [to_sequence] writes it. *)
Definition sgr_sequence (c : str) : str := esc :: lit "[" ++ c ++ lit "m".

Definition render_content (p : content) : str :=
  match p with
  | Text s => s
  | Sgr c => sgr_sequence c
  end.

Definition render (ps : list content) : str :=
  concat (map render_content ps).

Definition render_codes (cs : list str) : str :=
  concat (map sgr_sequence cs).

Definition content_of (t : Token) : option content :=
  match plain t, code t with
  | Some s, None => Some (Text s)
  | None, Some c => Some (Sgr c)
  | _, _ => None
  end.

Definition previous_code (previous : option Token) : option str :=
  match previous with
  | Some p => code p
  | None => None
  end.

(** A parameter string of decimal digits and semicolons. *)
Definition numeric_param (c : str) : bool :=
  forallb (fun ch => isdecimal_char ch || Ascii.eqb ch ";") c.

(** A text without the ESC character. *)
Definition esc_free (s : str) : bool :=
  forallb (fun ch => negb (Ascii.eqb ch esc)) s.

Definition piece_ok (p : content) : bool :=
  match p with
  | Text s => esc_free s
  | Sgr c => numeric_param c
  end.

(** What the tokenizer makes of a sequence of pieces: [pending] is the text
    read since the last sequence, [previous] the code of the token yielded
    last if that was a code token. *)
Fixpoint lex (pending : str) (previous : option str) (ps : list content)
  : list content :=
  match ps with
  | [] =>
      match pending with
      | [] => []
      | _ :: _ => [Text pending]
      end
  | Text s :: ps' => lex (pending ++ s) previous ps'
  | Sgr c :: ps' =>
      match pending with
      | [] =>
          if opt_str_eqb previous (Some c) then lex [] previous ps'
          else Sgr c :: lex [] (Some c) ps'
      | _ :: _ => Text pending :: Sgr c :: lex [] (Some c) ps'
      end
  end.

(** The body of the loop of [optimize_ansi] on the content of a token. *)
Definition optimize_content (s : optimize_state) (p : content)
  : optimize_state :=
  match p with
  | Sgr c =>
      if str_eqb c (lit "0") then
        mkOptimize
          (if 0 <? length (sequence s) then out s ++ reset else out s)
          [] (previous_sequence s)
      else
        mkOptimize (out s) (sequence s ++ sgr_sequence c)
          (previous_sequence s)
  | Text t =>
      let flush :=
        negb (opt_str_eqb (previous_sequence s) (Some (sequence s))) in
      mkOptimize
        ((if flush then out s ++ sequence s else out s) ++ t)
        []
        (if flush then Some (sequence s) else previous_sequence s)
  end.

(** The last statement of [optimize_ansi]. *)
Definition ensure_reset_at_end (out : str) : str :=
  if negb (endswith out reset) then out ++ reset else out.

(** A segment: a run of SGR sequences and the text that follows it. *)
Definition segment : Type := (list str * str)%type.

Definition flat_segment (g : segment) : list content :=
  map Sgr (fst g) ++ [Text (snd g)].

(** The pieces of a list of segments and of the codes after the last
    text. *)
Definition flat (segs : list segment) (trailing : list str) : list content :=
  concat (map flat_segment segs) ++ map Sgr trailing.

(** A style code: numeric, and not the universal reset. *)
Definition style_param (c : str) : bool :=
  numeric_param c && negb (str_eqb c (lit "0")).

Definition nonempty (A : Type) (xs : list A) : bool :=
  match xs with
  | [] => false
  | _ :: _ => true
  end.

Definition segment_ok (g : segment) : bool :=
  forallb style_param (fst g) && nonempty (snd g) && esc_free (snd g).

(** The segments of an ANSI string: only the first may begin with text. *)
Definition segments_ok (segs : list segment) : bool :=
  forallb segment_ok segs && forallb (fun g => nonempty (fst g)) (tl segs).

(** A run of codes without the immediate repetitions, [previous] being the
    code before the run. *)
Fixpoint dedup_from (previous : option str) (cs : list str) : list str :=
  match cs with
  | [] => []
  | c :: cs' =>
      if opt_str_eqb previous (Some c) then dedup_from previous cs'
      else c :: dedup_from (Some c) cs'
  end.

Definition dedup_segment (g : segment) : segment :=
  (dedup_from None (fst g), snd g).

(** The output of the optimizer on segments without a reset: the codes of
    a segment are written unless they are those of the segment before. *)
Fixpoint optimized (previous : option str) (segs : list segment) : str :=
  match segs with
  | [] => []
  | g :: segs' =>
      (if opt_str_eqb previous (Some (render_codes (fst g))) then []
       else render_codes (fst g))
      ++ snd g ++ optimized (Some (render_codes (fst g))) segs'
  end.

(** The segments of that output: a segment with the codes of the one
    before it is joined to it. *)
Fixpoint merge_into (cur : segment) (segs : list segment) : list segment :=
  match segs with
  | [] => [cur]
  | g :: segs' =>
      if str_eqb (render_codes (fst cur)) (render_codes (fst g))
      then merge_into (fst cur, snd cur ++ snd g) segs'
      else cur :: merge_into g segs'
  end.

Definition merge (segs : list segment) : list segment :=
  match segs with
  | [] => []
  | g :: segs' => merge_into g segs'
  end.

(** No segment has the codes of the one before it. *)
Fixpoint chain (previous : option str) (segs : list segment) : bool :=
  match segs with
  | [] => true
  | g :: segs' =>
      negb (opt_str_eqb previous (Some (render_codes (fst g))))
      && chain (Some (render_codes (fst g))) segs'
  end.

(** A segment of the tokenizer: style codes without an immediate
    repetition, and a text that is not empty and has no ESC. *)
Definition segment_good (g : segment) : Prop :=
  forallb style_param (fst g) = true
  /\ nonempty (snd g) = true
  /\ esc_free (snd g) = true
  /\ dedup_from None (fst g) = fst g.

(** A segment that begins with a code. *)
Definition coded (g : segment) : Prop := nonempty (fst g) = true.

(** A piece of a string without a reset: a style code, or text without
    the ESC character. *)
Definition style_piece (p : content) : bool :=
  match p with
  | Text s => esc_free s
  | Sgr c => style_param c
  end.

(** The segments of a sequence of pieces and the codes after the last text;
    [codes] and [text] are those of the segment being read. *)
Fixpoint segments_from (codes : list str) (text : str) (ps : list content)
  : list segment * list str :=
  match ps with
  | [] =>
      match text with
      | [] => ([], codes)
      | _ :: _ => ([(codes, text)], [])
      end
  | Text s :: ps' => segments_from codes (text ++ s) ps'
  | Sgr c :: ps' =>
      match text with
      | [] => segments_from (codes ++ [c]) [] ps'
      | _ :: _ =>
          let (segs, trailing) := segments_from [c] [] ps' in
          ((codes, text) :: segs, trailing)
      end
  end.

(** ** Further functions of the parser *)

(** A hexadecimal digit in lower case. *)
Definition hex_char (d : nat) : ascii :=
  if d <? 10 then ascii_of_nat (48 + d) else ascii_of_nat (87 + d).

(** The encoding [unicode_escape] of one character of the range: a
    backslash is doubled, a printable ASCII character is kept, the
    tabulation, the line feed and the carriage return are written with
    their letter, and any other character with two hexadecimal digits. *)
Definition escape_char (c : ascii) : str :=
  let n := nat_of_ascii c in
  if Ascii.eqb c backslash then [backslash; backslash]
  else if (32 <=? n) && (n <? 127) then [c]
  else if n =? 9 then [backslash; "t"%char]
  else if n =? 10 then [backslash; "n"%char]
  else if n =? 13 then [backslash; "r"%char]
  else [backslash; "x"%char; hex_char (n / 16); hex_char (n mod 16)].

(** [escape_ansi]: [text.encode("unicode_escape").decode("utf-8")]. *)
Definition escape_ansi (text : str) : str := concat (map escape_char text).

(** A printable ASCII character. *)
Definition printable_char (c : ascii) : bool := between 32 126 c.

(** A token of the ANSI tokenizer: a text without attribute, or a code. *)
Definition ansi_token_shape (t : Token) : Prop :=
  match plain t, code t with
  | Some _, None => attribute t = None
  | None, Some _ => True
  | _, _ => False
  end.

(** A token of the markup tokenizer: a text that has no attribute or is
    escaped, or a code with one of the four attributes of a tag. *)
Definition markup_token_shape (t : Token) : Prop :=
  match plain t, code t with
  | Some _, None => attribute t = None \/ attribute t = Some ESCAPED
  | None, Some _ =>
      attribute t = Some CLEAR \/ attribute t = Some STYLE
      \/ attribute t = Some COLOR \/ attribute t = Some BACKGROUND_COLOR
  | _, _ => False
  end.

(** A token that holds a code. *)
Definition has_code (t : Token) : bool :=
  match code t with
  | Some _ => true
  | None => false
  end.

(** The token [t] is the one that the markup tokenizer makes of the tag
    word [w] of [text]. *)
Definition token_of (names : list (str * nat))
    (translate_hex : str -> option (list nat)) (text : str) (t : Token)
    (w : str) : Prop :=
  exists start end_, tag_token names translate_hex text start end_ w = Ok t.

(** A field of a numeric colour tag: decimal digits, at least one. *)
Definition decimal_field (f : str) : bool :=
  nonempty f && forallb isdecimal_char f.

(** The depth that [_handle_color] gives to a tag that is no hex colour. *)
Definition color_depth (tag : str) : str :=
  if semicolon_parts tag <? 3 then lit "5;" else lit "2;".

(** The layer of a colour fragment. *)
Definition color_layer (background : bool) : str :=
  if background then lit "48;" else lit "38;".

(** The at sign of a background colour tag. *)
Definition at_sign (background : bool) : str :=
  if background then lit "@" else [].

(** The body of the loop of [ansi_to_markup] on the content of a token;
    [to_name] reads the text and the code of a token only. *)
Definition ansi_to_markup_content (names : list (str * nat))
    (s : markup_state) (p : content) : result markup_state :=
  match p with
  | Sgr c =>
      if str_eqb c (lit "0") then
        Ok (mkMarkup (markup s) true
              (if 0 <? length (markup s) then [lit "/"] else []))
      else
        name <- to_name names (mkToken 0 0 None (Some c) None) ;;
        Ok (mkMarkup (markup s) true (current_bracket s ++ [name]))
  | Text t =>
      let close := in_attr s && (0 <? length (current_bracket s)) in
      Ok (mkMarkup
            ((if close then markup s ++ bracketed (current_bracket s)
              else markup s)
             ++ replace_first "[" [backslash; "["%char] t)
            (in_attr s)
            (if close then [] else current_bracket s))
  end.

(** The text of the text tokens, in order. *)
Definition token_text (tokens : list Token) : str :=
  concat (map (fun t => match plain t with Some s => s | None => [] end)
            tokens).

(** The text of the text pieces, in order. *)
Definition piece_text (ps : list content) : str :=
  concat (map (fun p => match p with Text s => s | Sgr _ => [] end) ps).

(** The text without an opening bracket and without a backslash. *)
Definition bracket_free (s : str) : bool :=
  forallb (fun ch => negb (Ascii.eqb ch "[") && negb (Ascii.eqb ch backslash))
    s.

(** The part of the text that the span of a token delimits:
    [text[token.start:token.end]]. *)
Definition span_text (text : str) (t : Token) : str :=
  slice text (start t) (end_ t).

(** The span of a match of [RE_ANSI] in the text: it begins with ESC, and
    it is the sequence of the SGR group when the match has one. *)
Definition ansi_match_ok (text : str)
    (m : nat * nat * (option str * option str)) : Prop :=
  let '(s, e, (sgr, _)) := m in
  s < length text
  /\ (exists r, slice text s e = esc :: r)
  /\ (forall c, sgr = Some c -> slice text s e = sgr_sequence c).

(** The span of a token of [tokenize_ansi]: the one of a code token
    delimits its sequence; the one of a text token, whose text is not
    empty, is empty or delimits an escape sequence. *)
Definition ansi_span_ok (text : str) (t : Token) : Prop :=
  match code t, plain t with
  | Some c, _ => span_text text t = sgr_sequence c
  | None, Some p =>
      p <> [] /\ (span_text text t = [] \/ exists r, span_text text t = esc :: r)
  | None, None => False
  end.

(** A style name: an entry of [NAMES] other than the first one, the
    universal reset. *)
Definition style_word (w : str) : bool := str_in w (tl NAMES).

(** The code of a style name: its index in [NAMES], as a string. *)
Definition style_code (w : str) : str :=
  match str_index w NAMES with
  | Some i => str_of_nat i
  | None => []
  end.

(** No word of the list is the same as the word before it. *)
Fixpoint distinct_neighbours (ws : list str) : bool :=
  match ws with
  | a :: ws' =>
      match ws' with
      | b :: _ => negb (str_eqb a b)
      | [] => true
      end && distinct_neighbours ws'
  | [] => true
  end.

(** The span of a match of [RE_TAGS] in the text: it delimits the whole
    match, which is the backslashes and the bracket around the text of the
    tags. *)
Definition markup_match_ok (text : str)
    (m : nat * nat * (str * str * str)) : Prop :=
  let '(s, e, (full, escapes, tag_text)) := m in
  s < length text
  /\ slice text s e = full
  /\ full = escapes ++ lit "[" ++ tag_text ++ lit "]"
  /\ forallb (Ascii.eqb backslash) escapes = true.

(** The span of a token of [tokenize_markup]: the one of a code token
    delimits the bracket that holds its tag; the one of an escaped bracket
    delimits the backslashes and the bracket; the one of another text
    token, whose text is not empty, is empty or delimits a bracket with
    its backslashes. *)
Definition markup_span_ok (names : list (str * nat))
    (translate_hex : str -> option (list nat)) (text : str) (t : Token)
  : Prop :=
  match code t, plain t with
  | Some _, _ =>
      exists tag_text w,
        span_text text t = lit "[" ++ tag_text ++ lit "]"
        /\ In w (split_ws tag_text)
        /\ tag_token names translate_hex text (start t) (end_ t) w = Ok t
  | None, Some p =>
      p <> []
      /\ match attribute t with
         | Some ESCAPED =>
             exists escapes,
               escapes <> []
               /\ forallb (Ascii.eqb backslash) escapes = true
               /\ span_text text t = escapes ++ p
         | _ =>
             span_text text t = []
             \/ exists escapes tag_text,
                  span_text text t
                  = escapes ++ lit "[" ++ tag_text ++ lit "]"
         end
  | None, None => False
  end.

(** The value of a hexadecimal digit in lower case. *)
Definition hex_value (c : ascii) : nat :=
  let n := nat_of_ascii c in
  if n <? 58 then n - 48 else n - 87.

(** The reading of the first character that [escape_char] has written, and
    what follows it. *)
Definition unescape_head (s : str) : option (ascii * str) :=
  match s with
  | [] => None
  | c :: r =>
      if Ascii.eqb c backslash then
        match r with
        | k :: r' =>
            if Ascii.eqb k backslash then Some (backslash, r')
            else if Ascii.eqb k "t" then Some (ascii_of_nat 9, r')
            else if Ascii.eqb k "n" then Some (ascii_of_nat 10, r')
            else if Ascii.eqb k "r" then Some (ascii_of_nat 13, r')
            else
              match r' with
              | h :: l :: r'' =>
                  Some (ascii_of_nat (16 * hex_value h + hex_value l), r'')
              | _ => None
              end
        | [] => None
        end
      else Some (c, r)
  end.

(** The reading of an escaped text, one character after the other. *)
Fixpoint unescape_fuel (fuel : nat) (s : str) : str :=
  match fuel with
  | 0 => []
  | S fuel' =>
      match unescape_head s with
      | Some (c, r) => c :: unescape_fuel fuel' r
      | None => []
      end
  end.

Definition unescape (s : str) : str := unescape_fuel (length s) s.

(** ** The pretty-printer *)

(** [xs.remove(x)] when [x in xs], and nothing otherwise: the first
    occurrence is removed. *)
Fixpoint list_remove (x : str) (xs : list str) : list str :=
  match xs with
  | [] => []
  | y :: ys => if str_eqb y x then ys else y :: list_remove x ys
  end.

(** [str(n - offset)] for two natural numbers. *)
Definition str_of_difference (n offset : nat) : str :=
  if offset <=? n then str_of_nat (n - offset)
  else "-"%char :: str_of_nat (offset - n).

Record prettify_state : Type := mkPrettify {
  visual_bracket : list Token;
  applied_bracket : list str;
  pretty_out : str
}.

Section Prettify.

Variable names : list (str * nat).
Variable translate_hex : str -> option (list nat).

(** The sequence builders of [ansi_interface], which is not among the
    sources: [bold(text)] and [bold(text, reset_style=False)], the second
    argument being absent or given, and [foreground(text, color)]; each
    returns a string. *)
Variable bold : str -> option bool -> str.
Variable foreground : str -> nat -> str.

(** What [_style_attributes] appends for one token of the bracket. *)
Definition style_attribute (item : Token) : result str :=
  match attribute item with
  | Some CLEAR =>
      name <- to_name names item ;; Ok (foreground name 210)
  | Some COLOR =>
      seq <- to_sequence item ;;
      name <- to_name names item ;;
      Ok (seq ++ name ++ reset)
  | Some BACKGROUND_COLOR =>
      seq <- to_sequence item ;;
      let numbers :=
        (bold [] (Some false) ++ esc :: lit "[38")
        :: tl (split_on ";" seq) in
      name <- to_name names item ;;
      Ok (join (lit ";") numbers ++ name ++ reset)
  | Some ESCAPED =>
      name <- to_name names item ;;
      match name with
      | [] => Raise IndexError
      | c :: chars => Ok (foreground [backslash; c] 210 ++ chars)
      end
  | _ =>
      seq <- to_sequence item ;;
      name <- to_name names item ;;
      Ok (seq ++ foreground name 114)
  end.

(** The loop of [_style_attributes]: [i] is the index of the token. *)
Fixpoint style_items (i : nat) (attributes : list Token) (styled : str)
  : result str :=
  match attributes with
  | [] => Ok styled
  | item :: attributes' =>
      let styled := if 0 <? i then styled ++ lit " " else styled in
      s <- style_attribute item ;;
      style_items (S i) attributes' (styled ++ s)
  end.

Definition _style_attributes (attributes : list Token) : result str :=
  styled <- style_items 0 attributes (bold (lit "[") None) ;;
  Ok (styled ++ bold (lit "]") None).

(** The bracket that is pending, styled and appended to the output. *)
Definition flush_visual (visual : list Token) (out : str) : result str :=
  if 0 <? length visual
  then styled <- _style_attributes visual ;; Ok (out ++ styled)
  else Ok out.

(** The body of the loop of [prettify_markup].  [int] reads the code of a
    [CLEAR] token after [to_name] has returned its name. *)
Definition prettify_body (s : prettify_state) (token : Token)
  : result prettify_state :=
  match code token with
  | Some c =>
      applied <-
        match attribute token with
        | Some CLEAR =>
            name <- to_name names token ;;
            if str_eqb name (lit "/") then Ok []
            else
              let offset := if str_eqb c (lit "22") then 21 else 20 in
              n <- int_of_str c ;;
              let sequence :=
                esc :: lit "[" ++ str_of_difference n offset ++ lit "m" in
              Ok (list_remove sequence (applied_bracket s))
        | _ => Ok (applied_bracket s)
        end ;;
      seq <- to_sequence token ;;
      Ok (mkPrettify (visual_bracket s ++ [token]) (applied ++ [seq])
            (pretty_out s))
  | None =>
      out <- flush_visual (visual_bracket s) (pretty_out s) ;;
      name <- to_name names token ;;
      let name :=
        match attribute token with
        | Some ESCAPED => backslash :: name
        | _ => name
        end in
      Ok (mkPrettify [] (applied_bracket s)
            (out ++ concat (applied_bracket s) ++ name ++ reset))
  end.

Definition prettify_markup (markup : str) : result str :=
  s <- for_each prettify_body (tokenize_markup names translate_hex markup)
         (mkPrettify [] [] []) ;;
  flush_visual (visual_bracket s) (pretty_out s).

End Prettify.

(** A word of a bracket: it is not empty and has no white space and no
    closing bracket. *)
Definition tag_word_chars (w : str) : bool :=
  nonempty w
  && forallb (fun ch => negb (isspace_char ch) && negb (Ascii.eqb ch "]")) w.

(** The first character of the first word of a bracket is one that opens a
    tag. *)
Definition opens_tag (ws : list str) : bool :=
  match ws with
  | (c :: _) :: _ => tag_first_char c
  | _ => false
  end.

(** What [_style_attributes] writes for a style name. *)
Definition styled_word (foreground : str -> nat -> str) (w : str) : str :=
  sgr_sequence (style_code w) ++ foreground w 114.

(** The code that [UNSET_MAP] holds for the unsetter of a style name. *)
Definition unset_code (w : str) : str :=
  match dict_get UNSET_MAP (lit "/" ++ w) with
  | Some u => u
  | None => []
  end.

(** The first key of [UNSET_MAP] with the code of the unsetter of a style
    name: the unsetter itself, and the one of bold for dim. *)
Definition unset_name (w : str) : str :=
  if str_eqb w (lit "dim") then lit "/bold" else lit "/" ++ w.

Unset Implicit Arguments.

(** ** Strings: equality *)

Lemma str_eqb_refl (a : str) : str_eqb a a = true.
Proof.
  induction a as [|c a IH]; simpl; [reflexivity|].
  now rewrite Ascii.eqb_refl, IH.
Qed.

Lemma str_eqb_eq (a b : str) : str_eqb a b = true <-> a = b.
Proof.
  split.
  - revert b; induction a as [|c a IH]; intros [|d b]; simpl;
      try discriminate; [reflexivity|].
    intros H; apply andb_true_iff in H as [Hc Hs].
    apply Ascii.eqb_eq in Hc; subst d; f_equal; auto.
  - intros ->; apply str_eqb_refl.
Qed.

Lemma str_eqb_neq (a b : str) : str_eqb a b = false <-> a <> b.
Proof.
  rewrite <- str_eqb_eq; destruct (str_eqb a b); split; congruence.
Qed.

(** ** The ANSI tokenizer yields no repeated code *)

Lemma no_adjacent_duplicates_cons (t : Token) (ts : list Token) :
  head_differs (Some t) ts -> no_adjacent_duplicates ts ->
  no_adjacent_duplicates (t :: ts).
Proof.
  intros Hh Hn; simpl; split; [|exact Hn].
  destruct ts; [exact I | exact Hh].
Qed.

Lemma differs_from_previous_false (previous : option Token) (sgr : str) :
  differs_from_previous previous sgr = false ->
  exists p, previous = Some p /\ code p = Some sgr.
Proof.
  destruct previous as [p|]; simpl; [|discriminate].
  intros H; apply negb_false_iff in H; exists p; split; [reflexivity|].
  destruct (code p) as [c|]; simpl in H; [|discriminate].
  apply str_eqb_eq in H; now subst.
Qed.

Lemma differs_from_previous_true (previous : option Token) (sgr : str)
    (t : Token) :
  differs_from_previous previous sgr = true -> code t = Some sgr ->
  head_differs previous [t].
Proof.
  destruct previous as [p|]; simpl; [|trivial].
  intros H Ht [c [Hp Hc]]; rewrite Ht in Hc; injection Hc as <-.
  rewrite Hp in H; simpl in H; now rewrite str_eqb_refl in H.
Qed.

Lemma tokenize_ansi_loop_dedup (text : str)
    (matches : list (nat * nat * (option str * option str))) :
  forall position start end_ previous,
    let ts :=
      fst (tokenize_ansi_loop text matches position start end_ previous) in
    no_adjacent_duplicates ts /\ head_differs previous ts.
Proof.
  induction matches as [|[[st en] [sgr osc]] ms IH];
    intros position start end0 previous; simpl.
  - destruct (position <? length text); simpl; split; auto.
    + destruct previous; simpl; [|trivial].
      intros [c [_ Hc]]; discriminate.
    + destruct previous; exact I.
  - set (tok := mkToken st en (Some (slice text position st)) None None).
    assert (Hplain : forall t, ~ same_code tok t)
      by (intros t [c [Hc _]]; discriminate).
    assert (Hplain' : forall p, ~ same_code p tok)
      by (intros t [c [_ Hc]]; discriminate).
    destruct sgr as [sgr|].
    2:{ destruct (position <? st); simpl; repeat split; auto;
        destruct previous; simpl; auto. }
    destruct (ansi_attribute sgr) as [attr|e].
    2:{ destruct (position <? st); simpl; repeat split; auto;
        destruct previous; simpl; auto. }
    set (ctok := mkToken st en None (Some sgr) attr).
    destruct (position <? st) eqn:Hpos.
    + (* a text token comes first *)
      simpl differs_from_previous; simpl negb.
      cbn [yield fst].
      destruct (IH en st en (Some ctok)) as [IHn IHh].
      split.
      * apply no_adjacent_duplicates_cons; [apply Hplain|].
        apply no_adjacent_duplicates_cons; assumption.
      * destruct previous; simpl; auto.
    + destruct (differs_from_previous previous sgr) eqn:Hd.
      * cbn [yield fst].
        destruct (IH en st en (Some ctok)) as [IHn IHh].
        split; [apply no_adjacent_duplicates_cons; assumption|].
        apply differs_from_previous_true with (t := ctok) in Hd; [|reflexivity].
        destruct previous; simpl in *; auto.
      * apply IH.
Qed.

(** C2: for every input string, [tokenize_ansi] never yields two consecutive
    code tokens with equal codes: an SGR sequence whose code is the code of
    the token yielded just before it is suppressed. *)
Theorem tokenize_ansi_no_adjacent_duplicates (text : str) :
  no_adjacent_duplicates (fst (tokenize_ansi text)).
Proof.
  apply (tokenize_ansi_loop_dedup text (finditer RE_ANSI text) 0 0 0 None).
Qed.

(** ** Tokens hold a text or a code *)

Lemma tokenize_ansi_loop_text_or_code (text : str)
    (matches : list (nat * nat * (option str * option str))) :
  forall position start end_ previous,
    Forall text_or_code
      (fst (tokenize_ansi_loop text matches position start end_ previous)).
Proof.
  induction matches as [|[[st en] [sgr osc]] ms IH];
    intros position start end0 previous; simpl.
  - destruct (position <? length text); simpl; repeat constructor.
  - assert (Hrest : Forall text_or_code (fst
      match sgr with
      | Some sgr0 =>
          match ansi_attribute sgr0 with
          | Ok attribute0 =>
              if differs_from_previous
                   (if position <? st
                    then Some (mkToken st en (Some (slice text position st))
                                 None None)
                    else previous) sgr0
              then yield (mkToken st en None (Some sgr0) attribute0)
                     (tokenize_ansi_loop text ms en st en
                        (Some (mkToken st en None (Some sgr0) attribute0)))
              else tokenize_ansi_loop text ms en st en
                     (if position <? st
                      then Some (mkToken st en (Some (slice text position st))
                                   None None)
                      else previous)
          | Raise e => ([], Some e)
          end
      | None => ([], Some AttributeError)
      end)).
    { destruct sgr as [sgr|]; [|constructor].
      destruct (ansi_attribute sgr); [|constructor].
      destruct (differs_from_previous _ sgr); [|apply IH].
      constructor; [exact I | apply IH]. }
    destruct (position <? st); [|exact Hrest].
    constructor; [exact I | exact Hrest].
Qed.

Lemma tokenize_ansi_text_or_code (text : str) :
  Forall text_or_code (fst (tokenize_ansi text)).
Proof. apply tokenize_ansi_loop_text_or_code. Qed.

Section TokenShapes.

Variable names : list (str * nat).
Variable translate_hex : str -> option (list nat).

Lemma tag_token_text_or_code (text : str) (start end_ : nat) (tag : str)
    (t : Token) :
  tag_token names translate_hex text start end_ tag = Ok t ->
  text_or_code t.
Proof.
  unfold tag_token.
  destruct (str_index tag NAMES); [intros [= <-]; exact I|].
  destruct (dict_get UNSET_MAP tag); [intros [= <-]; exact I|].
  destruct (_handle_named_color names translate_hex tag) as [[[c b]|]|e];
    simpl; try discriminate; [intros [= <-]; exact I|].
  destruct (_handle_color translate_hex tag) as [[[c b]|]|e];
    simpl; try discriminate.
  intros [= <-]; exact I.
Qed.

Lemma tokenize_tags_text_or_code (text : str) (start end_ : nat)
    (tags : list str) (rest : generator) :
  Forall text_or_code (fst rest) ->
  Forall text_or_code
    (fst (tokenize_tags names translate_hex text start end_ tags rest)).
Proof.
  intros Hrest; induction tags as [|tag tags IH]; simpl; [exact Hrest|].
  destruct (tag_token names translate_hex text start end_ tag) eqn:Ht;
    [|constructor].
  constructor; [eapply tag_token_text_or_code; eassumption | exact IH].
Qed.

Lemma tokenize_markup_loop_text_or_code (text : str)
    (matches : list (nat * nat * (str * str * str))) :
  forall position start end_,
    Forall text_or_code
      (fst (tokenize_markup_loop names translate_hex text matches
              position start end_)).
Proof.
  induction matches as [|[[st en] [[full escapes] tag_text]] ms IH];
    intros position start end0; simpl.
  - destruct (position <? length text); simpl; repeat constructor.
  - assert (Hrest : Forall text_or_code (fst
      (if negb (str_eqb escapes [])
       then yield (mkToken st en (Some (skipn (length escapes) full))
                     None (Some ESCAPED))
              (tokenize_markup_loop names translate_hex text ms en st en)
       else tokenize_tags names translate_hex text st en
              (split_ws tag_text)
              (tokenize_markup_loop names translate_hex text ms en st en)))).
    { destruct (negb (str_eqb escapes [])).
      - constructor; [exact I | apply IH].
      - apply tokenize_tags_text_or_code, IH. }
    destruct (position <? st); [|exact Hrest].
    constructor; [exact I | exact Hrest].
Qed.

Lemma to_sequence_text_or_code (t : Token) :
  text_or_code t -> exists s, to_sequence t = Ok s.
Proof.
  unfold text_or_code, to_sequence.
  destruct (plain t), (code t); intros H; try contradiction; eauto.
Qed.

Lemma markup_to_ansi_body_total (tokens : list Token) :
  Forall text_or_code tokens ->
  forall ansi, exists r, for_tokens markup_to_ansi_body tokens ansi = Ok r.
Proof.
  induction 1 as [|t ts Ht _ IH]; intros ansi; simpl; [eauto|].
  unfold markup_to_ansi_body at 1.
  destruct (to_sequence_text_or_code t Ht) as [s ->]; simpl.
  apply IH.
Qed.

Lemma optimize_body_total (tokens : list Token) :
  Forall text_or_code tokens ->
  forall s, exists r, for_tokens (optimize_body names) tokens s = Ok r.
Proof.
  induction 1 as [|t ts Ht _ IH]; intros s; simpl; [eauto|].
  unfold optimize_body at 1.
  destruct (to_sequence_text_or_code t Ht) as [q Hq].
  unfold text_or_code in Ht; unfold to_name.
  destruct (code t) as [c|].
  - destruct (str_eqb c (lit "0")); simpl; [apply IH|].
    rewrite Hq; simpl; apply IH.
  - destruct (plain t); [|contradiction]; simpl; apply IH.
Qed.

Lemma startswith_refl_app (p s : str) : startswith (p ++ s) p = true.
Proof.
  induction p as [|c p IH]; simpl; [reflexivity|].
  now rewrite Ascii.eqb_refl, IH.
Qed.

Lemma endswith_app (s p : str) : endswith (s ++ p) p = true.
Proof.
  unfold endswith; rewrite rev_app_distr; apply startswith_refl_app.
Qed.

Lemma optimize_ansi_result (ansi : str) :
  match optimize_ansi names ansi with
  | Ok r => endswith r reset = true
  | Raise e => snd (tokenize_ansi ansi) = Some e
  end.
Proof.
  unfold optimize_ansi, for_each.
  destruct (optimize_body_total _ (tokenize_ansi_text_or_code ansi)
              (mkOptimize [] [] None)) as [s ->]; simpl.
  destruct (snd (tokenize_ansi ansi)) as [e|]; simpl; [reflexivity|].
  destruct (endswith (out s) reset) eqn:He; simpl; [exact He|].
  apply endswith_app.
Qed.

Lemma markup_to_ansi_result (markup : str) (ensure_optimized : bool) :
  match markup_to_ansi names translate_hex markup true ensure_optimized with
  | Ok r => endswith r reset = true
  | Raise e =>
      snd (tokenize_markup names translate_hex markup) = Some e
      \/ (ensure_optimized = true
          /\ exists ansi, snd (tokenize_ansi ansi) = Some e)
  end.
Proof.
  unfold markup_to_ansi, for_each.
  destruct (markup_to_ansi_body_total _
              (tokenize_markup_loop_text_or_code markup
                 (finditer RE_TAGS markup) 0 0 0) [])
    as [ansi Hansi].
  unfold tokenize_markup at 1; rewrite Hansi; simpl.
  destruct (snd (tokenize_markup names translate_hex markup)) as [e|];
    simpl; [now left|].
  set (ansi' := if negb (endswith ansi reset) then ansi ++ reset else ansi).
  assert (Hends : endswith ansi' reset = true).
  { unfold ansi'; destruct (endswith ansi reset) eqn:He; simpl;
      [exact He | apply endswith_app]. }
  destruct ensure_optimized; [|exact Hends].
  pose proof (optimize_ansi_result ansi') as H.
  destruct (optimize_ansi names ansi') as [r|e]; [exact H|].
  right; split; [reflexivity|]; exists ansi'; exact H.
Qed.

End TokenShapes.

(** C4: for every markup string, [markup_to_ansi] with [ensure_reset] set
    returns a string that ends in the universal reset sequence, and every
    string that [optimize_ansi] returns ends in it; a call returns a string
    unless a tokenizer raises. *)
Theorem reset_termination (names : list (str * nat))
    (translate_hex : str -> option (list nat)) :
  (forall markup ensure_optimized,
      match
        markup_to_ansi names translate_hex markup true ensure_optimized
      with
      | Ok r => endswith r reset = true
      | Raise e =>
          snd (tokenize_markup names translate_hex markup) = Some e
          \/ (ensure_optimized = true
              /\ exists ansi, snd (tokenize_ansi ansi) = Some e)
      end)
  /\ (forall ansi,
         match optimize_ansi names ansi with
         | Ok r => endswith r reset = true
         | Raise e => snd (tokenize_ansi ansi) = Some e
         end).
Proof.
  split.
  - intros; apply markup_to_ansi_result.
  - intros; apply optimize_ansi_result.
Qed.

(** C5: with the default arguments, [markup_to_ansi] maps the markup
    [bold]hi[/] to ESC[1m hi ESC[0m, and [ansi_to_markup] maps that string
    back to the markup. *)
Theorem bold_hi_conversions (names : list (str * nat))
    (translate_hex : str -> option (list nat)) :
  markup_to_ansi names translate_hex (lit "[bold]hi[/]") true true
  = Ok (esc :: lit "[1mhi" ++ esc :: lit "[0m")
  /\ ansi_to_markup names (esc :: lit "[1mhi" ++ esc :: lit "[0m") false true
     = Ok (lit "[bold]hi[/]").
Proof. split; vm_compute; reflexivity. Qed.

(** C6: on a backslash followed by [bold], [tokenize_markup] yields one
    token and no more: a text token with the attribute [ESCAPED] whose text
    is the bracket without the backslash; no style token is yielded. *)
Theorem escaped_bracket_is_one_plain_token (names : list (str * nat))
    (translate_hex : str -> option (list nat)) :
  tokenize_markup names translate_hex (backslash :: lit "[bold]")
  = ([mkToken 0 7 (Some (lit "[bold]")) None (Some ESCAPED)], None).
Proof. vm_compute; reflexivity. Qed.

(** C10: [get_unsetter] on a code token with the attribute [CLEAR] and the
    code 0 raises a KeyError: [to_name] gives the name "/", which is no key
    of [UNSET_MAP], and the lookup of a [CLEAR] token is a plain subscript. *)
Theorem get_unsetter_of_universal_reset_raises (names : list (str * nat))
    (start end_ : nat) :
  let token := mkToken start end_ None (Some (lit "0")) (Some CLEAR) in
  to_name names token = Ok (lit "/")
  /\ dict_mem UNSET_MAP (lit "/") = false
  /\ get_unsetter names token = Raise (KeyError_lookup (lit "/"))
  /\ is_KeyError (KeyError_lookup (lit "/")) = true.
Proof. repeat split. Qed.

(** ** The optimizer at a reset *)

Lemma for_tokens_app (S : Type) (body : S -> Token -> result S)
    (ts1 ts2 : list Token) (s0 s1 : S) :
  for_tokens body ts1 s0 = Ok s1 ->
  for_tokens body (ts1 ++ ts2) s0 = for_tokens body ts2 s1.
Proof.
  revert s0; induction ts1 as [|t ts1 IH]; intros s0; simpl.
  - now intros [= ->].
  - destruct (body s0 t) as [s|e]; simpl; [apply IH | discriminate].
Qed.

(** C3: when the loop of [optimize_ansi] meets a token whose code is the
    universal reset, it appends one reset sequence to the output if the
    buffer of pending codes is not empty and nothing otherwise, and it
    empties the buffer; [optimize_ansi] of the reset sequence alone is that
    sequence, once. *)
Theorem optimize_ansi_at_reset (names : list (str * nat))
    (ts1 ts2 : list Token) (token : Token) (s0 s1 : optimize_state)
    (Hreset : code token = Some (lit "0"))
    (Hbefore : for_tokens (optimize_body names) ts1 s0 = Ok s1) :
  for_tokens (optimize_body names) (ts1 ++ token :: ts2) s0
  = for_tokens (optimize_body names) ts2
      (mkOptimize
         (match sequence s1 with [] => out s1 | _ :: _ => out s1 ++ reset end)
         [] (previous_sequence s1))
  /\ optimize_ansi names reset = Ok reset
  /\ optimize_ansi names (esc :: lit "[1m" ++ reset) = Ok reset.
Proof.
  split; [|split; vm_compute; reflexivity].
  rewrite for_tokens_app with (s1 := s1) by exact Hbefore.
  cbn [for_tokens]; unfold optimize_body at 1; rewrite Hreset.
  change (str_eqb (lit "0") (lit "0")) with true; cbn [bind].
  destruct (sequence s1); reflexivity.
Qed.

Lemma optimize_ansi_at_reset_witness :
  let bold := mkToken 0 4 None (Some (lit "1")) (Some STYLE) in
  let clear := mkToken 4 8 None (Some (lit "0")) (Some CLEAR) in
  let s0 := mkOptimize [] [] None in
  code clear = Some (lit "0")
  /\ for_tokens (optimize_body base_names) ([bold] ++ clear :: []) s0
     = Ok (mkOptimize reset [] None).
Proof.
  split; [reflexivity|].
  exact (proj1 (optimize_ansi_at_reset base_names
                  [mkToken 0 4 None (Some (lit "1")) (Some STYLE)] []
                  (mkToken 4 8 None (Some (lit "0")) (Some CLEAR))
                  (mkOptimize [] [] None)
                  (mkOptimize [] (esc :: lit "[1m") None)
                  eq_refl eq_refl)).
Defined.

(** ** Unrecognized tags *)

Section UnrecognizedTags.

Variable names : list (str * nat).
Variable translate_hex : str -> option (list nat).

Lemma tag_token_error (text : str) (start end_ : nat) (tag : str) :
  error_of (tag_token names translate_hex text start end_ tag)
  = tag_error names translate_hex text tag.
Proof.
  unfold tag_error, tag_token.
  destruct (str_index tag NAMES); [reflexivity|].
  destruct (dict_get UNSET_MAP tag); [reflexivity|].
  destruct (_handle_named_color names translate_hex tag) as [[[c b]|]|e];
    simpl; try reflexivity.
  destruct (_handle_color translate_hex tag) as [[[c b]|]|e];
    reflexivity.
Qed.

Lemma tokenize_tags_error (text : str) (start end_ : nat)
    (tags : list str) (rest : generator) :
  snd (tokenize_tags names translate_hex text start end_ tags rest)
  = match first_error (map (tag_error names translate_hex text) tags) with
    | Some e => Some e
    | None => snd rest
    end.
Proof.
  induction tags as [|tag tags IH]; simpl; [reflexivity|].
  rewrite <- (tag_token_error text start end_ tag).
  destruct (tag_token names translate_hex text start end_ tag);
    simpl; [exact IH | reflexivity].
Qed.

Lemma first_error_app (es1 es2 : list (option exn)) :
  first_error (es1 ++ es2)
  = match first_error es1 with
    | Some e => Some e
    | None => first_error es2
    end.
Proof.
  induction es1 as [|[e|] es1 IH]; simpl; auto.
Qed.

Lemma tokenize_markup_loop_error (text : str)
    (matches : list (nat * nat * (str * str * str))) :
  forall position start end_,
    snd (tokenize_markup_loop names translate_hex text matches
           position start end_)
    = first_error (map (tag_error names translate_hex text)
                     (concat (map bracket_words matches))).
Proof.
  induction matches as [|[[st en] [[full escapes] tag_text]] ms IH];
    intros position start end0; simpl.
  - destruct (position <? length text); reflexivity.
  - rewrite map_app, first_error_app.
    assert (Hrest : snd
      (if negb (str_eqb escapes [])
       then yield (mkToken st en (Some (skipn (length escapes) full))
                     None (Some ESCAPED))
              (tokenize_markup_loop names translate_hex text ms en st en)
       else tokenize_tags names translate_hex text st en
              (split_ws tag_text)
              (tokenize_markup_loop names translate_hex text ms en st en))
      = match
          first_error
            (map (tag_error names translate_hex text)
               (if str_eqb escapes [] then split_ws tag_text else []))
        with
        | Some e => Some e
        | None =>
            first_error
              (map (tag_error names translate_hex text)
                 (concat (map bracket_words ms)))
        end).
    { destruct (str_eqb escapes []); simpl.
      - rewrite tokenize_tags_error, IH; reflexivity.
      - apply IH. }
    destruct (position <? st); exact Hrest.
Qed.

(** The tokenizer ends with the exception of the first tag word that
    raises one. *)
Lemma tokenize_markup_error (text : str) :
  snd (tokenize_markup names translate_hex text)
  = first_error (map (tag_error names translate_hex text)
                   (tag_words text)).
Proof. apply tokenize_markup_loop_error. Qed.

Lemma unrecognized_tag_error (text tag : str) :
  unrecognized names translate_hex tag ->
  tag_error names translate_hex text tag
  = Some (SyntaxError_unrecognized tag text).
Proof.
  intros (Hn & Hu & Hc & Hh); unfold tag_error, tag_token.
  now rewrite Hn, Hu, Hc; simpl; rewrite Hh.
Qed.

Lemma first_error_in (f : str -> option exn) (tag : str) (e0 : exn)
    (words : list str) :
  In tag words -> f tag = Some e0 ->
  exists e, first_error (map f words) = Some e.
Proof.
  intros Hin Hf; induction words as [|w words IH]; [destruct Hin|].
  simpl; destruct (f w) as [e|] eqn:Hw; [eauto|].
  destruct Hin as [->|Hin]; [congruence | auto].
Qed.

Lemma first_error_at (f : str -> option exn) (tag : str) (e : exn)
    (before after : list str) :
  (forall w, In w before -> f w = None) -> f tag = Some e ->
  first_error (map f (before ++ tag :: after)) = Some e.
Proof.
  intros Hb Hf; induction before as [|w before IH]; simpl.
  - now rewrite Hf.
  - rewrite (Hb w (or_introl eq_refl)); apply IH.
    intros w' Hw'; apply Hb; now right.
Qed.

Lemma markup_to_ansi_raises (text : str) (e : exn)
    (ensure_reset ensure_optimized : bool) :
  snd (tokenize_markup names translate_hex text) = Some e ->
  markup_to_ansi names translate_hex text ensure_reset ensure_optimized
  = Raise e.
Proof.
  intros He; unfold markup_to_ansi, for_each.
  destruct (markup_to_ansi_body_total _
              (tokenize_markup_loop_text_or_code names translate_hex text
                 (finditer RE_TAGS text) 0 0 0) [])
    as [ansi Hansi].
  unfold tokenize_markup at 1; rewrite Hansi; simpl.
  now rewrite He.
Qed.

End UnrecognizedTags.

(** C7, amended: a markup string with a tag word, in a bracket that is not
    escaped, that is no style name, no key of [UNSET_MAP], no named colour
    and no colour makes [tokenize_markup] raise, and the conversion fails
    with the same exception and returns nothing; when every tag word before
    it yields a token, the exception is the SyntaxError for the unrecognized
    tag, which carries that tag and the whole text.  The string [unknowntag]
    in brackets is such a string when the registry has no such colour. *)
Theorem unrecognized_tag_raises (names : list (str * nat))
    (translate_hex : str -> option (list nat)) (text tag : str)
    (Hword : In tag (tag_words text))
    (Htag : unrecognized names translate_hex tag) :
  (exists e,
      snd (tokenize_markup names translate_hex text) = Some e
      /\ forall ensure_reset ensure_optimized,
           markup_to_ansi names translate_hex text
             ensure_reset ensure_optimized = Raise e)
  /\ (forall before after,
         tag_words text = before ++ tag :: after ->
         (forall w, In w before ->
                    tag_error names translate_hex text w = None) ->
         snd (tokenize_markup names translate_hex text)
         = Some (SyntaxError_unrecognized tag text)
         /\ is_SyntaxError (SyntaxError_unrecognized tag text) = true
         /\ forall ensure_reset ensure_optimized,
              markup_to_ansi names translate_hex text
                ensure_reset ensure_optimized
              = Raise (SyntaxError_unrecognized tag text))
  /\ (dict_mem names (lit "unknowntag") = false ->
      snd (tokenize_markup names translate_hex (lit "[unknowntag]"))
      = Some (SyntaxError_unrecognized (lit "unknowntag")
                (lit "[unknowntag]"))).
Proof.
  split; [|split].
  - destruct (first_error_in (tag_error names translate_hex text) tag _ _
                Hword (unrecognized_tag_error names translate_hex text tag
                         Htag)) as [e He].
    exists e; rewrite tokenize_markup_error; split; [exact He|].
    intros; apply markup_to_ansi_raises.
    now rewrite tokenize_markup_error.
  - intros before after Hwords Hbefore.
    assert (He : snd (tokenize_markup names translate_hex text)
                 = Some (SyntaxError_unrecognized tag text)).
    { rewrite tokenize_markup_error, Hwords.
      apply first_error_at; [exact Hbefore|].
      apply unrecognized_tag_error, Htag. }
    split; [exact He|]; split; [reflexivity|].
    intros; apply markup_to_ansi_raises, He.
  - intros Hmem.
    rewrite tokenize_markup_error.
    change (tag_words (lit "[unknowntag]")) with [lit "unknowntag"].
    cbn [map first_error]; rewrite unrecognized_tag_error; [reflexivity|].
    split; [reflexivity|]; split; [reflexivity|]; split; [|reflexivity].
    unfold _handle_named_color.
    replace (dict_mem names (lstrip_char "@" (lit "unknowntag"))) with false
      by (symmetry; exact Hmem).
    reflexivity.
Qed.

Lemma unrecognized_tag_raises_witness :
  let names := base_names in
  let translate_hex := hex_translator in
  let text := lit "[unknowntag]" in
  let tag := lit "unknowntag" in
  In tag (tag_words text)
  /\ unrecognized names translate_hex tag
  /\ snd (tokenize_markup names translate_hex text)
     = Some (SyntaxError_unrecognized tag text)
  /\ forall ensure_reset ensure_optimized,
       markup_to_ansi names translate_hex text ensure_reset ensure_optimized
       = Raise (SyntaxError_unrecognized tag text).
Proof.
  assert (Hword : In (lit "unknowntag") (tag_words (lit "[unknowntag]")))
    by (left; reflexivity).
  assert (Htag : unrecognized base_names hex_translator (lit "unknowntag"))
    by (repeat split).
  split; [exact Hword|]; split; [exact Htag|].
  destruct (proj1 (proj2 (unrecognized_tag_raises base_names hex_translator
                            (lit "[unknowntag]") (lit "unknowntag")
                            Hword Htag))
              [] [] eq_refl (fun w (H : In w []) => match H with end))
    as (He & _ & Hconv).
  split; [exact He | exact Hconv].
Defined.

(** The tag word [unknowntag] comes after a hex colour that the translator
    rejects: the tokenizer raises the exception of the hex colour, which
    carries neither [unknowntag] nor the text. *)
Lemma unrecognized_tag_after_rejected_hex :
  let text := lit "[#12 unknowntag]" in
  In (lit "unknowntag") (tag_words text)
  /\ unrecognized base_names hex_translator (lit "unknowntag")
  /\ snd (tokenize_markup base_names hex_translator text)
     = Some (SyntaxError_hex (lit "#12"))
  /\ ~ raises_unrecognized base_names hex_translator text.
Proof.
  split; [right; left; reflexivity|].
  split; [repeat split|].
  split; [reflexivity|].
  intros [tag [_ H]]; vm_compute in H; discriminate H.
Qed.

(** ** Colour tags *)

Lemma split_on_length (c : ascii) (s : str) :
  length (split_on c s) = S (count_char c s).
Proof.
  unfold count_char; induction s as [|d s IH]; simpl; [reflexivity|].
  rewrite (Ascii.eqb_sym c d).
  destruct (Ascii.eqb d c); simpl; [now rewrite IH|].
  destruct (split_on c s); simpl in *; [discriminate | exact IH].
Qed.

Lemma parts_below_three (s : str) :
  (semicolon_parts s <? 3) = (count_char ";" s <? 2).
Proof. unfold semicolon_parts; now rewrite split_on_length. Qed.

(** C8, amended: for a tag of which every character is a digit, a hex
    letter or one of the sharp sign, the semicolon and the at sign, colour
    resolution gives a fragment that begins with 48 and the background flag
    when the tag begins with an at sign, which is removed, and with 38 and
    no flag otherwise; the depth that follows is 5 when the tag has fewer
    than three fields between semicolons and is no hex colour, and 2
    otherwise; a hex colour that the translator rejects raises a
    SyntaxError.  A tag with any other character resolves to no colour. *)
Theorem handle_color_fragment (translate_hex : str -> option (list nat))
    (tag : str) (Hchars : forallb color_char tag = true) :
  let background := startswith tag (lit "@") in
  let body := if background then tl tag else tag in
  let prefix :=
    (if background then lit "48;" else lit "38;") ++ depth_by_parts 3 body in
  _handle_color translate_hex tag
  = (if startswith body (lit "#")
     then match translate_hex body with
          | Some vals =>
              Ok (Some (prefix ++ join (lit ";") (map str_of_nat vals),
                        background))
          | None => Raise (SyntaxError_hex body)
          end
     else Ok (Some (prefix ++ body, background)))
  /\ (startswith body (lit "#") = true -> depth_by_parts 3 body = lit "2;")
  /\ (startswith body (lit "#") = false \/ translate_hex body <> None ->
      color_fragment_by_parts translate_hex 3 tag)
  /\ (forall other,
         forallb color_char other = false ->
         _handle_color translate_hex other = Ok None).
Proof.
  intros background body prefix.
  assert (Heq : _handle_color translate_hex tag
    = (if startswith body (lit "#")
       then match translate_hex body with
            | Some vals =>
                Ok (Some (prefix ++ join (lit ";") (map str_of_nat vals),
                          background))
            | None => Raise (SyntaxError_hex body)
            end
       else Ok (Some (prefix ++ body, background)))).
  { unfold _handle_color; rewrite Hchars; cbn [negb].
    unfold prefix, depth_by_parts; rewrite parts_below_three.
    unfold body, background.
    destruct (startswith tag (lit "@")); cbv zeta.
    - destruct (startswith (tl tag) (lit "#")).
      + destruct (translate_hex (tl tag)); simpl;
          rewrite ?andb_false_r, <- ?app_assoc; reflexivity.
      + simpl; rewrite <- ?app_assoc; reflexivity.
    - destruct (startswith tag (lit "#")).
      + destruct (translate_hex tag); simpl;
          rewrite ?andb_false_r, <- ?app_assoc; reflexivity.
      + simpl; rewrite <- ?app_assoc; reflexivity. }
  split; [exact Heq|]; split; [|split].
  - intros Hhex; unfold depth_by_parts; rewrite Hhex.
    now rewrite andb_false_r.
  - intros Hok; unfold color_fragment_by_parts.
    fold background; fold body; rewrite Heq.
    destruct (startswith body (lit "#")).
    + destruct Hok as [Hok|Hok]; [discriminate|].
      destruct (translate_hex body) as [vals|]; [|contradiction].
      exists (join (lit ";") (map str_of_nat vals)).
      unfold prefix; now rewrite <- app_assoc.
    + exists body; unfold prefix; now rewrite <- app_assoc.
  - intros other Hother; unfold _handle_color; now rewrite Hother.
Qed.

Lemma handle_color_fragment_witness :
  forallb color_char (lit "@141") = true
  /\ _handle_color hex_translator (lit "@141")
     = Ok (Some (lit "48;5;141", true))
  /\ color_fragment_by_parts hex_translator 3 (lit "@141")
  /\ _handle_color hex_translator (lit "bold") = Ok None.
Proof.
  pose proof (handle_color_fragment hex_translator (lit "@141") eq_refl)
    as (Heq & _ & Hfrag & Hother).
  split; [reflexivity|]; split; [exact Heq|].
  split; [apply Hfrag; now left | apply Hother; reflexivity].
Defined.

(** The tag 1;2 has two fields and is a colour of the 8-bit palette: the
    depth is not chosen by "fewer than two fields". *)
Lemma two_fields_resolve_to_the_palette :
  forallb color_char (lit "1;2") = true
  /\ semicolon_parts (lit "1;2") = 2
  /\ _handle_color hex_translator (lit "1;2")
     = Ok (Some (lit "38;5;1;2", false))
  /\ ~ color_fragment_by_parts hex_translator 2 (lit "1;2").
Proof.
  repeat split.
  intros [payload H]; vm_compute in H; discriminate H.
Qed.

(** ** Setters *)

Lemma str_index_In (x : str) (xs : list str) (i : nat) :
  str_index x xs = Some i -> In x xs.
Proof.
  revert i; induction xs as [|y xs IH]; intros i; simpl; [discriminate|].
  destruct (str_eqb y x) eqn:Hy.
  - apply str_eqb_eq in Hy; now left.
  - destruct (str_index x xs); simpl; [|discriminate].
    intros _; right; eapply IH; reflexivity.
Qed.

Lemma str_in_false_not_In (x : str) (xs : list str) :
  str_in x xs = false -> ~ In x xs.
Proof.
  unfold str_in; intros H Hin.
  assert (existsb (str_eqb x) xs = true) as Ht; [|congruence].
  apply existsb_exists; exists x; split; [exact Hin | apply str_eqb_refl].
Qed.

Lemma In_NAMES_tail (x : str) : In x NAMES -> ~ In (tl x) NAMES.
Proof.
  intros Hx.
  apply str_in_false_not_In.
  simpl in Hx; repeat (destruct Hx as [<-|Hx]; [reflexivity|]).
  destruct Hx.
Qed.

(** A digit or the semicolon. *)
Lemma In_NAMES_not_numeric (x : str) :
  In x NAMES ->
  forallb (fun c => isdigit_char c || Ascii.eqb c ";") x = false.
Proof.
  intros Hx.
  simpl in Hx; repeat (destruct Hx as [<-|Hx]; [reflexivity|]).
  destruct Hx.
Qed.

Lemma isdigit_chars (s : str) :
  isdigit s = true -> forallb isdigit_char s = true.
Proof. destruct s; [discriminate | trivial]. Qed.

Lemma join_numeric (xs : list str) :
  forallb isdigit xs = true ->
  forallb (fun c => isdigit_char c || Ascii.eqb c ";")
    (join (lit ";") xs) = true.
Proof.
  induction xs as [|x xs IH]; [reflexivity|].
  intros H; apply andb_true_iff in H as [Hx Hxs].
  assert (Hx' : forallb (fun c => isdigit_char c || Ascii.eqb c ";") x
                = true).
  { apply isdigit_chars in Hx; rewrite forallb_forall in Hx |- *.
    intros c Hc; now rewrite (Hx c Hc). }
  destruct xs as [|y xs]; [exact Hx'|].
  change (join (lit ";") (x :: y :: xs))
    with (x ++ lit ";" ++ join (lit ";") (y :: xs)).
  rewrite !forallb_app, Hx', (IH Hxs); reflexivity.
Qed.

Lemma forallb_skipn (A : Type) (f : A -> bool) (n : nat) (xs : list A) :
  forallb f xs = true -> forallb f (skipn n xs) = true.
Proof.
  revert xs; induction n as [|n IH]; intros [|x xs]; simpl; auto.
  intros H; apply andb_true_iff in H as [_ H]; auto.
Qed.

Lemma forallb_tl (A : Type) (f : A -> bool) (xs : list A) :
  forallb f xs = true -> forallb f (tl xs) = true.
Proof. apply (forallb_skipn A f 1). Qed.

Lemma dict_key_of_In (names : list (str * nat)) (v : nat) (k : str) :
  dict_key_of Nat.eqb names v = Some k -> exists v', In (k, v') names.
Proof.
  induction names as [|[k' v'] names IH]; simpl; [discriminate|].
  destruct (Nat.eqb v' v).
  - intros [= <-]; exists v'; now left.
  - intros H; destruct (IH H) as [w Hw]; exists w; now right.
Qed.

(** A name of which the tail is a style name comes from [UNSET_MAP]. *)
Lemma to_name_with_style_tail (names : list (str * nat)) (t : Token)
    (c name : str) :
  names_apart_from_styles names = true ->
  plain t = None -> code t = Some c -> to_name names t = Ok name ->
  In (tl name) NAMES ->
  dict_key_of str_eqb UNSET_MAP c = Some name.
Proof.
  intros Hnames Hplain Hcode Hname Htail.
  unfold to_name in Hname; rewrite Hplain, Hcode in Hname.
  destruct (isdigit c).
  - destruct (dict_key_of str_eqb UNSET_MAP c) as [key|];
      [now injection Hname as -> |].
    destruct (int_of_str c) as [index|e]; simpl in Hname; [|discriminate].
    destruct (nth_error NAMES index) as [n|] eqn:Hn; [|discriminate].
    injection Hname as ->.
    apply nth_error_In in Hn.
    now apply In_NAMES_tail in Hn.
  - set (numbers := split_on ";" c) in *.
    set (out := if str_eqb (hd [] numbers) (lit "48") then lit "@" else [])
      in *.
    set (payload := join (lit ";") (skipn 2 numbers)) in *.
    destruct (length numbers <? 3); [discriminate|].
    destruct (forallb isdigit numbers) eqn:Hdigits; cbn [negb] in Hname;
      [|discriminate].
    assert (Hpayload :
      forallb (fun c => isdigit_char c || Ascii.eqb c ";") (tl (out ++ payload))
      = true).
    { assert (Hp : forallb (fun c => isdigit_char c || Ascii.eqb c ";")
                       payload = true)
        by (apply join_numeric; now apply forallb_skipn).
      unfold out; destruct (str_eqb (hd [] numbers) (lit "48"));
        [exact Hp | now apply forallb_tl]. }
    destruct (int_of_str (nth 2 numbers [])) as [simple|e]; cbn [bind] in Hname;
      [|discriminate].
    exfalso.
    destruct (if (length numbers =? 3) && dict_has_value Nat.eqb names simple
              then dict_key_of Nat.eqb names simple else None)
      as [k|] eqn:Hk.
    + injection Hname as <-.
      destruct ((length numbers =? 3) && dict_has_value Nat.eqb names simple);
        [|discriminate].
      destruct (dict_key_of_In _ _ _ Hk) as [v' Hin].
      unfold names_apart_from_styles in Hnames.
      rewrite forallb_forall in Hnames.
      specialize (Hnames _ Hin); cbn [fst] in Hnames.
      apply andb_true_iff in Hnames as [H1 H2].
      apply negb_true_iff in H1, H2.
      apply str_in_false_not_In in H1, H2.
      unfold out in Htail.
      destruct (str_eqb (hd [] numbers) (lit "48")); simpl in Htail; auto.
    + injection Hname as <-.
      apply In_NAMES_not_numeric in Htail; congruence.
Qed.


Lemma dict_key_of_has_value (d : list (str * str)) (v k : str) :
  dict_key_of str_eqb d v = Some k -> dict_has_value str_eqb d v = true.
Proof.
  unfold dict_has_value.
  induction d as [|[k' v'] d IH]; simpl; [discriminate|].
  destruct (str_eqb v' v); [reflexivity | exact IH].
Qed.

Lemma get_setter_of_unsetter (names : list (str * nat)) (start end_ : nat)
    (c : str) :
  dict_has_value str_eqb UNSET_MAP c = true ->
  exists r,
    get_setter names (mkToken start end_ None (Some c) (Some CLEAR)) = Ok r.
Proof.
  unfold dict_has_value; intros H.
  apply existsb_exists in H as [[k v] [Hin Hv]].
  apply str_eqb_eq in Hv; simpl in Hv; subst v.
  simpl in Hin.
  repeat (destruct Hin as [[= <- <-]|Hin]; [eexists; reflexivity|]).
  destruct Hin.
Qed.

(** C9, amended: [get_setter] returns a value only for a code token with
    the attribute [CLEAR] whose code is a value of [UNSET_MAP] and not the
    universal reset, and the value is then the index in [NAMES], as a
    string, of the style whose unsetter is the first key with that code; it
    returns no value for the code 0 and for a token whose name is /fg or
    /bg, and on a value of [UNSET_MAP] it never raises; when it raises,
    either [to_name] has raised on the token, or the name without its first
    character is no style name. *)
Theorem get_setter_outcomes (names : list (str * nat)) (t : Token)
    (Hnames : names_apart_from_styles names = true) :
  (forall v,
      get_setter names t = Ok (Some v) ->
      plain t = None /\ attribute t = Some CLEAR
      /\ exists c key i,
           code t = Some c /\ c <> lit "0"
           /\ dict_has_value str_eqb UNSET_MAP c = true
           /\ dict_key_of str_eqb UNSET_MAP c = Some key
           /\ str_index (tl key) NAMES = Some i
           /\ v = str_of_nat i)
  /\ (code t = Some (lit "0") -> get_setter names t = Ok None)
  /\ (to_name names t = Ok (lit "/fg") \/ to_name names t = Ok (lit "/bg") ->
      get_setter names t = Ok None)
  /\ (forall start end_ c,
         dict_has_value str_eqb UNSET_MAP c = true ->
         exists r,
           get_setter names (mkToken start end_ None (Some c) (Some CLEAR))
           = Ok r)
  /\ (forall e,
         get_setter names t = Raise e ->
         to_name names t = Raise e
         \/ (e = ValueError_no_setter
             /\ exists name,
                  to_name names t = Ok name
                  /\ str_index (tl name) NAMES = None)).
Proof.
  split; [|split; [|split; [|split]]].
  - intros v H; unfold get_setter in H.
    destruct (plain t) eqn:Hplain; [discriminate|].
    destruct (attribute t) as [[| | | |]|] eqn:Hattr; try discriminate.
    split; [reflexivity|]; split; [reflexivity|].
    destruct (code t) as [c|] eqn:Hcode.
    2:{ unfold to_name in H; rewrite Hplain, Hcode in H; discriminate. }
    unfold opt_str_eqb in H.
    destruct (str_eqb c (lit "0")) eqn:Hzero; [discriminate|].
    apply str_eqb_neq in Hzero.
    destruct (to_name names t) as [name|e] eqn:Hname; [|discriminate].
    cbn [bind] in H.
    destruct (str_in name [lit "/fg"; lit "/bg"]); [discriminate|].
    destruct (str_index (tl name) NAMES) as [i|] eqn:Hi; [|discriminate].
    injection H as <-.
    assert (Hkey : dict_key_of str_eqb UNSET_MAP c = Some name).
    { apply (to_name_with_style_tail names t c name); auto.
      eapply str_index_In; eassumption. }
    exists c, name, i; repeat split; auto.
    eapply dict_key_of_has_value; eassumption.
  - intros Hcode; unfold get_setter; rewrite Hcode.
    destruct (plain t), (attribute t) as [[| | | |]|]; reflexivity.
  - intros Hname; unfold get_setter.
    destruct (plain t); [reflexivity|].
    destruct (attribute t) as [[| | | |]|]; try reflexivity.
    destruct (opt_str_eqb (code t) (Some (lit "0"))); [reflexivity|].
    destruct Hname as [-> | ->]; reflexivity.
  - intros start end0 c; apply get_setter_of_unsetter.
  - intros e H; unfold get_setter in H.
    destruct (plain t); [discriminate|].
    destruct (attribute t) as [[| | | |]|]; try discriminate.
    destruct (opt_str_eqb (code t) (Some (lit "0"))); [discriminate|].
    destruct (to_name names t) as [name|e'] eqn:Hname; cbn [bind] in H;
      [|injection H as <-; now left].
    destruct (str_in name [lit "/fg"; lit "/bg"]); [discriminate|].
    destruct (str_index (tl name) NAMES) eqn:Hi; [discriminate|].
    injection H as <-.
    right; split; [reflexivity|]; exists name; auto.
Qed.

Lemma get_setter_outcomes_witness :
  let t := mkToken 0 5 None (Some (lit "23")) (Some CLEAR) in
  names_apart_from_styles base_names = true
  /\ get_setter base_names t = Ok (Some (lit "3"))
  /\ exists c key i,
       code t = Some c /\ c <> lit "0"
       /\ dict_has_value str_eqb UNSET_MAP c = true
       /\ dict_key_of str_eqb UNSET_MAP c = Some key
       /\ str_index (tl key) NAMES = Some i
       /\ lit "3" = str_of_nat i.
Proof.
  split; [reflexivity|]; split; [reflexivity|].
  exact (proj2 (proj2 (proj1 (get_setter_outcomes base_names
                                (mkToken 0 5 None (Some (lit "23"))
                                   (Some CLEAR)) eq_refl)
                         (lit "3") eq_refl))).
Defined.

(** A [CLEAR] token with the code 99: [to_name] raises the IndexError of
    [NAMES[99]], and so does [get_setter], before any name is compared with
    the style names. *)
Lemma get_setter_raises_without_a_name :
  let t := mkToken 0 0 None (Some (lit "99")) (Some CLEAR) in
  to_name base_names t = Raise IndexError
  /\ get_setter base_names t = Raise IndexError
  /\ ~ fails_only_on_unknown_style base_names t.
Proof.
  repeat split.
  intros H; destruct (H IndexError eq_refl) as [name [Hname _]].
  discriminate Hname.
Qed.

(** ** The tokens of a rendered sequence of pieces *)

Lemma param_char (ch : ascii) :
  isdecimal_char ch || Ascii.eqb ch ";" = true ->
  Ascii.eqb ch "m" = false /\ Ascii.eqb ch newline = false
  /\ Ascii.eqb ch esc = false
  /\ (isnumeric_char ch = true -> isdecimal_char ch = true).
Proof.
  destruct ch as [[] [] [] [] [] [] [] []]; vm_compute; intros H;
    try discriminate H; repeat split; auto.
Qed.

Lemma RE_ANSI_not_esc (c : ascii) (s : str) :
  Ascii.eqb c esc = false -> RE_ANSI (c :: s) = None.
Proof.
  intros H; unfold RE_ANSI; destruct s; [reflexivity|].
  now rewrite H.
Qed.

Lemma finditer_from_esc_free (s r : str) (pos : nat) :
  esc_free s = true ->
  finditer_from RE_ANSI 0 pos (s ++ r)
  = finditer_from RE_ANSI 0 (pos + length s) r.
Proof.
  revert pos; induction s as [|c s IH]; intros pos H.
  - cbn [app length]; now rewrite Nat.add_0_r.
  - cbn [esc_free forallb] in H; apply andb_true_iff in H as [Hc Hs].
    apply negb_true_iff in Hc.
    cbn [app finditer_from length].
    rewrite (RE_ANSI_not_esc c (s ++ r) Hc), (IH (S pos) Hs).
    f_equal; lia.
Qed.

Lemma finditer_from_skip (G : Type) (f : str -> option (nat * G))
    (a r : str) (pos : nat) :
  finditer_from f (length a) pos (a ++ r)
  = finditer_from f 0 (pos + length a) r.
Proof.
  revert pos; induction a as [|c a IH]; intros pos; simpl.
  - now rewrite Nat.add_0_r.
  - rewrite IH; f_equal; lia.
Qed.

Lemma lazy_until_m_param (c r : str) :
  numeric_param c = true -> lazy_until_m (c ++ lit "m" ++ r) = Some c.
Proof.
  induction c as [|ch c IH]; intros H; [reflexivity|].
  simpl in H; apply andb_true_iff in H as [Hch Hc].
  destruct (param_char ch Hch) as (Hm & Hn & _).
  cbn [app lazy_until_m]; rewrite Hm, Hn.
  now rewrite (IH Hc).
Qed.

Lemma finditer_from_match (G : Type) (f : str -> option (nat * G))
    (c0 : ascii) (s : str) (pos len : nat) (g : G) :
  f (c0 :: s) = Some (len, g) ->
  finditer_from f 0 pos (c0 :: s)
  = (pos, pos + len, g) :: finditer_from f (Nat.pred len) (S pos) s.
Proof. intros H; cbn [finditer_from]; now rewrite H. Qed.

Lemma sgr_sequence_length (c : str) :
  length (sgr_sequence c) = 2 + length c + 1.
Proof.
  unfold sgr_sequence; cbn [length lit list_ascii_of_string app].
  rewrite length_app; simpl; lia.
Qed.

Lemma finditer_from_sgr (c r : str) (pos : nat) :
  numeric_param c = true ->
  finditer_from RE_ANSI 0 pos (sgr_sequence c ++ r)
  = (pos, pos + length (sgr_sequence c), (Some c, None))
    :: finditer_from RE_ANSI 0 (pos + length (sgr_sequence c)) r.
Proof.
  intros Hc.
  rewrite sgr_sequence_length.
  remember ("["%char :: c ++ lit "m") as body eqn:Hbody.
  assert (Hseq : sgr_sequence c ++ r = esc :: body ++ r)
    by (subst body; reflexivity).
  assert (Hlen : Nat.pred (2 + length c + 1) = length body)
    by (subst body; simpl; rewrite length_app; simpl; lia).
  assert (Hre : RE_ANSI (esc :: body ++ r)
                = Some (2 + length c + 1, (Some c, None))).
  { subst body; unfold RE_ANSI; cbn [app].
    change ((esc =? esc)%char && ("[" =? "[")%char) with true; cbv iota.
    rewrite <- app_assoc, (lazy_until_m_param c r Hc); reflexivity. }
  rewrite Hseq, (finditer_from_match _ RE_ANSI esc (body ++ r) pos _ _ Hre).
  rewrite Hlen, finditer_from_skip.
  do 2 f_equal; lia.
Qed.

Lemma ansi_attribute_param (c : str) :
  numeric_param c = true -> exists a, ansi_attribute c = Ok a.
Proof.
  intros Hc; unfold ansi_attribute.
  destruct (startswith c (lit "38;")); [eauto|].
  destruct (startswith c (lit "48;")); [eauto|].
  destruct (str_eqb c (lit "0")); [eauto|].
  destruct (isnumeric c) eqn:Hnum.
  - assert (Hdec : forallb isdecimal_char c = true).
    { destruct c as [|ch c]; [discriminate|].
      unfold isnumeric in Hnum; unfold numeric_param in Hc.
      rewrite forallb_forall in Hnum, Hc |- *.
      intros x Hx; apply (param_char x (Hc x Hx)), Hnum, Hx. }
    unfold int_of_str; rewrite Hdec.
    destruct c; [discriminate|]; cbn [bind].
    match goal with |- context [if ?b then _ else _] => destruct b end;
      [eauto|].
    destruct (dict_has_value str_eqb UNSET_MAP _); eauto.
  - cbn [bind].
    destruct (dict_has_value str_eqb UNSET_MAP c); eauto.
Qed.

Lemma differs_from_previous_code (previous : option Token) (c : str) :
  differs_from_previous previous c
  = negb (opt_str_eqb (previous_code previous) (Some c)).
Proof. destruct previous; reflexivity. Qed.

Lemma slice_middle (pre pending rest : str) :
  slice (pre ++ pending ++ rest) (length pre) (length pre + length pending)
  = pending.
Proof.
  unfold slice.
  rewrite skipn_app, skipn_all, Nat.sub_diag; cbn [app skipn].
  replace (length pre + length pending - length pre) with (length pending)
    by lia.
  rewrite firstn_app, firstn_all, Nat.sub_diag; cbn [firstn].
  apply app_nil_r.
Qed.

Lemma skipn_prefix (pre rest : str) : skipn (length pre) (pre ++ rest) = rest.
Proof. now rewrite skipn_app, skipn_all, Nat.sub_diag. Qed.

Lemma tokenize_ansi_loop_render (ps : list content) :
  forall text pre pending pos position start end_ previous,
    forallb piece_ok ps = true ->
    esc_free pending = true ->
    text = pre ++ pending ++ render ps ->
    position = length pre ->
    pos = length pre + length pending ->
    exists toks,
      tokenize_ansi_loop text (finditer_from RE_ANSI 0 pos (render ps))
        position start end_ previous = (toks, None)
      /\ map content_of toks
         = map Some (lex pending (previous_code previous) ps).
Proof.
  induction ps as [|[s|c] ps IH];
    intros text pre pending pos position start end0 previous
           Hps Hpending -> -> ->.
  - (* the end of the text *)
    cbn [render map concat finditer_from tokenize_ansi_loop].
    rewrite app_nil_r, length_app.
    destruct pending as [|ch pending].
    + cbn [length]; rewrite Nat.add_0_r, Nat.ltb_irrefl.
      exists []; split; reflexivity.
    + replace (length pre <? length pre + length (ch :: pending)) with true
        by (symmetry; apply Nat.ltb_lt; simpl; lia).
      eexists; split; [reflexivity|].
      cbn [map content_of plain code lex].
      now rewrite skipn_prefix.
  - (* a run of text *)
    cbn [forallb piece_ok] in Hps; apply andb_true_iff in Hps as [Hs Hps].
    change (render (Text s :: ps)) with (s ++ render ps).
    rewrite (finditer_from_esc_free s (render ps) _ Hs).
    cbn [lex].
    apply (IH _ pre (pending ++ s)); auto.
    + unfold esc_free in *; rewrite forallb_app, Hpending, Hs; reflexivity.
    + now rewrite <- !app_assoc.
    + rewrite length_app; lia.
  - (* an SGR sequence *)
    cbn [forallb piece_ok] in Hps; apply andb_true_iff in Hps as [Hc Hps].
    change (render (Sgr c :: ps)) with (sgr_sequence c ++ render ps).
    rewrite (finditer_from_sgr c (render ps) _ Hc).
    destruct (ansi_attribute_param c Hc) as [attr Hattr].
    cbn [tokenize_ansi_loop]; rewrite Hattr.
    rewrite slice_middle.
    set (en := length pre + length pending + length (sgr_sequence c)).
    set (st := length pre + length pending).
    set (ctok := mkToken st en None (Some c) attr).
    assert (Hrest : forall previous',
      exists toks,
        tokenize_ansi_loop (pre ++ pending ++ sgr_sequence c ++ render ps)
          (finditer_from RE_ANSI 0 en (render ps)) en st en previous'
        = (toks, None)
        /\ map content_of toks
           = map Some (lex [] (previous_code previous') ps)).
    { intros previous'.
      apply (IH _ (pre ++ pending ++ sgr_sequence c) []); auto.
      - now rewrite <- !app_assoc.
      - unfold en; rewrite !length_app; lia.
      - unfold en; rewrite !length_app; cbn [length]; lia. }
    destruct pending as [|ch pending].
    + replace (length pre <? st) with false
        by (symmetry; apply Nat.ltb_ge; unfold st; simpl; lia).
      rewrite differs_from_previous_code; cbn [lex].
      destruct (opt_str_eqb (previous_code previous) (Some c)); cbn [negb].
      * apply Hrest.
      * destruct (Hrest (Some ctok)) as [toks [Htoks Hmap]].
        rewrite Htoks; eexists; split; [reflexivity|].
        cbn [fst map content_of plain code ctok]; now rewrite Hmap.
    + replace (length pre <? st) with true
        by (symmetry; apply Nat.ltb_lt; unfold st; simpl; lia).
      cbn [differs_from_previous code opt_str_eqb negb lex].
      destruct (Hrest (Some ctok)) as [toks [Htoks Hmap]].
      rewrite Htoks; eexists; split; [reflexivity|].
      cbn [fst yield map content_of plain code ctok]; now rewrite Hmap.
Qed.

(** The tokenizer on a rendered sequence of pieces. *)
Lemma tokenize_ansi_render (ps : list content) :
  forallb piece_ok ps = true ->
  exists toks,
    tokenize_ansi (render ps) = (toks, None)
    /\ map content_of toks = map Some (lex [] None ps).
Proof.
  intros Hps.
  apply (tokenize_ansi_loop_render ps (render ps) [] [] 0 0 0 0 None);
    auto.
Qed.

(** ** The optimizer on a rendered sequence of pieces *)

Lemma optimize_body_content (names : list (str * nat)) (s : optimize_state)
    (t : Token) (p : content) :
  content_of t = Some p ->
  optimize_body names s t = Ok (optimize_content s p).
Proof.
  unfold content_of, optimize_body, to_sequence, to_name.
  destruct (plain t) as [q|], (code t) as [c|]; intros [= <-];
    [reflexivity|].
  cbn [optimize_content]; destruct (str_eqb c (lit "0")); reflexivity.
Qed.

Lemma for_tokens_contents (names : list (str * nat)) (toks : list Token) :
  forall (ps : list content) (s : optimize_state),
    map content_of toks = map Some ps ->
    for_tokens (optimize_body names) toks s
    = Ok (fold_left optimize_content ps s).
Proof.
  induction toks as [|t toks IH]; intros [|p ps] s H; try discriminate H.
  - reflexivity.
  - cbn [map] in H; injection H as Ht Htoks.
    cbn [for_tokens fold_left].
    rewrite (optimize_body_content names s t p Ht); cbn [bind].
    apply IH, Htoks.
Qed.

Lemma optimize_ansi_render (names : list (str * nat)) (ps : list content) :
  forallb piece_ok ps = true ->
  optimize_ansi names (render ps)
  = Ok (ensure_reset_at_end
          (out (fold_left optimize_content (lex [] None ps)
                  (mkOptimize [] [] None)))).
Proof.
  intros Hps.
  destruct (tokenize_ansi_render ps Hps) as [toks [Htoks Hmap]].
  unfold optimize_ansi, for_each; rewrite Htoks; cbn [fst snd].
  rewrite (for_tokens_contents names toks _ _ Hmap); reflexivity.
Qed.

(** ** Segments *)

Lemma last_cons_default (A : Type) (l : list A) :
  forall x d, last (x :: l) d = last l x.
Proof.
  induction l as [|y l IH]; intros x d; [reflexivity|].
  change (last (x :: y :: l) d) with (last (y :: l) d).
  now rewrite (IH y d), (IH y x).
Qed.

Lemma lex_codes (cs : list str) :
  forall (previous : option str) (rest : list content),
    lex [] previous (map Sgr cs ++ rest)
    = map Sgr (dedup_from previous cs)
      ++ lex [] (last (map Some cs) previous) rest.
Proof.
  induction cs as [|c cs IH]; intros previous rest; [reflexivity|].
  cbn [map app lex dedup_from]; rewrite last_cons_default.
  destruct (opt_str_eqb previous (Some c)) eqn:Heq.
  - assert (previous = Some c) as ->.
    { destruct previous as [p|]; [|discriminate].
      apply str_eqb_eq in Heq; now subst. }
    apply IH.
  - cbn [map app]; now rewrite IH.
Qed.

(** A run of codes after some text, or at the start of the string. *)
Lemma lex_run (c : str) (cs : list str) (pending : str)
    (previous : option str) (rest : list content) :
  (pending = [] -> previous = None) ->
  lex pending previous (map Sgr (c :: cs) ++ rest)
  = match pending with [] => [] | _ :: _ => [Text pending] end
    ++ map Sgr (dedup_from None (c :: cs))
    ++ lex [] (last (map Some (c :: cs)) None) rest.
Proof.
  intros Hstart.
  assert (Hlast : last (map Some cs) (Some c)
                  = last (map Some (c :: cs)) None)
    by (cbn [map]; now rewrite last_cons_default).
  cbn [map app lex dedup_from opt_str_eqb].
  destruct pending as [|ch pending].
  - rewrite (Hstart eq_refl); cbn [opt_str_eqb app map].
    now rewrite lex_codes, Hlast.
  - cbn [app map]; now rewrite lex_codes, Hlast.
Qed.

Lemma flat_cons (cs : list str) (t : str) (segs : list segment)
    (trailing : list str) :
  flat ((cs, t) :: segs) trailing
  = map Sgr cs ++ Text t :: flat segs trailing.
Proof.
  unfold flat, flat_segment; cbn [map concat fst snd].
  now rewrite <- !app_assoc.
Qed.

Lemma lex_flat (trailing : list str) (segs : list segment) :
  forall (pending : str) (previous : option str),
    (pending = [] -> previous = None) ->
    forallb (fun g => nonempty (snd g)) segs = true ->
    forallb (fun g => nonempty (fst g))
      (match pending with [] => tl segs | _ :: _ => segs end) = true ->
    lex pending previous (flat segs trailing)
    = match pending with [] => [] | _ :: _ => [Text pending] end
      ++ flat (map dedup_segment segs) (dedup_from None trailing).
Proof.
  induction segs as [|[cs t] segs IH]; intros pending previous Hstart Ht Hc.
  - unfold flat; cbn [map concat app].
    destruct trailing as [|c trailing].
    + destruct pending; reflexivity.
    + rewrite <- (app_nil_r (map Sgr (c :: trailing))).
      rewrite (lex_run c trailing pending previous [] Hstart).
      simpl (lex [] _ []); now rewrite !app_nil_r.
  - cbn [forallb snd] in Ht; apply andb_true_iff in Ht as [Htext Ht].
    assert (Hnext : forall previous',
      lex t previous' (flat segs trailing)
      = [Text t] ++ flat (map dedup_segment segs) (dedup_from None trailing)).
    { intros previous'.
      destruct t as [|ch t]; [discriminate Htext|].
      apply IH; [discriminate | exact Ht |].
      destruct pending; [|cbn [forallb] in Hc];
        [exact Hc | now apply andb_true_iff in Hc as [_ Hc]]. }
    cbn [map]; unfold dedup_segment at 1; cbn [fst snd].
    rewrite !flat_cons.
    destruct cs as [|c cs].
    + (* only the first segment begins with text *)
      destruct pending as [|ch pending]; [|discriminate Hc].
      cbn [map app lex dedup_from].
      now rewrite Hnext.
    + rewrite (lex_run c cs pending previous _ Hstart).
      cbn [lex app]; now rewrite Hnext.
Qed.

(** ** The optimizer on segments *)

Lemma fold_codes (cs : list str) :
  forall s,
    forallb style_param cs = true ->
    fold_left optimize_content (map Sgr cs) s
    = mkOptimize (out s) (sequence s ++ render_codes cs)
        (previous_sequence s).
Proof.
  induction cs as [|c cs IH]; intros s H.
  - destruct s; cbn [fold_left map render_codes concat out sequence
                       previous_sequence].
    now rewrite app_nil_r.
  - cbn [forallb] in H; apply andb_true_iff in H as [Hc Hcs].
    unfold style_param in Hc; apply andb_true_iff in Hc as [_ Hc].
    apply negb_true_iff in Hc.
    cbn [map fold_left optimize_content]; rewrite Hc, (IH _ Hcs).
    cbn [out sequence previous_sequence render_codes map concat].
    now rewrite <- app_assoc.
Qed.

Lemma fold_segments (segs : list segment) :
  forall o previous,
    Forall (fun g => forallb style_param (fst g) = true) segs ->
    exists p,
      fold_left optimize_content (concat (map flat_segment segs))
        (mkOptimize o [] previous)
      = mkOptimize (o ++ optimized previous segs) [] p.
Proof.
  induction segs as [|[cs t] segs IH]; intros o previous H.
  - exists previous; cbn; now rewrite app_nil_r.
  - inversion H as [|g gs Hcs Hsegs]; subst; cbn [fst] in Hcs.
    cbn [map concat]; unfold flat_segment at 1; cbn [fst snd].
    rewrite !fold_left_app, (fold_codes cs _ Hcs).
    cbn [out sequence previous_sequence app fold_left optimize_content].
    set (g := render_codes cs).
    assert (Hp : (if negb (opt_str_eqb previous (Some g)) then Some g
                  else previous) = Some g).
    { destruct (opt_str_eqb previous (Some g)) eqn:Heq; [|reflexivity].
      destruct previous as [q|]; [|discriminate].
      apply str_eqb_eq in Heq; now subst. }
    rewrite Hp.
    destruct (IH ((if negb (opt_str_eqb previous (Some g)) then o ++ g
                   else o) ++ t) (Some g) Hsegs) as [p Hfold].
    exists p; rewrite Hfold; f_equal.
    cbn [optimized fst snd]; fold g.
    destruct (opt_str_eqb previous (Some g)); cbn [negb app];
      now rewrite <- !app_assoc.
Qed.

(** The output of the loop on segments, whether codes without a reset
    follow the last text or one reset does. *)
Lemma out_flat (segs : list segment) (trailing : list str) :
  Forall (fun g => forallb style_param (fst g) = true) segs ->
  forallb style_param trailing = true \/ trailing = [lit "0"] ->
  out (fold_left optimize_content (flat segs trailing)
         (mkOptimize [] [] None))
  = optimized None segs.
Proof.
  intros Hsegs Htrailing; unfold flat; rewrite fold_left_app.
  destruct (fold_segments segs [] None Hsegs) as [p ->].
  destruct Htrailing as [H | ->].
  - now rewrite (fold_codes trailing _ H).
  - reflexivity.
Qed.

Lemma render_app (ps qs : list content) :
  render (ps ++ qs) = render ps ++ render qs.
Proof. unfold render; now rewrite map_app, concat_app. Qed.

Lemma render_map_Sgr (cs : list str) : render (map Sgr cs) = render_codes cs.
Proof. unfold render, render_codes; now rewrite map_map. Qed.

Lemma render_flat_cons (cs : list str) (t : str) (segs : list segment)
    (trailing : list str) :
  render (flat ((cs, t) :: segs) trailing)
  = render_codes cs ++ t ++ render (flat segs trailing).
Proof.
  rewrite flat_cons, render_app, render_map_Sgr; reflexivity.
Qed.

Lemma render_flat_trailing (segs : list segment) (trailing : list str) :
  render (flat segs trailing) = render (flat segs []) ++ render_codes trailing.
Proof.
  unfold flat; rewrite !render_app, render_map_Sgr; cbn [map render concat].
  now rewrite app_nil_r.
Qed.

Lemma optimized_merge_into (segs : list segment) :
  forall cur,
    render (flat (merge_into cur segs) [])
    = render_codes (fst cur) ++ snd cur
      ++ optimized (Some (render_codes (fst cur))) segs.
Proof.
  induction segs as [|g segs IH]; intros [cs t]; cbn [merge_into fst snd].
  - now rewrite render_flat_cons.
  - cbn [optimized opt_str_eqb].
    destruct (str_eqb (render_codes cs) (render_codes (fst g))) eqn:Heq.
    + rewrite IH; cbn [fst snd app].
      apply str_eqb_eq in Heq; rewrite <- Heq.
      now rewrite <- app_assoc.
    + rewrite render_flat_cons; destruct g as [cs' t']; now rewrite IH.
Qed.

Lemma optimized_merge (segs : list segment) :
  optimized None segs = render (flat (merge segs) []).
Proof.
  destruct segs as [|g segs]; [reflexivity|].
  cbn [merge optimized opt_str_eqb]; now rewrite optimized_merge_into.
Qed.

Lemma chain_merge_into (segs : list segment) :
  forall cur previous,
    opt_str_eqb previous (Some (render_codes (fst cur))) = false ->
    chain previous (merge_into cur segs) = true.
Proof.
  induction segs as [|g segs IH]; intros cur previous H; cbn [merge_into].
  - cbn [chain]; now rewrite H.
  - destruct (str_eqb (render_codes (fst cur)) (render_codes (fst g)))
      eqn:Heq.
    + apply IH; exact H.
    + cbn [chain]; rewrite H; cbn [negb andb].
      apply IH; exact Heq.
Qed.

Lemma optimized_chain (segs : list segment) :
  forall previous,
    chain previous segs = true ->
    optimized previous segs = render (flat segs []).
Proof.
  induction segs as [|[cs t] segs IH]; intros previous H; [reflexivity|].
  cbn [chain fst] in H; apply andb_true_iff in H as [Hp Hc].
  apply negb_true_iff in Hp.
  cbn [optimized fst snd]; rewrite Hp, (IH _ Hc).
  now rewrite render_flat_cons.
Qed.

(** ** What the segments keep through the tokenizer and the optimizer *)

Lemma forallb_Forall_iff (A : Type) (f : A -> bool) (xs : list A) :
  forallb f xs = true <-> Forall (fun x => f x = true) xs.
Proof. now rewrite forallb_forall, Forall_forall. Qed.

Lemma dedup_from_style (cs : list str) :
  forall previous,
    forallb style_param cs = true ->
    forallb style_param (dedup_from previous cs) = true.
Proof.
  induction cs as [|c cs IH]; intros previous H; [reflexivity|].
  cbn [forallb] in H; apply andb_true_iff in H as [Hc Hcs].
  cbn [dedup_from]; destruct (opt_str_eqb previous (Some c)); auto.
  cbn [forallb]; rewrite Hc; cbn [andb]; auto.
Qed.

Lemma dedup_from_idempotent (cs : list str) :
  forall previous,
    dedup_from previous (dedup_from previous cs) = dedup_from previous cs.
Proof.
  induction cs as [|c cs IH]; intros previous; [reflexivity|].
  cbn [dedup_from]; destruct (opt_str_eqb previous (Some c)) eqn:Heq; auto.
  cbn [dedup_from]; rewrite Heq; f_equal; apply IH.
Qed.

Lemma dedup_from_nonempty (cs : list str) :
  nonempty (dedup_from None cs) = nonempty cs.
Proof. destruct cs; reflexivity. Qed.

Lemma dedup_segment_good (g : segment) :
  segment_ok g = true -> segment_good (dedup_segment g).
Proof.
  unfold segment_ok; intros H.
  apply andb_true_iff in H as [H He].
  apply andb_true_iff in H as [Hs Hn].
  unfold segment_good, dedup_segment; cbn [fst snd].
  repeat split; auto using dedup_from_style, dedup_from_idempotent.
Qed.

Lemma merge_into_good (segs : list segment) :
  forall cur,
    segment_good cur -> Forall segment_good segs ->
    Forall segment_good (merge_into cur segs).
Proof.
  induction segs as [|g segs IH]; intros cur Hcur Hsegs; cbn [merge_into].
  - now constructor.
  - inversion Hsegs as [|g' gs Hg Hrest]; subst.
    destruct (str_eqb (render_codes (fst cur)) (render_codes (fst g))).
    + apply IH; [|exact Hrest].
      destruct Hcur as (Hs & Hn & He & Hd), Hg as (_ & _ & He' & _).
      unfold segment_good; cbn [fst snd]; repeat split; auto.
      * destruct (snd cur); [discriminate Hn | reflexivity].
      * unfold esc_free in *; now rewrite forallb_app, He, He'.
    + constructor; [exact Hcur | now apply IH].
Qed.

Lemma merge_into_coded (segs : list segment) :
  forall cur,
    coded cur -> Forall coded segs -> Forall coded (merge_into cur segs).
Proof.
  induction segs as [|g segs IH]; intros cur Hcur Hsegs; cbn [merge_into].
  - now constructor.
  - inversion Hsegs as [|g' gs Hg Hrest]; subst.
    destruct (str_eqb (render_codes (fst cur)) (render_codes (fst g))).
    + apply IH; [exact Hcur | exact Hrest].
    + constructor; [exact Hcur | now apply IH].
Qed.

Lemma merge_into_tail_coded (segs : list segment) :
  forall cur, Forall coded segs -> Forall coded (tl (merge_into cur segs)).
Proof.
  induction segs as [|g segs IH]; intros cur Hsegs; cbn [merge_into].
  - constructor.
  - inversion Hsegs as [|g' gs Hg Hrest]; subst.
    destruct (str_eqb (render_codes (fst cur)) (render_codes (fst g))).
    + now apply IH.
    + cbn [tl]; now apply merge_into_coded.
Qed.

Lemma merge_good (segs : list segment) :
  Forall segment_good segs -> Forall coded (tl segs) ->
  Forall segment_good (merge segs) /\ Forall coded (tl (merge segs)).
Proof.
  destruct segs as [|g segs]; cbn [merge tl]; [split; constructor|].
  intros Hgood Hcoded; inversion Hgood; subst; split.
  - now apply merge_into_good.
  - now apply merge_into_tail_coded.
Qed.

Lemma good_deduped (segs : list segment) :
  Forall segment_good segs -> map dedup_segment segs = segs.
Proof.
  induction 1 as [|[cs t] segs (_ & _ & _ & Hd) _ IH]; [reflexivity|].
  cbn [map]; rewrite IH; unfold dedup_segment; cbn [fst snd] in *.
  now rewrite Hd.
Qed.

Lemma style_params_numeric (cs : list str) :
  forallb style_param cs = true -> forallb numeric_param cs = true.
Proof.
  rewrite !forallb_forall; intros H c Hc.
  specialize (H c Hc); unfold style_param in H.
  now apply andb_true_iff in H as [H _].
Qed.

Lemma flat_piece_ok (segs : list segment) (trailing : list str) :
  Forall (fun g => forallb numeric_param (fst g) = true
                   /\ esc_free (snd g) = true) segs ->
  forallb numeric_param trailing = true ->
  forallb piece_ok (flat segs trailing) = true.
Proof.
  intros Hsegs Htrailing.
  induction Hsegs as [|[cs t] segs [Hcs Ht] _ IH].
  - unfold flat; cbn [map concat app].
    rewrite forallb_forall in Htrailing |- *.
    intros p Hp; apply in_map_iff in Hp as [c [<- Hc]]; cbn; auto.
  - rewrite flat_cons, forallb_app; cbn [fst snd forallb piece_ok] in *.
    rewrite Ht, IH, andb_true_r.
    rewrite forallb_forall in Hcs |- *.
    intros p Hp; apply in_map_iff in Hp as [c [<- Hc]]; cbn; auto.
Qed.

Lemma good_segments_lex (segs : list segment) (trailing : list str) :
  Forall (fun g => nonempty (snd g) = true) segs ->
  Forall coded (tl segs) ->
  lex [] None (flat segs trailing)
  = flat (map dedup_segment segs) (dedup_from None trailing).
Proof.
  intros Htext Hcoded.
  apply (lex_flat trailing segs [] None); auto;
    now apply forallb_Forall_iff.
Qed.

(** The optimizer on the segments of a string without a reset. *)
Lemma optimize_ansi_segments (names : list (str * nat))
    (segs : list segment) (trailing : list str) :
  Forall segment_good segs -> Forall coded (tl segs) ->
  (forallb style_param trailing = true /\ dedup_from None trailing = trailing)
  \/ trailing = [lit "0"] ->
  optimize_ansi names (render (flat segs trailing))
  = Ok (ensure_reset_at_end (optimized None segs)).
Proof.
  intros Hgood Hcoded Htrailing.
  assert (Hnumeric : forallb numeric_param trailing = true).
  { destruct Htrailing as [[H _] | ->]; [|reflexivity].
    now apply style_params_numeric. }
  assert (Hdedup : dedup_from None trailing = trailing).
  { destruct Htrailing as [[_ H] | ->]; [exact H | reflexivity]. }
  rewrite optimize_ansi_render.
  2:{ apply flat_piece_ok; [|exact Hnumeric].
      eapply Forall_impl; [|exact Hgood].
      intros g (Hs & _ & He & _); split;
        [now apply style_params_numeric | exact He]. }
  rewrite good_segments_lex.
  2:{ eapply Forall_impl; [|exact Hgood]. now intros g (_ & Hn & _). }
  2:{ exact Hcoded. }
  rewrite (good_deduped segs Hgood), Hdedup, out_flat; [reflexivity| |].
  - eapply Forall_impl; [|exact Hgood]. now intros g (Hs & _).
  - destruct Htrailing as [[H _] | ->]; [now left | now right].
Qed.

Lemma chain_merge (segs : list segment) : chain None (merge segs) = true.
Proof.
  destruct segs as [|g segs]; [reflexivity|].
  now apply chain_merge_into.
Qed.

Lemma segments_ok_good (segs : list segment) :
  segments_ok segs = true ->
  Forall segment_good (map dedup_segment segs)
  /\ Forall coded (tl (map dedup_segment segs))
  /\ Forall (fun g => nonempty (snd g) = true) segs
  /\ Forall coded (tl segs)
  /\ Forall (fun g => forallb numeric_param (fst g) = true
                      /\ esc_free (snd g) = true) segs.
Proof.
  unfold segments_ok; intros H; apply andb_true_iff in H as [Hok Hcoded].
  apply forallb_Forall_iff in Hok, Hcoded.
  assert (Htl : Forall coded (tl segs)) by exact Hcoded.
  repeat split.
  - apply Forall_map; eapply Forall_impl; [|exact Hok].
    apply dedup_segment_good.
  - destruct segs as [|g segs]; [constructor|]; cbn [map tl] in *.
    apply Forall_map; eapply Forall_impl; [|exact Htl].
    intros g'; unfold coded, dedup_segment; cbn [fst].
    now rewrite dedup_from_nonempty.
  - eapply Forall_impl; [|exact Hok]; intros g Hg.
    unfold segment_ok in Hg; apply andb_true_iff in Hg as [Hg _].
    now apply andb_true_iff in Hg as [_ Hg].
  - exact Htl.
  - eapply Forall_impl; [|exact Hok]; intros g Hg.
    unfold segment_ok in Hg; apply andb_true_iff in Hg as [Hg He].
    apply andb_true_iff in Hg as [Hg _].
    split; [now apply style_params_numeric | exact He].
Qed.

(** [optimize_ansi] is idempotent on the strings given by segments of style
    codes and text. *)
Lemma optimize_ansi_idempotent_on_segments (names : list (str * nat))
    (segs : list segment) (trailing : list str)
    (Hsegs : segments_ok segs = true)
    (Htrailing : forallb style_param trailing = true) :
  exists y,
    optimize_ansi names (render (flat segs trailing)) = Ok y
    /\ optimize_ansi names y = Ok y.
Proof.
  destruct (segments_ok_good segs Hsegs)
    as (Hgood & Hcoded & Htext & Htl & Hnumeric).
  set (S := map dedup_segment segs) in *.
  destruct (merge_good S Hgood Hcoded) as [Mgood Mcoded].
  assert (Hout : optimized None (merge S) = optimized None S).
  { rewrite (optimized_chain (merge S) None (chain_merge S)).
    symmetry; apply optimized_merge. }
  exists (ensure_reset_at_end (optimized None S)); split.
  - rewrite optimize_ansi_render
      by (apply flat_piece_ok;
          [exact Hnumeric | now apply style_params_numeric]).
    rewrite (good_segments_lex segs trailing Htext Htl); fold S.
    rewrite out_flat; [reflexivity| |].
    + eapply Forall_impl; [|exact Hgood]. now intros g (Hs & _).
    + left; now apply dedup_from_style.
  - unfold ensure_reset_at_end at 1.
    destruct (endswith (optimized None S) reset) eqn:Hends; cbn [negb].
    + rewrite (optimized_merge S) at 1.
      rewrite (optimize_ansi_segments names (merge S) [] Mgood Mcoded)
        by (left; split; reflexivity).
      now rewrite Hout.
    + replace (optimized None S ++ reset)
        with (render (flat (merge S) [lit "0"])).
      * rewrite (optimize_ansi_segments names (merge S) [lit "0"]
                   Mgood Mcoded) by (now right).
        now rewrite Hout.
      * rewrite render_flat_trailing, <- optimized_merge; reflexivity.
Qed.

Lemma render_codes_app (cs ds : list str) :
  render_codes (cs ++ ds) = render_codes cs ++ render_codes ds.
Proof. unfold render_codes; now rewrite map_app, concat_app. Qed.

Lemma segments_from_render (ps : list content) :
  forall codes text,
    render (flat (fst (segments_from codes text ps))
              (snd (segments_from codes text ps)))
    = render_codes codes ++ text ++ render ps.
Proof.
  induction ps as [|[s|c] ps IH]; intros codes text; cbn [segments_from].
  - destruct text as [|ch text]; cbn [fst snd].
    + unfold flat; cbn [map concat app]; rewrite render_map_Sgr.
      now rewrite app_nil_r.
    + now rewrite render_flat_cons.
  - rewrite IH; change (render (Text s :: ps)) with (s ++ render ps).
    now rewrite <- app_assoc.
  - change (render (Sgr c :: ps)) with (sgr_sequence c ++ render ps).
    destruct text as [|ch text].
    + rewrite IH, render_codes_app; cbn [render_codes map concat app].
      now rewrite app_nil_r, <- app_assoc.
    + specialize (IH [c] []).
      destruct (segments_from [c] [] ps) as [segs trailing]; cbn [fst snd] in *.
      rewrite render_flat_cons, IH; cbn [render_codes map concat app].
      now rewrite app_nil_r.
Qed.

Lemma segments_from_ok (ps : list content) :
  forall codes text,
    forallb style_piece ps = true ->
    forallb style_param codes = true ->
    esc_free text = true ->
    Forall (fun g => segment_ok g = true) (fst (segments_from codes text ps))
    /\ Forall coded (tl (fst (segments_from codes text ps)))
    /\ (nonempty codes = true ->
        Forall coded (fst (segments_from codes text ps)))
    /\ forallb style_param (snd (segments_from codes text ps)) = true.
Proof.
  induction ps as [|[s|c] ps IH]; intros codes text Hps Hcodes Htext;
    cbn [segments_from].
  - destruct text as [|ch text]; cbn [fst snd tl].
    + repeat split; auto.
    + repeat split; auto; repeat constructor; auto.
      unfold segment_ok; cbn [fst snd nonempty]; now rewrite Hcodes, Htext.
  - cbn [forallb style_piece] in Hps; apply andb_true_iff in Hps as [Hs Hps].
    apply IH; auto.
    unfold esc_free in *; now rewrite forallb_app, Htext, Hs.
  - cbn [forallb style_piece] in Hps; apply andb_true_iff in Hps as [Hc Hps].
    destruct text as [|ch text].
    + destruct (IH (codes ++ [c]) [] Hps) as (H1 & H2 & H3 & H4); auto.
      { rewrite forallb_app, Hcodes; cbn [forallb]; now rewrite Hc. }
      repeat split; auto.
      intros _; apply H3; destruct codes; reflexivity.
    + destruct (IH [c] [] Hps) as (H1 & H2 & H3 & H4); auto.
      { cbn [forallb]; now rewrite Hc. }
      destruct (segments_from [c] [] ps) as [segs trailing];
        cbn [fst snd tl] in *.
      split; [|split; [|split]].
      * constructor; [|exact H1].
        unfold segment_ok; cbn [fst snd nonempty]; now rewrite Hcodes, Htext.
      * now apply H3.
      * intros Hn; constructor; [exact Hn | now apply H3].
      * exact H4.
Qed.

(** C1, amended: [optimize_ansi] is idempotent on every ANSI string that is
    made of SGR sequences with numeric parameters other than the universal
    reset and of text without the ESC character: it returns a string that
    it maps to itself. *)
Theorem optimize_ansi_idempotent_without_reset (names : list (str * nat))
    (ps : list content) (Hps : forallb style_piece ps = true) :
  exists y,
    optimize_ansi names (render ps) = Ok y
    /\ optimize_ansi names y = Ok y.
Proof.
  destruct (segments_from_ok ps [] [] Hps eq_refl eq_refl)
    as (Hok & Hcoded & _ & Htrailing).
  pose proof (segments_from_render ps [] []) as Hrender.
  cbn [render_codes map concat app] in Hrender; rewrite <- Hrender.
  apply optimize_ansi_idempotent_on_segments; [|exact Htrailing].
  unfold segments_ok; apply andb_true_iff; split;
    now apply forallb_Forall_iff.
Qed.

Lemma optimize_ansi_idempotent_without_reset_witness :
  let ps := [Sgr (lit "1"); Sgr (lit "38;5;141"); Text (lit "hi");
             Sgr (lit "1"); Text (lit "!"); Sgr (lit "4")] in
  forallb style_piece ps = true
  /\ exists y,
       optimize_ansi base_names (render ps) = Ok y
       /\ optimize_ansi base_names y = Ok y.
Proof.
  split; [reflexivity|].
  exact (optimize_ansi_idempotent_without_reset base_names
           [Sgr (lit "1"); Sgr (lit "38;5;141"); Text (lit "hi");
            Sgr (lit "1"); Text (lit "!"); Sgr (lit "4")] eq_refl).
Defined.

(** A reset after a pending code is written, and dropped by the second
    pass, in which no code is pending before it. *)
Lemma optimize_ansi_twice_differs :
  let x := esc :: lit "[1m" ++ reset ++ lit "b" in
  optimize_ansi base_names x = Ok (reset ++ lit "b" ++ reset)
  /\ optimize_ansi base_names (reset ++ lit "b" ++ reset)
     = Ok (lit "b" ++ reset)
  /\ (y <- optimize_ansi base_names x ;; optimize_ansi base_names y)
     <> optimize_ansi base_names x.
Proof.
  split; [reflexivity|]; split; [reflexivity|].
  vm_compute; discriminate.
Qed.

(** ** Escaping *)

Lemma escape_char_printable (c : ascii) :
  forallb printable_char (escape_char c) = true.
Proof.
  destruct c as [[] [] [] [] [] [] [] []]; vm_compute; reflexivity.
Qed.

(** X1: the result of [escape_ansi] holds printable ASCII characters only,
    whatever the text: no ESC, no other control character and no character
    above U+007E is left in it. *)
Theorem escape_ansi_is_printable (text : str) :
  forallb printable_char (escape_ansi text) = true
  /\ esc_free (escape_ansi text) = true.
Proof.
  assert (H : forallb printable_char (escape_ansi text) = true).
  { unfold escape_ansi; induction text as [|c text IH]; [reflexivity|].
    cbn [map concat]; now rewrite forallb_app, escape_char_printable, IH. }
  split; [exact H|].
  unfold esc_free; rewrite forallb_forall in H |- *.
  intros c Hc; specialize (H c Hc).
  destruct (Ascii.eqb c esc) eqn:He; [|reflexivity].
  apply Ascii.eqb_eq in He; subst c; discriminate H.
Qed.

Lemma escape_char_fixed (c : ascii) :
  (escape_char c = [c]
   <-> printable_char c && negb (Ascii.eqb c backslash) = true)
  /\ 1 <= length (escape_char c)
  /\ (hd c (escape_char c) = c -> length (escape_char c) = 1
      \/ c = backslash).
Proof.
  destruct c as [[] [] [] [] [] [] [] []]; vm_compute;
    (split; [split; intros H; try reflexivity; discriminate H|]);
    (split; [lia|]); intros H; auto; discriminate H.
Qed.

Lemma escape_ansi_length (text : str) : length text <= length (escape_ansi text).
Proof.
  unfold escape_ansi; induction text as [|c text IH]; [constructor|].
  cbn [map concat length]; rewrite length_app.
  pose proof (proj1 (proj2 (escape_char_fixed c))); lia.
Qed.

(** X2: [escape_ansi] returns its argument unchanged exactly when every
    character of the argument is a printable ASCII character other than the
    backslash; its result is never shorter than the argument. *)
Theorem escape_ansi_fixed_points (text : str) :
  (escape_ansi text = text
   <-> forallb (fun c => printable_char c && negb (Ascii.eqb c backslash))
         text = true)
  /\ length text <= length (escape_ansi text).
Proof.
  split; [|apply escape_ansi_length].
  unfold escape_ansi; induction text as [|c text IH]; [now split|].
  cbn [map concat forallb]; fold (escape_ansi text).
  destruct (escape_char_fixed c) as (Hfix & Hlen & Hhd).
  split.
  - intros H.
    assert (Hc : escape_char c = [c]).
    { destruct (escape_char c) as [|d ds] eqn:Hd; [simpl in Hlen; lia|].
      cbn [app] in H; injection H as Hd1 Hrest.
      subst d; destruct (Hhd eq_refl) as [Hone | Hback].
      - destruct ds; [reflexivity | discriminate Hone].
      - exfalso; subst c.
        assert (Hds : ds = [backslash]) by (now injection Hd).
        subst ds; cbn [app] in Hrest.
        pose proof (escape_ansi_length text) as Hl.
        apply (f_equal (@length ascii)) in Hrest.
        unfold escape_ansi in *; cbn [length] in Hrest; lia. }
    rewrite Hc in H; cbn [app] in H; injection H as H.
    apply andb_true_iff; split; [now apply Hfix | now apply IH].
  - intros H; apply andb_true_iff in H as [Hc Htext].
    apply Hfix in Hc; rewrite Hc; cbn [app]; f_equal.
    now apply IH.
Qed.

(** ** The shape of the tokens *)

Lemma tokenize_ansi_loop_shape (text : str)
    (matches : list (nat * nat * (option str * option str))) :
  forall position start end_ previous,
    Forall ansi_token_shape
      (fst (tokenize_ansi_loop text matches position start end_ previous)).
Proof.
  induction matches as [|[[st en] [sgr osc]] ms IH];
    intros position start end0 previous; cbn [tokenize_ansi_loop].
  - destruct (position <? length text); cbn [fst]; repeat constructor.
  - set (previous' := if position <? st then _ else previous).
    assert (Hrest : Forall ansi_token_shape (fst
      match sgr with
      | Some sgr0 =>
          match ansi_attribute sgr0 with
          | Ok attribute0 =>
              if differs_from_previous previous' sgr0
              then yield (mkToken st en None (Some sgr0) attribute0)
                     (tokenize_ansi_loop text ms en st en
                        (Some (mkToken st en None (Some sgr0) attribute0)))
              else tokenize_ansi_loop text ms en st en previous'
          | Raise e => ([], Some e)
          end
      | None => ([], Some AttributeError)
      end)).
    { destruct sgr as [sgr|]; [|constructor].
      destruct (ansi_attribute sgr); [|constructor].
      destruct (differs_from_previous previous' sgr); [|apply IH].
      constructor; [exact I | apply IH]. }
    destruct (position <? st); [|exact Hrest].
    constructor; [reflexivity | exact Hrest].
Qed.

Section MarkupShapes.

Variable names : list (str * nat).
Variable translate_hex : str -> option (list nat).

Lemma tag_token_shape (text : str) (start end_ : nat) (tag : str)
    (t : Token) :
  tag_token names translate_hex text start end_ tag = Ok t ->
  markup_token_shape t.
Proof.
  unfold tag_token, markup_token_shape.
  destruct (str_index tag NAMES).
  { intros [= <-]; cbn [plain code attribute].
    destruct (str_eqb tag _); auto. }
  destruct (dict_get UNSET_MAP tag);
    [intros [= <-]; cbn [plain code attribute]; auto|].
  destruct (_handle_named_color names translate_hex tag) as [[[c b]|]|e];
    cbn [bind]; try discriminate.
  { intros [= <-]; cbn [plain code attribute]; destruct b; cbn; auto. }
  destruct (_handle_color translate_hex tag) as [[[c b]|]|e];
    cbn [bind]; try discriminate.
  intros [= <-]; cbn [plain code attribute]; destruct b; cbn; auto.
Qed.

Lemma tokenize_tags_shape (text : str) (start end_ : nat)
    (tags : list str) (rest : generator) :
  Forall markup_token_shape (fst rest) ->
  Forall markup_token_shape
    (fst (tokenize_tags names translate_hex text start end_ tags rest)).
Proof.
  intros Hrest; induction tags as [|tag tags IH]; cbn [tokenize_tags];
    [exact Hrest|].
  destruct (tag_token names translate_hex text start end_ tag) eqn:Ht;
    [|constructor].
  constructor; [eapply tag_token_shape; eassumption | exact IH].
Qed.

Lemma tokenize_markup_loop_shape (text : str)
    (matches : list (nat * nat * (str * str * str))) :
  forall position start end_,
    Forall markup_token_shape
      (fst (tokenize_markup_loop names translate_hex text matches
              position start end_)).
Proof.
  induction matches as [|[[st en] [[full escapes] tag_text]] ms IH];
    intros position start end0; cbn [tokenize_markup_loop].
  - destruct (position <? length text); cbn [fst]; repeat constructor.
  - assert (Hrest : Forall markup_token_shape (fst
      (if negb (str_eqb escapes [])
       then yield (mkToken st en (Some (skipn (length escapes) full))
                     None (Some ESCAPED))
              (tokenize_markup_loop names translate_hex text ms en st en)
       else tokenize_tags names translate_hex text st en
              (split_ws tag_text)
              (tokenize_markup_loop names translate_hex text ms en st en)))).
    { destruct (negb (str_eqb escapes [])).
      - constructor; [now right | apply IH].
      - apply tokenize_tags_shape, IH. }
    destruct (position <? st); [|exact Hrest].
    constructor; [now left | exact Hrest].
Qed.

End MarkupShapes.

Lemma shape_to_sequence (t : Token) :
  ansi_token_shape t \/ markup_token_shape t ->
  exists s, to_sequence t = Ok s.
Proof.
  unfold ansi_token_shape, markup_token_shape, to_sequence.
  destruct (plain t), (code t); intros [H|H]; try contradiction; eauto.
Qed.

(** X3: every token that a tokenizer yields holds either a text or a code,
    never both and never neither, so that [to_sequence] does not fail on
    it; a text token of [tokenize_ansi] has no attribute, a text token of
    [tokenize_markup] has none or is [ESCAPED], and a code token of
    [tokenize_markup] has one of [CLEAR], [STYLE], [COLOR] and
    [BACKGROUND_COLOR]. *)
Theorem tokenizers_yield_shaped_tokens (names : list (str * nat))
    (translate_hex : str -> option (list nat)) (text : str) :
  Forall ansi_token_shape (fst (tokenize_ansi text))
  /\ Forall markup_token_shape (fst (tokenize_markup names translate_hex text))
  /\ (forall t,
         In t (fst (tokenize_ansi text))
         \/ In t (fst (tokenize_markup names translate_hex text)) ->
         exists s, to_sequence t = Ok s).
Proof.
  assert (Ha : Forall ansi_token_shape (fst (tokenize_ansi text)))
    by apply tokenize_ansi_loop_shape.
  assert (Hm : Forall markup_token_shape
                 (fst (tokenize_markup names translate_hex text)))
    by apply tokenize_markup_loop_shape.
  split; [exact Ha|]; split; [exact Hm|].
  rewrite Forall_forall in Ha, Hm.
  intros t [Ht|Ht]; apply shape_to_sequence; auto.
Qed.

(** ** One token for each tag word *)

Section TagTokens.

Variable names : list (str * nat).
Variable translate_hex : str -> option (list nat).

Lemma tag_token_has_code (text : str) (start end_ : nat) (tag : str)
    (t : Token) :
  tag_token names translate_hex text start end_ tag = Ok t ->
  has_code t = true.
Proof.
  unfold tag_token.
  destruct (str_index tag NAMES); [now intros [= <-]|].
  destruct (dict_get UNSET_MAP tag); [now intros [= <-]|].
  destruct (_handle_named_color names translate_hex tag) as [[[c b]|]|e];
    cbn [bind]; try discriminate; [now intros [= <-]|].
  destruct (_handle_color translate_hex tag) as [[[c b]|]|e];
    cbn [bind]; try discriminate.
  now intros [= <-].
Qed.

Lemma tokenize_tags_tokens (text : str) (start end_ : nat)
    (tags : list str) (rest : generator) (words : list str) :
  snd (tokenize_tags names translate_hex text start end_ tags rest) = None ->
  (snd rest = None ->
   Forall2 (token_of names translate_hex text) (filter has_code (fst rest)) words) ->
  Forall2 (token_of names translate_hex text)
    (filter has_code
       (fst (tokenize_tags names translate_hex text start end_ tags rest)))
    (tags ++ words).
Proof.
  induction tags as [|tag tags IH]; cbn [tokenize_tags app]; [auto|].
  destruct (tag_token names translate_hex text start end_ tag) as [t|e]
    eqn:Ht; [|discriminate].
  cbn [yield fst snd filter]; intros Hnone Hrest.
  rewrite (tag_token_has_code _ _ _ _ _ Ht).
  constructor; [now exists start, end_ | now apply IH].
Qed.

Lemma tokenize_markup_loop_tokens (text : str)
    (matches : list (nat * nat * (str * str * str))) :
  forall position start end_,
    snd (tokenize_markup_loop names translate_hex text matches
           position start end_) = None ->
    Forall2 (token_of names translate_hex text)
      (filter has_code
         (fst (tokenize_markup_loop names translate_hex text matches
                 position start end_)))
      (concat (map bracket_words matches)).
Proof.
  induction matches as [|[[st en] [[full escapes] tag_text]] ms IH];
    intros position start end0; cbn [tokenize_markup_loop].
  - destruct (position <? length text); intros _; constructor.
  - cbn [map concat bracket_words].
    set (rest := tokenize_markup_loop names translate_hex text ms en st en)
      in *.
    assert (Hrest :
      snd (if negb (str_eqb escapes [])
           then yield (mkToken st en (Some (skipn (length escapes) full))
                         None (Some ESCAPED)) rest
           else tokenize_tags names translate_hex text st en
                  (split_ws tag_text) rest) = None ->
      Forall2 (token_of names translate_hex text)
        (filter has_code
           (fst (if negb (str_eqb escapes [])
                 then yield (mkToken st en
                               (Some (skipn (length escapes) full))
                               None (Some ESCAPED)) rest
                 else tokenize_tags names translate_hex text st en
                        (split_ws tag_text) rest)))
        ((if str_eqb escapes [] then split_ws tag_text else [])
         ++ concat (map bracket_words ms))).
    { destruct (str_eqb escapes []); cbn [negb].
      - intros Hnone; apply tokenize_tags_tokens; [exact Hnone|].
        apply IH.
      - cbn [yield fst snd filter has_code code app]; apply IH. }
    destruct (position <? st); [|exact Hrest].
    cbn [yield fst snd filter has_code code]; exact Hrest.
Qed.

End TagTokens.

(** X4: when [tokenize_markup] raises nothing, its code tokens are, in
    order, the tokens of the tag words of the brackets that are not
    escaped, one for each word: a tag that is written again yields a token
    again. *)
Theorem tokenize_markup_one_token_per_word (names : list (str * nat))
    (translate_hex : str -> option (list nat)) (text : str)
    (Hnone : snd (tokenize_markup names translate_hex text) = None) :
  Forall2
    (fun t w =>
       exists start end_,
         tag_token names translate_hex text start end_ w = Ok t)
    (filter has_code (fst (tokenize_markup names translate_hex text)))
    (tag_words text)
  /\ length (filter has_code (fst (tokenize_markup names translate_hex text)))
     = length (tag_words text).
Proof.
  pose proof (tokenize_markup_loop_tokens names translate_hex text
                (finditer RE_TAGS text) 0 0 0 Hnone) as H.
  split; [exact H | exact (Forall2_length H)].
Qed.

Lemma tokenize_markup_one_token_per_word_witness :
  let text := lit "[bold bold bold]hello" in
  snd (tokenize_markup base_names hex_translator text) = None
  /\ tag_words text = [lit "bold"; lit "bold"; lit "bold"]
  /\ length (filter has_code
               (fst (tokenize_markup base_names hex_translator text)))
     = length (tag_words text).
Proof.
  split; [reflexivity|]; split; [reflexivity|].
  exact (proj2 (tokenize_markup_one_token_per_word base_names hex_translator
                  (lit "[bold bold bold]hello") eq_refl)).
Defined.

(** ** Named colours *)

Lemma digit_char_decimal (d : nat) :
  d < 10 -> isdecimal_char (digit_char d) = true.
Proof.
  intros H; do 10 (destruct d as [|d]; [reflexivity|]); lia.
Qed.

Lemma str_of_nat_fuel_decimal (fuel : nat) :
  forall n acc,
    forallb isdecimal_char acc = true ->
    forallb isdecimal_char (str_of_nat_fuel fuel n acc) = true.
Proof.
  induction fuel as [|fuel IH]; intros n acc Hacc; [exact Hacc|].
  cbn [str_of_nat_fuel].
  assert (Hacc' : forallb isdecimal_char (digit_char (n mod 10) :: acc)
                  = true).
  { cbn [forallb]; rewrite Hacc, digit_char_decimal; [reflexivity|].
    apply Nat.mod_upper_bound; discriminate. }
  destruct (n <? 10); [exact Hacc' | now apply IH].
Qed.

Lemma str_of_nat_decimal (n : nat) :
  forallb isdecimal_char (str_of_nat n) = true.
Proof. now apply str_of_nat_fuel_decimal. Qed.

Lemma decimal_color_chars (s : str) :
  forallb isdecimal_char s = true ->
  forallb color_char s = true
  /\ startswith s (lit "@") = false
  /\ startswith s (lit "#") = false
  /\ count_char ";" s = 0.
Proof.
  induction s as [|c s IH]; intros H; [repeat split|].
  cbn [forallb] in H; apply andb_true_iff in H as [Hc Hs].
  destruct (IH Hs) as (H1 & _ & _ & H4).
  assert (Hcs : color_char c = true /\ Ascii.eqb "@" c = false
                /\ Ascii.eqb "#" c = false /\ Ascii.eqb ";" c = false).
  { revert Hc; clear; destruct c as [[] [] [] [] [] [] [] []];
      vm_compute; intros H; try discriminate H; repeat split. }
  destruct Hcs as (Hc1 & Hc2 & Hc3 & Hc4).
  repeat split.
  - cbn [forallb]; now rewrite Hc1, H1.
  - cbn [startswith lit list_ascii_of_string]; now rewrite Hc2.
  - cbn [startswith lit list_ascii_of_string]; now rewrite Hc3.
  - unfold count_char in *; cbn [filter]; now rewrite Hc4.
Qed.

(** A decimal number as a colour tag, with and without the at sign. *)
Lemma handle_color_decimal (translate_hex : str -> option (list nat))
    (d : str) :
  forallb isdecimal_char d = true ->
  _handle_color translate_hex d = Ok (Some (lit "38;5;" ++ d, false))
  /\ _handle_color translate_hex (lit "@" ++ d)
     = Ok (Some (lit "48;5;" ++ d, true)).
Proof.
  intros Hd; destruct (decimal_color_chars d Hd) as (Hc & Hat & Hsharp & Hn).
  unfold _handle_color; split.
  - rewrite Hc, Hat; cbn [negb]; rewrite Hsharp, Hn; reflexivity.
  - change (forallb color_char (lit "@" ++ d))
      with (color_char "@" && forallb color_char d).
    rewrite Hc.
    change (startswith (lit "@" ++ d) (lit "@")) with true.
    cbn [andb negb tl app lit list_ascii_of_string color_char].
    change (color_char "@") with true; cbn [negb].
    change ["#"%char] with (lit "#"); rewrite Hsharp, Hn; reflexivity.
Qed.

Lemma lstrip_char_no_prefix (c : ascii) (s : str) :
  startswith s [c] = false -> lstrip_char c s = s.
Proof.
  destruct s as [|d s]; [reflexivity|].
  cbn [startswith lstrip_char]; rewrite andb_true_r, Ascii.eqb_sym.
  now intros ->.
Qed.

(** X5: a tag that is a key of the colour registry, and does not begin with
    an at sign, resolves to the 8-bit foreground fragment of its palette
    index; preceded by one at sign it resolves to the background fragment
    of that index, with the background flag. *)
Theorem named_color_resolves_to_palette (names : list (str * nat))
    (translate_hex : str -> option (list nat)) (name : str) (value : nat)
    (Hname : dict_get names name = Some value)
    (Hat : startswith name (lit "@") = false) :
  _handle_named_color names translate_hex name
  = Ok (Some (lit "38;5;" ++ str_of_nat value, false))
  /\ _handle_named_color names translate_hex (lit "@" ++ name)
     = Ok (Some (lit "48;5;" ++ str_of_nat value, true)).
Proof.
  destruct (handle_color_decimal translate_hex (str_of_nat value)
              (str_of_nat_decimal value)) as [Hfg Hbg].
  unfold _handle_named_color, dict_mem, dict_subscript; split.
  - rewrite (lstrip_char_no_prefix "@" name Hat), Hname, Hat.
    cbn [negb]; rewrite Hname; cbn [bind app]; exact Hfg.
  - change (lstrip_char "@" (lit "@" ++ name)) with (lstrip_char "@" name).
    rewrite (lstrip_char_no_prefix "@" name Hat), Hname.
    change (startswith (lit "@" ++ name) (lit "@")) with true.
    cbn [negb tl app lit list_ascii_of_string]; rewrite Hname.
    cbn [bind]; exact Hbg.
Qed.

Lemma named_color_resolves_to_palette_witness :
  dict_get base_names (lit "red") = Some 1
  /\ startswith (lit "red") (lit "@") = false
  /\ _handle_named_color base_names hex_translator (lit "red")
     = Ok (Some (lit "38;5;1", false))
  /\ _handle_named_color base_names hex_translator (lit "@red")
     = Ok (Some (lit "48;5;1", true)).
Proof.
  split; [reflexivity|]; split; [reflexivity|].
  exact (named_color_resolves_to_palette base_names hex_translator
           (lit "red") 1 eq_refl eq_refl).
Defined.

(** X6: a registered colour name preceded by two at signs passes the
    membership test, which strips every leading at sign, but only one is
    removed before the lookup: the lookup of the name with one at sign
    raises a KeyError, which is no SyntaxError, and the markup tokenizer
    raises it on such a tag word. *)
Theorem doubled_at_sign_raises_KeyError (names : list (str * nat))
    (translate_hex : str -> option (list nat)) (name text : str)
    (start end_ : nat)
    (Hname : dict_mem names name = true)
    (Hat : startswith name (lit "@") = false)
    (Hone : dict_get names (lit "@" ++ name) = None) :
  _handle_named_color names translate_hex (lit "@@" ++ name)
  = Raise (KeyError_lookup (lit "@" ++ name))
  /\ tag_token names translate_hex text start end_ (lit "@@" ++ name)
     = Raise (KeyError_lookup (lit "@" ++ name))
  /\ is_SyntaxError (KeyError_lookup (lit "@" ++ name)) = false.
Proof.
  assert (H : _handle_named_color names translate_hex (lit "@@" ++ name)
              = Raise (KeyError_lookup (lit "@" ++ name))).
  { unfold _handle_named_color, dict_subscript.
    change (lstrip_char "@" (lit "@@" ++ name)) with (lstrip_char "@" name).
    rewrite (lstrip_char_no_prefix "@" name Hat), Hname.
    change (startswith (lit "@@" ++ name) (lit "@")) with true.
    cbn [negb tl app lit list_ascii_of_string].
    change ("@"%char :: name) with (lit "@" ++ name).
    now rewrite Hone. }
  split; [exact H|]; split; [|reflexivity].
  unfold tag_token.
  change (str_index (lit "@@" ++ name) NAMES) with (@None nat).
  change (dict_get UNSET_MAP (lit "@@" ++ name)) with (@None str).
  now rewrite H.
Qed.

Lemma doubled_at_sign_raises_KeyError_witness :
  dict_mem base_names (lit "red") = true
  /\ startswith (lit "red") (lit "@") = false
  /\ dict_get base_names (lit "@red") = None
  /\ _handle_named_color base_names hex_translator (lit "@@red")
     = Raise (KeyError_lookup (lit "@red"))
  /\ tag_token base_names hex_translator (lit "[@@red]x") 0 7 (lit "@@red")
     = Raise (KeyError_lookup (lit "@red")).
Proof.
  split; [reflexivity|]; split; [reflexivity|]; split; [reflexivity|].
  pose proof (doubled_at_sign_raises_KeyError base_names hex_translator
                (lit "red") (lit "[@@red]x") 0 7 eq_refl eq_refl eq_refl)
    as (Hcolor & Htoken & _).
  split; [exact Hcolor | exact Htoken].
Defined.

(** ** Styles and their unsetters *)

Lemma dict_get_In (V : Type) (d : list (str * V)) (k : str) (v : V) :
  dict_get d k = Some v -> In (k, v) d.
Proof.
  induction d as [|[k' v'] d IH]; cbn [dict_get]; [discriminate|].
  destruct (str_eqb k' k) eqn:Hk.
  - apply str_eqb_eq in Hk; intros [= <-]; subst; now left.
  - intros H; right; auto.
Qed.

(** X7: a tag that is a style name or a key of [UNSET_MAP] yields a token
    whose name is the tag again, with one exception: the code of /dim is
    the code of /bold, and the name of its token is /bold. *)
Theorem style_tags_round_trip (names : list (str * nat))
    (translate_hex : str -> option (list nat)) (text : str)
    (start end_ : nat) (tag : str)
    (Htag : In tag NAMES \/ dict_mem UNSET_MAP tag = true) :
  exists t,
    tag_token names translate_hex text start end_ tag = Ok t
    /\ to_name names t
       = Ok (if str_eqb tag (lit "/dim") then lit "/bold" else tag).
Proof.
  destruct Htag as [Hin | Hmem].
  - simpl in Hin.
    repeat (destruct Hin as [<- | Hin];
            [eexists; split; reflexivity|]).
    destruct Hin.
  - unfold dict_mem in Hmem.
    destruct (dict_get UNSET_MAP tag) as [v|] eqn:Hget; [|discriminate].
    apply dict_get_In in Hget; simpl in Hget.
    repeat (destruct Hget as [[= <- <-] | Hget];
            [eexists; split; reflexivity|]).
    destruct Hget.
Qed.

Lemma style_tags_round_trip_witness :
  (In (lit "italic") NAMES \/ dict_mem UNSET_MAP (lit "italic") = true)
  /\ (In (lit "/dim") NAMES \/ dict_mem UNSET_MAP (lit "/dim") = true)
  /\ (exists t,
         tag_token base_names hex_translator (lit "[italic]") 0 8
           (lit "italic") = Ok t
         /\ to_name base_names t = Ok (lit "italic"))
  /\ (exists t,
         tag_token base_names hex_translator (lit "[/dim]") 0 6
           (lit "/dim") = Ok t
         /\ to_name base_names t = Ok (lit "/bold")).
Proof.
  assert (H1 : In (lit "italic") NAMES
               \/ dict_mem UNSET_MAP (lit "italic") = true)
    by (left; simpl; tauto).
  assert (H2 : In (lit "/dim") NAMES \/ dict_mem UNSET_MAP (lit "/dim") = true)
    by (right; reflexivity).
  split; [exact H1|]; split; [exact H2|]; split.
  - exact (style_tags_round_trip base_names hex_translator (lit "[italic]")
             0 8 (lit "italic") H1).
  - exact (style_tags_round_trip base_names hex_translator (lit "[/dim]")
             0 6 (lit "/dim") H2).
Defined.

(** X8: for each of the nine styles, [get_unsetter] of the style token
    gives a code, and [get_setter] of the [CLEAR] token with that code gives
    the code of the style back, except for dim: its unsetter is the one of
    bold, and the setter found for it is the code of bold. *)
Theorem unsetter_then_setter (names : list (str * nat)) (i : nat)
    (start end_ start' end' : nat)
    (Hlow : 1 <= i) (Hhigh : i <= 9) :
  exists u,
    get_unsetter names
      (mkToken start end_ None (Some (str_of_nat i)) (Some STYLE))
    = Ok (Some u)
    /\ dict_has_value str_eqb UNSET_MAP u = true
    /\ get_setter names (mkToken start' end' None (Some u) (Some CLEAR))
       = Ok (Some (str_of_nat (if i =? 2 then 1 else i))).
Proof.
  destruct i as [|i]; [lia|].
  do 9 (destruct i as [|i];
        [eexists; split; [reflexivity | split; reflexivity]|]).
  lia.
Qed.

Lemma unsetter_then_setter_witness :
  1 <= 2 /\ 2 <= 9
  /\ exists u,
       get_unsetter base_names
         (mkToken 0 4 None (Some (lit "2")) (Some STYLE)) = Ok (Some u)
       /\ dict_has_value str_eqb UNSET_MAP u = true
       /\ get_setter base_names (mkToken 0 5 None (Some u) (Some CLEAR))
          = Ok (Some (lit "1")).
Proof.
  split; [lia|]; split; [lia|].
  exact (unsetter_then_setter base_names 2 0 4 0 5
           (le_S 1 1 (le_n 1))
           (le_S 2 8 (le_S 2 7 (le_S 2 6 (le_S 2 5 (le_S 2 4 (le_S 2 3
              (le_S 2 2 (le_n 2))))))))).
Defined.

(** ** Numeric colour tags *)

Lemma split_on_not_nil (c : ascii) (s : str) : split_on c s <> [].
Proof.
  destruct s as [|d s]; cbn [split_on]; [discriminate|].
  destruct (Ascii.eqb d c); [discriminate|].
  destruct (split_on c s); discriminate.
Qed.

Lemma join_cons (c : ascii) (x : str) (xs : list str) :
  xs <> [] -> join [c] (x :: xs) = x ++ c :: join [c] xs.
Proof. destruct xs; [congruence | reflexivity]. Qed.

(** Splitting at a character and joining with it gives the string back. *)
Lemma join_split_on (c : ascii) (s : str) : join [c] (split_on c s) = s.
Proof.
  induction s as [|d s IH]; [reflexivity|].
  cbn [split_on]; destruct (Ascii.eqb d c) eqn:Hd.
  - apply Ascii.eqb_eq in Hd; subst d.
    rewrite join_cons by apply split_on_not_nil.
    cbn [app]; now rewrite IH.
  - pose proof (split_on_not_nil c s) as Hne.
    destruct (split_on c s) as [|f fs]; [congruence|].
    destruct fs as [|g fs].
    + cbn [join] in *; now rewrite IH.
    + rewrite join_cons in * by discriminate.
      cbn [app]; now rewrite IH.
Qed.

Lemma split_on_prefix (c : ascii) (a b : str) :
  forallb (fun ch => negb (Ascii.eqb ch c)) a = true ->
  split_on c (a ++ c :: b) = a :: split_on c b.
Proof.
  induction a as [|d a IH]; intros H.
  - cbn [app split_on]; now rewrite Ascii.eqb_refl.
  - cbn [forallb] in H; apply andb_true_iff in H as [Hd Ha].
    apply negb_true_iff in Hd.
    cbn [app split_on]; now rewrite Hd, (IH Ha).
Qed.

(** The fields of the code of a colour token. *)
Lemma split_on_color_code (background : bool) (tag : str) :
  split_on ";" (color_layer background ++ color_depth tag ++ tag)
  = (if background then lit "48" else lit "38")
    :: (if semicolon_parts tag <? 3 then lit "5" else lit "2")
    :: split_on ";" tag.
Proof.
  unfold color_layer, color_depth.
  destruct background, (semicolon_parts tag <? 3);
    cbn [app lit list_ascii_of_string];
    match goal with
    | |- split_on _ (?a :: ?b :: ";"%char :: ?d :: ";"%char :: tag) = _ =>
        change (a :: b :: ";"%char :: d :: ";"%char :: tag)
          with ([a; b] ++ ";"%char :: ([d] ++ ";"%char :: tag))
    end;
    rewrite !split_on_prefix by reflexivity; reflexivity.
Qed.

Lemma decimal_field_chars (fs : list str) :
  forallb decimal_field fs = true ->
  forallb isdigit fs = true
  /\ forallb (fun ch => isdecimal_char ch || Ascii.eqb ch ";")
       (join (lit ";") fs) = true.
Proof.
  induction fs as [|f fs IH]; intros H; [split; reflexivity|].
  cbn [forallb] in H; apply andb_true_iff in H as [Hf Hfs].
  destruct (IH Hfs) as [IH1 IH2].
  unfold decimal_field in Hf; apply andb_true_iff in Hf as [Hne Hdec].
  assert (Hdigit : isdigit f = true).
  { destruct f as [|ch f]; [discriminate|].
    unfold isdigit; rewrite forallb_forall in Hdec |- *.
    intros x Hx; unfold isdigit_char; now rewrite (Hdec x Hx). }
  assert (Hparam : forallb (fun ch => isdecimal_char ch || Ascii.eqb ch ";") f
                   = true).
  { rewrite forallb_forall in Hdec |- *.
    intros x Hx; now rewrite (Hdec x Hx). }
  split; [cbn [forallb]; now rewrite Hdigit, IH1|].
  destruct fs as [|g fs]; [exact Hparam|].
  change (join (lit ";") (f :: g :: fs))
    with (f ++ lit ";" ++ join (lit ";") (g :: fs)).
  now rewrite !forallb_app, Hparam, IH2.
Qed.

Lemma param_color_char (ch : ascii) :
  isdecimal_char ch || Ascii.eqb ch ";" = true -> color_char ch = true.
Proof.
  destruct ch as [[] [] [] [] [] [] [] []]; vm_compute; intros H;
    try discriminate H; reflexivity.
Qed.

(** A word that begins with a decimal digit or an at sign is no style name
    and no key of [UNSET_MAP]. *)
Lemma digit_word_not_in_tables (d : ascii) (rest : str) :
  isdecimal_char d || Ascii.eqb d "@" = true ->
  str_index (d :: rest) NAMES = None
  /\ dict_get UNSET_MAP (d :: rest) = None.
Proof.
  destruct d as [[] [] [] [] [] [] [] []]; vm_compute; intros H;
    try discriminate H; split; reflexivity.
Qed.

Lemma decimal_fields_head (tag : str) :
  forallb decimal_field (split_on ";" tag) = true ->
  exists d rest, tag = d :: rest /\ isdecimal_char d = true.
Proof.
  destruct tag as [|d rest]; [discriminate|].
  cbn [split_on]; destruct (Ascii.eqb d ";"); [discriminate|].
  pose proof (split_on_not_nil ";" rest) as Hne.
  destruct (split_on ";" rest) as [|f fs]; [congruence|].
  cbn [forallb decimal_field nonempty]; intros H.
  apply andb_true_iff in H as [H _]; apply andb_true_iff in H as [_ H].
  cbn [forallb] in H; apply andb_true_iff in H as [H _].
  exists d, rest; split; [reflexivity | exact H].
Qed.

Lemma color_word_not_in_tables (word : str) :
  forallb color_char word = true ->
  str_index word NAMES = None /\ dict_get UNSET_MAP word = None.
Proof.
  intros Hchars; split.
  - destruct (str_index word NAMES) as [i|] eqn:Hi; [|reflexivity].
    apply str_index_In in Hi; simpl in Hi.
    repeat (destruct Hi as [<- | Hi]; [discriminate Hchars|]).
    destruct Hi.
  - destruct (dict_get UNSET_MAP word) as [v|] eqn:Hv; [|reflexivity].
    apply dict_get_In in Hv; simpl in Hv.
    repeat (destruct Hv as [[= <- <-] | Hv]; [discriminate Hchars|]).
    destruct Hv.
Qed.

Lemma handle_color_plain (translate_hex : str -> option (list nat))
    (tag : str) (background : bool) :
  forallb color_char tag = true ->
  startswith tag (lit "@") = false ->
  startswith tag (lit "#") = false ->
  _handle_color translate_hex (at_sign background ++ tag)
  = Ok (Some (color_layer background ++ color_depth tag ++ tag, background)).
Proof.
  intros Hchars Hat Hsharp.
  unfold _handle_color, color_depth, color_layer, at_sign.
  destruct background.
  - change (forallb color_char (lit "@" ++ tag))
      with (color_char "@" && forallb color_char tag).
    change (startswith (lit "@" ++ tag) (lit "@")) with true.
    change (color_char "@") with true; rewrite Hchars.
    cbn [andb negb tl app lit list_ascii_of_string].
    change ["#"%char] with (lit "#").
    rewrite Hsharp, <- parts_below_three; cbn [negb andb].
    now rewrite andb_true_r.
  - cbn [app]; rewrite Hchars, Hat; cbn [negb].
    rewrite Hsharp, <- parts_below_three; cbn [negb andb].
    now rewrite andb_true_r.
Qed.

Section ColorTags.

Variable names : list (str * nat).
Variable translate_hex : str -> option (list nat).

(** The token of a colour tag that is no named colour and no hex colour. *)
Lemma tag_token_color (text : str) (start end_ : nat) (tag : str)
    (background : bool) :
  forallb color_char tag = true ->
  startswith tag (lit "@") = false ->
  startswith tag (lit "#") = false ->
  dict_mem names tag = false ->
  tag_token names translate_hex text start end_ (at_sign background ++ tag)
  = Ok (mkToken start end_ None
          (Some (color_layer background ++ color_depth tag ++ tag))
          (Some (color_attribute background))).
Proof.
  intros Hchars Hat Hsharp Hname.
  assert (Hword : forallb color_char (at_sign background ++ tag) = true).
  { destruct background; [|exact Hchars].
    change (forallb color_char (at_sign true ++ tag))
      with (color_char "@" && forallb color_char tag).
    now rewrite Hchars. }
  destruct (color_word_not_in_tables _ Hword) as [Hn Hu].
  unfold tag_token; rewrite Hn, Hu.
  assert (Hstrip : lstrip_char "@" (at_sign background ++ tag) = tag).
  { destruct background;
      [change (lstrip_char "@" (at_sign true ++ tag))
         with (lstrip_char "@" tag)|];
      now apply lstrip_char_no_prefix. }
  unfold _handle_named_color; rewrite Hstrip, Hname; cbn [negb bind].
  now rewrite (handle_color_plain translate_hex tag background
                 Hchars Hat Hsharp).
Qed.

(** The name of a colour token, by the fields of its tag. *)
Lemma to_name_color (start end_ : nat) (tag : str) (background : bool)
    (attr : option TokenAttribute) :
  to_name names
    (mkToken start end_ None
       (Some (color_layer background ++ color_depth tag ++ tag)) attr)
  = if negb (forallb isdigit (split_on ";" tag))
    then Raise SyntaxError_non_digit
    else
      simple <- int_of_str (hd [] (split_on ";" tag)) ;;
      match
        (if (semicolon_parts tag =? 1)
            && dict_has_value Nat.eqb names simple
         then dict_key_of Nat.eqb names simple else None)
      with
      | Some name => Ok (at_sign background ++ name)
      | None => Ok (at_sign background ++ tag)
      end.
Proof.
  unfold to_name; cbn [plain code].
  assert (Hdigit : isdigit (color_layer background ++ color_depth tag ++ tag)
                   = false)
    by (unfold color_layer; destruct background; reflexivity).
  rewrite Hdigit, split_on_color_code.
  pose proof (split_on_not_nil ";" tag) as Hne.
  unfold semicolon_parts.
  destruct (split_on ";" tag) as [|f fs] eqn:Hsplit; [congruence|].
  cbn [length Nat.ltb Nat.leb hd nth skipn].
  assert (Hfirst : (if str_eqb (if background then lit "48" else lit "38")
                         (lit "48") then lit "@" else [])
                   = at_sign background) by (now destruct background).
  rewrite Hfirst.
  assert (Hall : forall b : bool,
             forallb isdigit
               ((if background then lit "48" else lit "38")
                :: (if b then lit "5" else lit "2") :: f :: fs)
             = forallb isdigit (f :: fs))
    by (intros b; destruct background, b; reflexivity).
  rewrite Hall.
  destruct (forallb isdigit (f :: fs)); cbn [negb]; [|reflexivity].
  destruct (int_of_str f) as [simple|e]; cbn [bind]; [|reflexivity].
  replace (S (S (S (length fs))) =? 3) with (S (length fs) =? 1)
    by (destruct fs; reflexivity).
  change (lit ";") with [";"%char].
  rewrite <- Hsplit, join_split_on; reflexivity.
Qed.

End ColorTags.

(** X9: a colour tag made of decimal fields separated by semicolons, with
    or without the at sign of the background, that is no registered name
    and, when it has one field, no registered palette index, yields a
    colour token whose code is the layer, the depth and the tag, and whose
    name is the tag again. *)
Theorem numeric_color_tag_round_trip (names : list (str * nat))
    (translate_hex : str -> option (list nat)) (text : str)
    (start end_ : nat) (tag : str) (background : bool)
    (Hfields : forallb decimal_field (split_on ";" tag) = true)
    (Hname : dict_mem names tag = false)
    (Hvalue : forall n,
        int_of_str tag = Ok n -> dict_has_value Nat.eqb names n = false) :
  let t := mkToken start end_ None
             (Some (color_layer background ++ color_depth tag ++ tag))
             (Some (color_attribute background)) in
  tag_token names translate_hex text start end_ (at_sign background ++ tag)
  = Ok t
  /\ to_name names t = Ok (at_sign background ++ tag).
Proof.
  intros t.
  destruct (decimal_field_chars _ Hfields) as [Hdigits Hparam].
  change (lit ";") with [";"%char] in Hparam; rewrite join_split_on in Hparam.
  destruct (decimal_fields_head tag Hfields) as (d & rest & Htag & Hd).
  assert (Hchars : forallb color_char tag = true).
  { rewrite forallb_forall in Hparam |- *.
    intros ch Hch; apply param_color_char, Hparam, Hch. }
  assert (Hat : startswith tag (lit "@") = false
                /\ startswith tag (lit "#") = false).
  { subst tag; cbn [startswith lit list_ascii_of_string].
    revert Hd; clear; destruct d as [[] [] [] [] [] [] [] []];
      vm_compute; intros H; try discriminate H; split; reflexivity. }
  destruct Hat as [Hat Hsharp].
  split.
  - now apply tag_token_color.
  - unfold t; rewrite to_name_color, Hdigits; cbn [negb].
    pose proof (split_on_not_nil ";" tag) as Hne.
    unfold semicolon_parts.
    destruct (split_on ";" tag) as [|f fs] eqn:Hsplit; [congruence|].
    cbn [hd forallb] in *.
    apply andb_true_iff in Hfields as [Hf _].
    unfold decimal_field in Hf; apply andb_true_iff in Hf as [Hne' Hdec].
    assert (Hint : exists n, int_of_str f = Ok n).
    { unfold int_of_str; rewrite Hdec; destruct f; [discriminate|eauto]. }
    destruct Hint as [n Hn]; rewrite Hn; cbn [bind].
    destruct fs as [|g fs]; [|reflexivity].
    assert (Hf : tag = f).
    { rewrite <- (join_split_on ";" tag), Hsplit; reflexivity. }
    subst f; rewrite (Hvalue n Hn); reflexivity.
Qed.

Lemma numeric_color_tag_round_trip_witness :
  let tag := lit "18;218;168" in
  forallb decimal_field (split_on ";" tag) = true
  /\ dict_mem base_names tag = false
  /\ tag_token base_names hex_translator (lit "[@18;218;168]") 0 13
       (lit "@18;218;168")
     = Ok (mkToken 0 13 None (Some (lit "48;2;18;218;168"))
             (Some BACKGROUND_COLOR))
  /\ to_name base_names
       (mkToken 0 13 None (Some (lit "48;2;18;218;168"))
          (Some BACKGROUND_COLOR))
     = Ok (lit "@18;218;168").
Proof.
  split; [reflexivity|]; split; [reflexivity|].
  exact (numeric_color_tag_round_trip base_names hex_translator
           (lit "[@18;218;168]") 0 13 (lit "18;218;168") true
           eq_refl eq_refl
           (fun n (H : int_of_str (lit "18;218;168") = Ok n) =>
              match H in (_ = r)
                    return (match r with
                            | Ok _ => _
                            | Raise _ => True
                            end)
              with eq_refl => I end)).
Defined.

(** X10: the markup tokenizer accepts as a colour any tag of colour
    characters that is no registered name and begins with neither an at
    sign nor a sharp sign, even when a field of the tag is no number, as in
    a tag of hex letters: the token has a code that [to_name] rejects with
    the SyntaxError for a non-digit. *)
Theorem non_numeric_color_tag_has_no_name (names : list (str * nat))
    (translate_hex : str -> option (list nat)) (text : str)
    (start end_ : nat) (tag : str) (background : bool)
    (Hchars : forallb color_char tag = true)
    (Hat : startswith tag (lit "@") = false)
    (Hsharp : startswith tag (lit "#") = false)
    (Hname : dict_mem names tag = false)
    (Hfield : forallb isdigit (split_on ";" tag) = false) :
  let t := mkToken start end_ None
             (Some (color_layer background ++ color_depth tag ++ tag))
             (Some (color_attribute background)) in
  tag_token names translate_hex text start end_ (at_sign background ++ tag)
  = Ok t
  /\ to_name names t = Raise SyntaxError_non_digit
  /\ is_SyntaxError SyntaxError_non_digit = true.
Proof.
  intros t; split; [now apply tag_token_color|].
  split; [|reflexivity].
  unfold t; now rewrite to_name_color, Hfield.
Qed.

Lemma non_numeric_color_tag_has_no_name_witness :
  let tag := lit "abc" in
  forallb color_char tag = true
  /\ startswith tag (lit "@") = false
  /\ startswith tag (lit "#") = false
  /\ dict_mem base_names tag = false
  /\ forallb isdigit (split_on ";" tag) = false
  /\ tag_token base_names hex_translator (lit "[abc]x") 0 5 (lit "abc")
     = Ok (mkToken 0 5 None (Some (lit "38;5;abc")) (Some COLOR))
  /\ to_name base_names (mkToken 0 5 None (Some (lit "38;5;abc")) (Some COLOR))
     = Raise SyntaxError_non_digit.
Proof.
  do 5 (split; [reflexivity|]).
  pose proof (non_numeric_color_tag_has_no_name base_names hex_translator
                (lit "[abc]x") 0 5 (lit "abc") false
                eq_refl eq_refl eq_refl eq_refl eq_refl) as (H1 & H2 & _).
  split; [exact H1 | exact H2].
Defined.

(** ** Operating system commands *)

Lemma lazy_until_st_payload (payload rest : str) :
  forallb (fun ch => negb (Ascii.eqb ch esc) && negb (Ascii.eqb ch newline))
    payload = true ->
  lazy_until_st (payload ++ esc :: backslash :: rest) = Some payload.
Proof.
  induction payload as [|ch payload IH]; intros H.
  - cbn [app lazy_until_st startswith].
    now rewrite !Ascii.eqb_refl.
  - cbn [forallb] in H; apply andb_true_iff in H as [Hch Hp].
    apply andb_true_iff in Hch as [He Hn].
    apply negb_true_iff in He, Hn.
    cbn [app lazy_until_st startswith].
    rewrite (Ascii.eqb_sym esc ch), He, Hn; cbn [andb].
    now rewrite (IH Hp).
Qed.

Lemma tokenize_ansi_osc (pre payload rest : str) :
  esc_free pre = true ->
  forallb (fun ch => negb (Ascii.eqb ch esc) && negb (Ascii.eqb ch newline))
    payload = true ->
  tokenize_ansi (pre ++ esc :: "]"%char :: payload ++ esc :: backslash :: rest)
  = (match pre with
     | [] => []
     | _ :: _ =>
         [mkToken (length pre) (length pre + (2 + length payload + 2))
            (Some pre) None None]
     end, Some AttributeError).
Proof.
  intros Hpre Hpayload; unfold tokenize_ansi, finditer.
  rewrite (finditer_from_esc_free pre _ 0 Hpre); cbn [Nat.add].
  assert (Hre : RE_ANSI (esc :: "]"%char
                           :: payload ++ esc :: backslash :: rest)
                = Some (2 + length payload + 2, (None, Some payload))).
  { unfold RE_ANSI.
    change ((esc =? esc)%char && ("]" =? "[")%char) with false.
    change ((esc =? esc)%char && ("]" =? "]")%char) with true.
    cbv iota; now rewrite (lazy_until_st_payload payload rest Hpayload). }
  rewrite (finditer_from_match _ RE_ANSI esc _ (length pre) _ _ Hre).
  cbn [tokenize_ansi_loop].
  pose proof (slice_middle [] pre
                (esc :: "]"%char :: payload ++ esc :: backslash :: rest))
    as Hslice.
  cbn [app length Nat.add] in Hslice; rewrite Hslice.
  destruct pre as [|ch pre]; reflexivity.
Qed.

(** X11: a string in which an operating system command (ESC, a closing
    bracket, a payload, ESC and a backslash) comes after text without ESC
    makes [tokenize_ansi] raise an AttributeError once the text is
    yielded: the grammar matches the command, and the tokenizer then reads
    the SGR group, which is absent.  [optimize_ansi] and [ansi_to_markup]
    raise it on such a string. *)
Theorem osc_sequence_raises (names : list (str * nat))
    (pre payload rest : str)
    (Hpre : esc_free pre = true)
    (Hpayload :
       forallb (fun ch => negb (Ascii.eqb ch esc)
                          && negb (Ascii.eqb ch newline)) payload = true) :
  let text :=
    pre ++ esc :: "]"%char :: payload ++ esc :: backslash :: rest in
  snd (tokenize_ansi text) = Some AttributeError
  /\ map plain (fst (tokenize_ansi text))
     = match pre with [] => [] | _ :: _ => [Some pre] end
  /\ optimize_ansi names text = Raise AttributeError
  /\ forall no_duplicates ensure_reset,
       ansi_to_markup names text no_duplicates ensure_reset
       = Raise AttributeError.
Proof.
  intros text; unfold text.
  split; [now rewrite tokenize_ansi_osc|].
  split; [rewrite tokenize_ansi_osc by assumption; now destruct pre|].
  split.
  - unfold optimize_ansi, for_each.
    rewrite tokenize_ansi_osc by assumption.
    destruct pre; reflexivity.
  - intros no_duplicates ensure_reset; unfold ansi_to_markup, for_each.
    match goal with
    | |- context [tokenize_ansi ?a] =>
        assert (Ha : exists rest',
                   a = pre ++ esc :: "]"%char
                         :: payload ++ esc :: backslash :: rest')
    end.
    { destruct (ensure_reset && negb _); [|now exists rest].
      exists (rest ++ reset).
      rewrite <- app_assoc; cbn [app]; now rewrite <- app_assoc. }
    destruct Ha as [rest' ->].
    rewrite tokenize_ansi_osc by assumption.
    destruct pre; reflexivity.
Qed.

Lemma osc_sequence_raises_witness :
  let text := lit "see " ++ esc :: lit "]8;;http://x" ++ esc :: backslash
              :: lit "link" in
  esc_free (lit "see ") = true
  /\ snd (tokenize_ansi text) = Some AttributeError
  /\ optimize_ansi base_names text = Raise AttributeError.
Proof.
  split; [reflexivity|].
  pose proof (osc_sequence_raises base_names (lit "see ") (lit "8;;http://x")
                (lit "link") eq_refl eq_refl) as (H1 & _ & H3 & _).
  split; [exact H1 | exact H3].
Defined.

(** ** Text without escape sequences *)

Lemma startswith_inv (p : str) :
  forall s, startswith s p = true -> exists r, s = p ++ r.
Proof.
  induction p as [|c p IH]; intros s H; [now exists s|].
  destruct s as [|d s]; [discriminate|].
  cbn [startswith] in H; apply andb_true_iff in H as [Hc Hs].
  apply Ascii.eqb_eq in Hc; subst d.
  destruct (IH s Hs) as [r ->]; now exists r.
Qed.

Lemma esc_free_not_endswith_reset (s : str) :
  esc_free s = true -> endswith s reset = false.
Proof.
  intros Hs; destruct (endswith s reset) eqn:He; [|reflexivity].
  unfold endswith in He; apply startswith_inv in He as [r Hr].
  apply (f_equal (@rev ascii)) in Hr.
  rewrite rev_involutive, rev_app_distr, rev_involutive in Hr; subst s.
  unfold esc_free in Hs; rewrite forallb_app in Hs.
  apply andb_true_iff in Hs as [_ Hs]; discriminate Hs.
Qed.

Lemma ansi_to_markup_body_content (names : list (str * nat))
    (s : markup_state) (t : Token) (p : content) :
  content_of t = Some p ->
  ansi_to_markup_body names s t = ansi_to_markup_content names s p.
Proof.
  unfold content_of, ansi_to_markup_body, ansi_to_markup_content, to_name.
  destruct (plain t) as [q|] eqn:Hp, (code t) as [c|] eqn:Hc;
    intros [= <-]; cbn [plain code bind]; reflexivity.
Qed.

Lemma for_tokens_markup_contents (names : list (str * nat))
    (toks : list Token) :
  forall (ps : list content) (s : markup_state),
    map content_of toks = map Some ps ->
    for_tokens (ansi_to_markup_body names) toks s
    = fold_left (fun r p => s' <- r ;; ansi_to_markup_content names s' p)
        ps (Ok s).
Proof.
  induction toks as [|t toks IH]; intros [|p ps] s H; try discriminate H.
  - reflexivity.
  - cbn [map] in H; injection H as Ht Htoks.
    cbn [for_tokens fold_left bind].
    rewrite (ansi_to_markup_body_content names s t p Ht).
    destruct (ansi_to_markup_content names s p) as [s'|e]; cbn [bind].
    + now apply IH.
    + clear; induction ps as [|q ps IH]; [reflexivity | exact IH].
Qed.

(** [ansi_to_markup] on a rendered sequence of pieces, once the reset is
    ensured. *)
Lemma ansi_to_markup_render (names : list (str * nat)) (ps : list content)
    (no_duplicates : bool) :
  forallb piece_ok ps = true ->
  ansi_to_markup names (render ps) no_duplicates false
  = s <- fold_left
           (fun r p => s' <- r ;; ansi_to_markup_content names s' p)
           (lex [] None ps) (Ok (mkMarkup [] false [])) ;;
    Ok (if 0 <? length (current_bracket s)
        then markup s ++ bracketed (current_bracket s)
        else markup s).
Proof.
  intros Hps.
  destruct (tokenize_ansi_render ps Hps) as [toks [Htoks Hmap]].
  unfold ansi_to_markup, for_each; cbn [andb].
  rewrite Htoks; cbn [fst snd].
  rewrite (for_tokens_markup_contents names toks _ _ Hmap).
  destruct (fold_left _ _ _); reflexivity.
Qed.

Lemma ansi_to_markup_ensures_reset (names : list (str * nat)) (ansi : str)
    (no_duplicates : bool) :
  ansi_to_markup names ansi no_duplicates true
  = ansi_to_markup names
      (if endswith ansi reset then ansi else ansi ++ reset)
      no_duplicates false.
Proof.
  unfold ansi_to_markup; cbn [andb].
  destruct (endswith ansi reset); reflexivity.
Qed.

Lemma replace_first_nonempty (c : ascii) (r s : str) :
  s <> [] -> r <> [] -> replace_first c r s <> [].
Proof.
  destruct s as [|d s]; [congruence|]; intros _ Hr; cbn [replace_first].
  destruct (Ascii.eqb d c); [|discriminate].
  destruct r; [congruence | discriminate].
Qed.

(** [ansi_to_markup] on a text without ESC, the reset being ensured. *)
Lemma esc_free_text_to_markup (names : list (str * nat)) (text : str)
    (no_duplicates : bool) (Htext : esc_free text = true) :
  ansi_to_markup names text no_duplicates true
  = Ok (match text with
        | [] => []
        | _ :: _ =>
            replace_first "[" [backslash; "["%char] text ++ lit "[/]"
        end).
Proof.
  assert (Hps0 : forallb piece_ok [Text text; Sgr (lit "0")] = true)
    by (cbn [forallb piece_ok]; now rewrite Htext).
  assert (Hrender0 : render [Text text; Sgr (lit "0")] = text ++ reset)
    by (unfold render; cbn [map concat render_content];
        now rewrite app_nil_r).
  rewrite ansi_to_markup_ensures_reset.
  rewrite (esc_free_not_endswith_reset _ Htext), <- Hrender0.
  rewrite (ansi_to_markup_render names _ no_duplicates Hps0).
  cbn [lex app]; destruct text as [|ch text]; [reflexivity|].
  cbn [lex opt_str_eqb fold_left bind ansi_to_markup_content
       in_attr current_bracket markup andb app].
  change (str_eqb (lit "0") (lit "0")) with true; cbv iota.
  cbn [bind current_bracket markup].
  pose proof (replace_first_nonempty "[" [backslash; "["%char]
                (ch :: text)) as Hne.
  destruct (replace_first "[" [backslash; "["%char] (ch :: text))
    as [|d r] eqn:Hr.
  - exfalso; apply Hne; [discriminate | discriminate | reflexivity].
  - reflexivity.
Qed.

(** X12: a text without the ESC character is one text token for
    [tokenize_ansi]; [optimize_ansi] returns it with the reset sequence
    after it; [ansi_to_markup] returns it with a backslash before its first
    opening bracket and before no other, followed by the closing tag when
    the reset is ensured and the text is not empty. *)
Theorem text_without_escapes (names : list (str * nat)) (text : str)
    (no_duplicates : bool) (Htext : esc_free text = true) :
  snd (tokenize_ansi text) = None
  /\ map content_of (fst (tokenize_ansi text))
     = match text with [] => [] | _ :: _ => [Some (Text text)] end
  /\ optimize_ansi names text = Ok (text ++ reset)
  /\ ansi_to_markup names text no_duplicates false
     = Ok (replace_first "[" [backslash; "["%char] text)
  /\ ansi_to_markup names text no_duplicates true
     = Ok (match text with
           | [] => []
           | _ :: _ =>
               replace_first "[" [backslash; "["%char] text ++ lit "[/]"
           end).
Proof.
  assert (Hps : forallb piece_ok [Text text] = true)
    by (cbn [forallb piece_ok]; now rewrite Htext).
  assert (Hrender : render [Text text] = text) by apply app_nil_r.
  split; [|split; [|split; [|split]]].
  - destruct (tokenize_ansi_render _ Hps) as [toks [Htoks _]].
    now rewrite Hrender in Htoks; rewrite Htoks.
  - destruct (tokenize_ansi_render _ Hps) as [toks [Htoks Hmap]].
    rewrite Hrender in Htoks; rewrite Htoks; cbn [fst].
    rewrite Hmap; cbn [lex app]; now destruct text.
  - rewrite <- Hrender at 1; rewrite (optimize_ansi_render names _ Hps).
    cbn [lex app]; unfold ensure_reset_at_end.
    destruct text as [|ch text]; [reflexivity|].
    cbn [fold_left optimize_content out sequence previous_sequence
         opt_str_eqb negb app].
    now rewrite (esc_free_not_endswith_reset _ Htext).
  - rewrite <- Hrender at 1.
    rewrite (ansi_to_markup_render names _ no_duplicates Hps).
    cbn [lex app]; destruct text as [|ch text]; reflexivity.
  - now apply esc_free_text_to_markup.
Qed.

Lemma text_without_escapes_witness :
  esc_free (lit "a[b][c]") = true
  /\ optimize_ansi base_names (lit "a[b][c]") = Ok (lit "a[b][c]" ++ reset)
  /\ ansi_to_markup base_names (lit "a[b][c]") false true
     = Ok (lit "a" ++ backslash :: lit "[b][c][/]").
Proof.
  split; [reflexivity|].
  pose proof (text_without_escapes base_names (lit "a[b][c]") false eq_refl)
    as (_ & _ & H3 & _ & H5).
  split; [exact H3 | exact H5].
Defined.

(** ** Text without brackets *)

Lemma RE_TAGS_plain (c : ascii) (s : str) :
  negb (Ascii.eqb c "[") && negb (Ascii.eqb c backslash) = true ->
  RE_TAGS (c :: s) = None.
Proof.
  intros H; apply andb_true_iff in H as [Hb Hs].
  apply negb_true_iff in Hb, Hs.
  unfold RE_TAGS; cbn [span_backslashes]; rewrite Hs.
  destruct s; [reflexivity|]; now rewrite Hb.
Qed.

Lemma finditer_from_bracket_free (s r : str) (pos : nat) :
  bracket_free s = true ->
  finditer_from RE_TAGS 0 pos (s ++ r)
  = finditer_from RE_TAGS 0 (pos + length s) r.
Proof.
  revert pos; induction s as [|c s IH]; intros pos H.
  - cbn [app length]; now rewrite Nat.add_0_r.
  - cbn [bracket_free forallb] in H; apply andb_true_iff in H as [Hc Hs].
    cbn [app finditer_from length].
    rewrite (RE_TAGS_plain c (s ++ r) Hc), (IH (S pos) Hs).
    f_equal; lia.
Qed.

Lemma replace_first_bracket_free (s : str) :
  bracket_free s = true -> replace_first "[" [backslash; "["%char] s = s.
Proof.
  induction s as [|c s IH]; intros H; [reflexivity|].
  cbn [bracket_free forallb] in H; apply andb_true_iff in H as [Hc Hs].
  apply andb_true_iff in Hc as [Hc _]; apply negb_true_iff in Hc.
  cbn [replace_first]; rewrite Hc; f_equal; now apply IH.
Qed.

Section PlainMarkup.

Variable names : list (str * nat).
Variable translate_hex : str -> option (list nat).

Lemma tokenize_markup_bracket_free (text : str) :
  bracket_free text = true ->
  tokenize_markup names translate_hex text
  = (match text with
     | [] => []
     | _ :: _ => [mkToken 0 0 (Some text) None None]
     end, None).
Proof.
  intros H; unfold tokenize_markup, finditer.
  rewrite <- (app_nil_r text) at 2.
  rewrite (finditer_from_bracket_free text [] 0 H).
  cbn [finditer_from tokenize_markup_loop].
  destruct text as [|c text]; reflexivity.
Qed.

Lemma tokenize_markup_closed_text (c : ascii) (text : str) :
  bracket_free (c :: text) = true ->
  tokenize_markup names translate_hex ((c :: text) ++ lit "[/]")
  = ([mkToken (length (c :: text)) (length (c :: text) + 3)
        (Some (c :: text)) None None;
      mkToken (length (c :: text)) (length (c :: text) + 3)
        None (Some (lit "0")) (Some CLEAR)], None).
Proof.
  intros H; unfold tokenize_markup, finditer.
  rewrite (finditer_from_bracket_free (c :: text) (lit "[/]") 0 H).
  set (n := length (c :: text)); cbn [Nat.add].
  assert (Hre : RE_TAGS (lit "[/]")
                = Some (3, (lit "[/]", @nil ascii, lit "/")))
    by reflexivity.
  change (finditer_from RE_TAGS 0 n (lit "[/]"))
    with (finditer_from RE_TAGS 0 n ("["%char :: lit "/]")).
  rewrite (finditer_from_match _ RE_TAGS "["%char (lit "/]") n _ _ Hre).
  cbn [Nat.pred finditer_from tokenize_markup_loop str_eqb negb].
  change (split_ws (lit "/")) with [lit "/"].
  cbn [tokenize_tags].
  assert (Htag : forall s, tag_token names translate_hex s n (n + 3) (lit "/")
                 = Ok (mkToken n (n + 3) None (Some (lit "0")) (Some CLEAR)))
    by reflexivity.
  rewrite Htag.
  assert (Hslice : slice ((c :: text) ++ lit "[/]") 0 n = c :: text)
    by exact (slice_middle [] (c :: text) (lit "[/]")).
  rewrite Hslice.
  change (finditer_from RE_TAGS 2 (S n) (lit "/]"))
    with (@nil (nat * nat * (str * str * str))).
  cbn [tokenize_markup_loop].
  replace (0 <? n) with true by reflexivity.
  replace (n + 3 <? length ((c :: text) ++ lit "[/]")) with false.
  - reflexivity.
  - symmetry; apply Nat.ltb_ge.
    unfold n; rewrite length_app; cbn [length lit list_ascii_of_string]; lia.
Qed.

End PlainMarkup.

(** X13: a text that is not empty and has no ESC, no opening bracket and no
    backslash goes through the converters with nothing but the closing tag
    and the reset added: [markup_to_ansi] returns it followed by the reset
    sequence, [ansi_to_markup] of that, and of the text itself, is the text
    followed by the closing tag, and [markup_to_ansi] of the latter is the
    text followed by the reset sequence again. *)
Theorem plain_text_round_trip (names : list (str * nat))
    (translate_hex : str -> option (list nat)) (text : str)
    (ensure_optimized no_duplicates : bool)
    (Hnonempty : nonempty text = true)
    (Hesc : esc_free text = true)
    (Hbracket : bracket_free text = true) :
  markup_to_ansi names translate_hex text true ensure_optimized
  = Ok (text ++ reset)
  /\ ansi_to_markup names (text ++ reset) no_duplicates true
     = Ok (text ++ lit "[/]")
  /\ ansi_to_markup names text no_duplicates true = Ok (text ++ lit "[/]")
  /\ markup_to_ansi names translate_hex (text ++ lit "[/]") true
       ensure_optimized
     = Ok (text ++ reset).
Proof.
  destruct text as [|c text]; [discriminate Hnonempty|].
  pose proof (esc_free_text_to_markup names (c :: text) no_duplicates Hesc)
    as Hmarkup.
  rewrite (replace_first_bracket_free _ Hbracket) in Hmarkup.
  assert (Hps0 : forallb piece_ok [Text (c :: text); Sgr (lit "0")] = true)
    by (cbn [forallb piece_ok]; now rewrite Hesc).
  assert (Hrender0 : render [Text (c :: text); Sgr (lit "0")]
                     = (c :: text) ++ reset)
    by (unfold render; cbn [map concat render_content];
        now rewrite app_nil_r).
  assert (Hopt0 : optimize_ansi names ((c :: text) ++ reset)
                  = Ok ((c :: text) ++ reset)).
  { rewrite <- Hrender0, (optimize_ansi_render names _ Hps0).
    cbn [lex app opt_str_eqb fold_left optimize_content out sequence
         previous_sequence negb].
    change (str_eqb (lit "0") (lit "0")) with true; cbv iota.
    cbn [out sequence length Nat.ltb Nat.leb app].
    unfold ensure_reset_at_end.
    now rewrite (esc_free_not_endswith_reset _ Hesc). }
  split; [|split; [|split]].
  - unfold markup_to_ansi, for_each.
    rewrite (tokenize_markup_bracket_free names translate_hex _ Hbracket).
    cbn [fst snd for_tokens markup_to_ansi_body to_sequence code plain bind
         app andb].
    rewrite (esc_free_not_endswith_reset _ Hesc); cbn [negb].
    destruct ensure_optimized; [exact Hopt0 | reflexivity].
  - rewrite ansi_to_markup_ensures_reset, endswith_app.
    rewrite <- Hrender0.
    rewrite (ansi_to_markup_render names _ no_duplicates Hps0).
    rewrite ansi_to_markup_ensures_reset in Hmarkup.
    rewrite (esc_free_not_endswith_reset _ Hesc), <- Hrender0 in Hmarkup.
    rewrite (ansi_to_markup_render names _ no_duplicates Hps0) in Hmarkup.
    exact Hmarkup.
  - exact Hmarkup.
  - unfold markup_to_ansi, for_each.
    rewrite (tokenize_markup_closed_text names translate_hex c text Hbracket).
    cbn [fst snd for_tokens markup_to_ansi_body to_sequence code plain bind
         app andb].
    change (esc :: lit "[" ++ lit "0" ++ lit "m") with reset.
    change (c :: text ++ reset) with ((c :: text) ++ reset).
    rewrite endswith_app; cbn [negb].
    destruct ensure_optimized; [exact Hopt0 | reflexivity].
Qed.

Lemma plain_text_round_trip_witness :
  let text := lit "hello, world" in
  nonempty text = true /\ esc_free text = true /\ bracket_free text = true
  /\ markup_to_ansi base_names hex_translator text true true
     = Ok (text ++ reset)
  /\ ansi_to_markup base_names (text ++ reset) false true
     = Ok (text ++ lit "[/]")
  /\ markup_to_ansi base_names hex_translator (text ++ lit "[/]") true true
     = Ok (text ++ reset).
Proof.
  do 3 (split; [reflexivity|]).
  pose proof (plain_text_round_trip base_names hex_translator
                (lit "hello, world") true false eq_refl eq_refl eq_refl)
    as (H1 & H2 & _ & H4).
  split; [exact H1|]; split; [exact H2 | exact H4].
Defined.

(** ** What the optimizer keeps and what it drops *)

Lemma optimize_ansi_style_segments (names : list (str * nat))
    (segs : list segment) (trailing : list str) :
  segments_ok segs = true ->
  forallb style_param trailing = true ->
  optimize_ansi names (render (flat segs trailing))
  = Ok (ensure_reset_at_end (optimized None (map dedup_segment segs))).
Proof.
  intros Hsegs Htrailing.
  destruct (segments_ok_good segs Hsegs)
    as (Hgood & Hcoded & Htext & Htl & Hnumeric).
  rewrite optimize_ansi_render
    by (apply flat_piece_ok;
        [exact Hnumeric | now apply style_params_numeric]).
  rewrite (good_segments_lex segs trailing Htext Htl).
  rewrite out_flat; [reflexivity| |].
  - eapply Forall_impl; [|exact Hgood]. now intros g (Hs & _).
  - left; now apply dedup_from_style.
Qed.

Lemma segments_from_segments_ok (ps : list content) :
  forallb style_piece ps = true ->
  segments_ok (fst (segments_from [] [] ps)) = true
  /\ forallb style_param (snd (segments_from [] [] ps)) = true
  /\ render (flat (fst (segments_from [] [] ps))
               (snd (segments_from [] [] ps))) = render ps.
Proof.
  intros Hps.
  destruct (segments_from_ok ps [] [] Hps eq_refl eq_refl)
    as (Hok & Hcoded & _ & Htrailing).
  split; [|split; [exact Htrailing | apply (segments_from_render ps [] [])]].
  unfold segments_ok; apply andb_true_iff; split;
    now apply forallb_Forall_iff.
Qed.

Lemma optimize_ansi_style_pieces (names : list (str * nat))
    (ps : list content) :
  forallb style_piece ps = true ->
  optimize_ansi names (render ps)
  = Ok (ensure_reset_at_end
          (optimized None
             (map dedup_segment (fst (segments_from [] [] ps))))).
Proof.
  intros Hps.
  destruct (segments_from_segments_ok ps Hps) as (Hok & Htrailing & Hrender).
  rewrite <- Hrender.
  now apply optimize_ansi_style_segments.
Qed.

Lemma segments_from_codes (cs : list str) :
  forall codes text,
    fst (segments_from codes text (map Sgr cs))
    = match text with [] => [] | _ :: _ => [(codes, text)] end.
Proof.
  induction cs as [|c cs IH]; intros codes text; cbn [map segments_from].
  - now destruct text.
  - destruct text as [|ch text]; [apply IH|].
    specialize (IH [c] []).
    destruct (segments_from [c] [] (map Sgr cs)) as [segs trailing].
    cbn [fst] in *; now rewrite IH.
Qed.

Lemma segments_from_app_codes (cs : list str) (ps : list content) :
  forall codes text,
    fst (segments_from codes text (ps ++ map Sgr cs))
    = fst (segments_from codes text ps).
Proof.
  induction ps as [|[s|c] ps IH]; intros codes text;
    cbn [app segments_from].
  - rewrite segments_from_codes; now destruct text.
  - apply IH.
  - destruct text as [|ch text]; [apply IH|].
    specialize (IH [c] []).
    destruct (segments_from [c] [] (ps ++ map Sgr cs)) as [segs trailing].
    destruct (segments_from [c] [] ps) as [segs' trailing'].
    cbn [fst] in *; now rewrite IH.
Qed.

(** X14: the SGR sequences that follow the last text of a string are
    dropped by [optimize_ansi]: on a string of style sequences and text
    without ESC, adding style sequences at the end does not change the
    result. *)
Theorem optimize_ansi_drops_trailing_codes (names : list (str * nat))
    (ps : list content) (cs : list str)
    (Hps : forallb style_piece ps = true)
    (Hcs : forallb style_param cs = true) :
  optimize_ansi names (render ps ++ render_codes cs)
  = optimize_ansi names (render ps).
Proof.
  assert (Hall : forallb style_piece (ps ++ map Sgr cs) = true).
  { rewrite forallb_app, Hps; cbn [andb].
    rewrite forallb_forall in Hcs |- *.
    intros p Hp; apply in_map_iff in Hp as [c [<- Hc]]; cbn; auto. }
  rewrite <- render_map_Sgr, <- render_app.
  rewrite (optimize_ansi_style_pieces names _ Hall).
  rewrite (optimize_ansi_style_pieces names _ Hps).
  now rewrite segments_from_app_codes.
Qed.

Lemma optimize_ansi_drops_trailing_codes_witness :
  let ps := [Sgr (lit "1"); Text (lit "hi")] in
  let cs := [lit "3"; lit "38;5;141"] in
  forallb style_piece ps = true /\ forallb style_param cs = true
  /\ optimize_ansi base_names (render ps ++ render_codes cs)
     = optimize_ansi base_names (render ps).
Proof.
  split; [reflexivity|]; split; [reflexivity|].
  exact (optimize_ansi_drops_trailing_codes base_names
           [Sgr (lit "1"); Text (lit "hi")] [lit "3"; lit "38;5;141"]
           eq_refl eq_refl).
Defined.

Lemma token_text_contents (toks : list Token) :
  forall ps,
    map content_of toks = map Some ps -> token_text toks = piece_text ps.
Proof.
  unfold token_text, piece_text.
  induction toks as [|t toks IH]; intros [|p ps] H; try discriminate H;
    [reflexivity|].
  cbn [map] in H; injection H as Ht Htoks.
  cbn [map concat]; rewrite (IH ps Htoks); f_equal.
  unfold content_of in Ht.
  destruct (plain t), (code t), p; try discriminate Ht;
    now injection Ht as ->.
Qed.

Lemma piece_text_app (ps qs : list content) :
  piece_text (ps ++ qs) = piece_text ps ++ piece_text qs.
Proof. unfold piece_text; now rewrite map_app, concat_app. Qed.

Lemma piece_text_lex (ps : list content) :
  forall pending previous,
    piece_text (lex pending previous ps) = pending ++ piece_text ps.
Proof.
  induction ps as [|[s|c] ps IH]; intros pending previous; cbn [lex].
  - destruct pending; cbn; now rewrite ?app_nil_r.
  - rewrite IH; change (piece_text (Text s :: ps)) with (s ++ piece_text ps).
    now rewrite app_assoc.
  - change (piece_text (Sgr c :: ps)) with (piece_text ps).
    destruct pending as [|ch pending].
    + destruct (opt_str_eqb previous (Some c)); [apply IH|].
      change (piece_text (Sgr c :: lex [] (Some c) ps))
        with (piece_text (lex [] (Some c) ps)).
      apply IH.
    + change (piece_text (Text (ch :: pending) :: Sgr c
                            :: lex [] (Some c) ps))
        with ((ch :: pending) ++ piece_text (lex [] (Some c) ps)).
      now rewrite IH.
Qed.

Lemma piece_text_flat (segs : list segment) (trailing : list str) :
  piece_text (flat segs trailing) = concat (map snd segs).
Proof.
  induction segs as [|[cs t] segs IH].
  - unfold flat; cbn [map concat app]; unfold piece_text.
    induction trailing as [|c trailing IH]; [reflexivity | exact IH].
  - rewrite flat_cons, piece_text_app.
    change (piece_text (Text t :: flat segs trailing))
      with (t ++ piece_text (flat segs trailing)).
    rewrite IH; cbn [map concat snd].
    replace (piece_text (map Sgr cs)) with (@nil ascii); [reflexivity|].
    unfold piece_text; clear; induction cs as [|c cs IH];
      [reflexivity | exact IH].
Qed.

Lemma merge_into_text (segs : list segment) :
  forall cur,
    concat (map snd (merge_into cur segs))
    = snd cur ++ concat (map snd segs).
Proof.
  induction segs as [|g segs IH]; intros cur; cbn [merge_into].
  - reflexivity.
  - destruct (str_eqb (render_codes (fst cur)) (render_codes (fst g))).
    + rewrite IH; cbn [snd map concat]; now rewrite app_assoc.
    + cbn [map concat]; now rewrite IH.
Qed.

Lemma merge_text (segs : list segment) :
  concat (map snd (merge segs)) = concat (map snd segs).
Proof. destruct segs; [reflexivity | apply merge_into_text]. Qed.

Lemma segments_from_text (ps : list content) :
  forall codes text,
    concat (map snd (fst (segments_from codes text ps)))
    = text ++ piece_text ps.
Proof.
  induction ps as [|[s|c] ps IH]; intros codes text; cbn [segments_from].
  - destruct text; cbn; now rewrite ?app_nil_r.
  - rewrite IH; change (piece_text (Text s :: ps)) with (s ++ piece_text ps).
    now rewrite app_assoc.
  - change (piece_text (Sgr c :: ps)) with (piece_text ps).
    destruct text as [|ch text]; [apply IH|].
    specialize (IH [c] []).
    destruct (segments_from [c] [] ps) as [segs trailing].
    cbn [fst map concat snd] in *; now rewrite IH.
Qed.

(** X15: [optimize_ansi] leaves the text of a string as it is: on a string
    of style sequences and text without ESC, the text tokens of the result
    hold, in order, the text of the string. *)
Theorem optimize_ansi_keeps_text (names : list (str * nat))
    (ps : list content) (Hps : forallb style_piece ps = true) :
  exists y,
    optimize_ansi names (render ps) = Ok y
    /\ snd (tokenize_ansi y) = None
    /\ token_text (fst (tokenize_ansi y)) = piece_text ps
    /\ token_text (fst (tokenize_ansi (render ps))) = piece_text ps.
Proof.
  destruct (segments_from_segments_ok ps Hps) as (Hok & Htrailing & Hrender).
  destruct (segments_ok_good _ Hok) as (Hgood & Hcoded & _ & _ & _).
  set (S := map dedup_segment (fst (segments_from [] [] ps))) in *.
  destruct (merge_good S Hgood Hcoded) as [Mgood Mcoded].
  assert (Hnum : Forall (fun g => forallb numeric_param (fst g) = true
                                  /\ esc_free (snd g) = true) (merge S)).
  { eapply Forall_impl; [|exact Mgood].
    intros g (Hs & _ & He & _); split;
      [now apply style_params_numeric | exact He]. }
  assert (Htext : concat (map snd (merge S)) = piece_text ps).
  { rewrite merge_text; unfold S; rewrite map_map; cbn [dedup_segment snd].
    apply (segments_from_text ps [] []). }
  assert (Hy : exists trailing,
             forallb numeric_param trailing = true
             /\ ensure_reset_at_end (optimized None S)
                = render (flat (merge S) trailing)).
  { unfold ensure_reset_at_end.
    destruct (endswith (optimized None S) reset); cbn [negb].
    - exists []; split; [reflexivity | apply optimized_merge].
    - exists [lit "0"]; split; [reflexivity|].
      rewrite render_flat_trailing, <- optimized_merge; reflexivity. }
  destruct Hy as (trailing & Htr & Hy).
  exists (ensure_reset_at_end (optimized None S)).
  split; [now apply optimize_ansi_style_pieces|].
  assert (Hpieces : forallb piece_ok ps = true).
  { rewrite forallb_forall in Hps |- *; intros p Hp; specialize (Hps p Hp).
    destruct p as [s|c]; [exact Hps|].
    cbn in Hps |- *; unfold style_param in Hps.
    now apply andb_true_iff in Hps as [Hps _]. }
  destruct (tokenize_ansi_render _ (flat_piece_ok _ _ Hnum Htr))
    as (toks & Htoks & Hmap).
  destruct (tokenize_ansi_render _ Hpieces) as (toks' & Htoks' & Hmap').
  rewrite Hy, Htoks, Htoks'; cbn [fst snd].
  split; [reflexivity|]; split.
  - rewrite (token_text_contents _ _ Hmap), piece_text_lex, piece_text_flat.
    exact Htext.
  - now rewrite (token_text_contents _ _ Hmap'), piece_text_lex.
Qed.

Lemma optimize_ansi_keeps_text_witness :
  let ps := [Sgr (lit "1"); Text (lit "a"); Sgr (lit "1"); Text (lit "b");
             Sgr (lit "3")] in
  forallb style_piece ps = true
  /\ exists y,
       optimize_ansi base_names (render ps) = Ok y
       /\ snd (tokenize_ansi y) = None
       /\ token_text (fst (tokenize_ansi y)) = lit "ab"
       /\ token_text (fst (tokenize_ansi (render ps))) = lit "ab".
Proof.
  split; [reflexivity|].
  exact (optimize_ansi_keeps_text base_names
           [Sgr (lit "1"); Text (lit "a"); Sgr (lit "1"); Text (lit "b");
            Sgr (lit "3")] eq_refl).
Defined.

(** ** Escaped brackets *)

Lemma span_backslashes_run (escapes rest : str) :
  forallb (Ascii.eqb backslash) escapes = true ->
  span_backslashes (escapes ++ "["%char :: rest)
  = (escapes, "["%char :: rest).
Proof.
  induction escapes as [|e escapes IH]; intros H; [reflexivity|].
  cbn [forallb] in H; apply andb_true_iff in H as [He Hes].
  apply Ascii.eqb_eq in He; subst e.
  cbn [app span_backslashes]; rewrite Ascii.eqb_refl.
  now rewrite (IH Hes).
Qed.

Lemma lazy_until_bracket_body (body rest : str) :
  forallb (fun ch => negb (Ascii.eqb ch "]") && negb (Ascii.eqb ch newline))
    body = true ->
  lazy_until_bracket (body ++ "]"%char :: rest) = Some body.
Proof.
  induction body as [|ch body IH]; intros H; [reflexivity|].
  cbn [forallb] in H; apply andb_true_iff in H as [Hch Hb].
  apply andb_true_iff in Hch as [H1 H2]; apply negb_true_iff in H1, H2.
  cbn [app lazy_until_bracket]; rewrite H1, H2.
  now rewrite (IH Hb).
Qed.

Lemma endswith_bracket (s : str) : endswith (s ++ lit "]") reset = false.
Proof. unfold endswith; rewrite rev_app_distr; reflexivity. Qed.

Lemma tokenize_markup_escaped_bracket (names : list (str * nat))
    (translate_hex : str -> option (list nat)) (escapes : str) (c : ascii)
    (body : str) :
  nonempty escapes = true ->
  forallb (Ascii.eqb backslash) escapes = true ->
  tag_first_char c = true ->
  forallb (fun ch => negb (Ascii.eqb ch "]") && negb (Ascii.eqb ch newline))
    body = true ->
  let bracket := lit "[" ++ (c :: body) ++ lit "]" in
  tokenize_markup names translate_hex (escapes ++ bracket)
  = ([mkToken 0 (length (escapes ++ bracket)) (Some bracket) None
        (Some ESCAPED)], None).
Proof.
  intros Hescapes Hbackslashes Hfirst Hbody bracket.
  assert (Hre : RE_TAGS (escapes ++ bracket)
                = Some (length (escapes ++ bracket),
                        (escapes ++ bracket, escapes, c :: body))).
  { unfold RE_TAGS, bracket.
    change (lit "[" ++ (c :: body) ++ lit "]")
      with ("["%char :: c :: body ++ lit "]").
    rewrite (span_backslashes_run escapes _ Hbackslashes).
    rewrite Hfirst; cbn [andb Ascii.eqb].
    change (("[" =? "[")%char) with true; cbv iota.
    change (body ++ lit "]") with (body ++ "]"%char :: []).
    now rewrite (lazy_until_bracket_body body [] Hbody). }
  unfold tokenize_markup, finditer.
  destruct escapes as [|e escapes]; [discriminate Hescapes|].
  change ((e :: escapes) ++ bracket) with (e :: (escapes ++ bracket)) in *.
  rewrite (finditer_from_match _ RE_TAGS e _ 0 _ _ Hre).
  cbn [length Nat.pred].
  assert (Hrest : finditer_from RE_TAGS (length (escapes ++ bracket)) 1
                    (escapes ++ bracket) = []).
  { pose proof (finditer_from_skip _ RE_TAGS (escapes ++ bracket) [] 1)
      as Hskip.
    now rewrite app_nil_r in Hskip. }
  rewrite Hrest.
  cbn [tokenize_markup_loop str_eqb negb Nat.add].
  change (0 <? 0) with false; cbv iota.
  change (e :: escapes ++ bracket) with ((e :: escapes) ++ bracket).
  rewrite skipn_prefix.
  change (length ((e :: escapes) ++ bracket))
    with (S (length (escapes ++ bracket))).
  now rewrite Nat.ltb_irrefl.
Qed.

(** X16: a bracket that one or more backslashes precede is never read as
    tags, whatever it holds: [tokenize_markup] yields one text token with
    the attribute [ESCAPED], whose text is the bracket without any of the
    backslashes, and raises nothing; [markup_to_ansi] without optimization
    returns that text and the reset sequence. *)
Theorem escaped_bracket_is_text (names : list (str * nat))
    (translate_hex : str -> option (list nat)) (escapes : str) (c : ascii)
    (body : str)
    (Hescapes : nonempty escapes = true)
    (Hbackslashes : forallb (Ascii.eqb backslash) escapes = true)
    (Hfirst : tag_first_char c = true)
    (Hbody :
       forallb (fun ch => negb (Ascii.eqb ch "]")
                          && negb (Ascii.eqb ch newline)) body = true) :
  let bracket := lit "[" ++ (c :: body) ++ lit "]" in
  tokenize_markup names translate_hex (escapes ++ bracket)
  = ([mkToken 0 (length (escapes ++ bracket)) (Some bracket) None
        (Some ESCAPED)], None)
  /\ markup_to_ansi names translate_hex (escapes ++ bracket) true false
     = Ok (bracket ++ reset).
Proof.
  intros bracket.
  pose proof (tokenize_markup_escaped_bracket names translate_hex escapes c
                body Hescapes Hbackslashes Hfirst Hbody) as Htok.
  cbv zeta in Htok; fold bracket in Htok.
  split; [exact Htok|].
  unfold markup_to_ansi, for_each; rewrite Htok.
  cbn [fst snd for_tokens markup_to_ansi_body to_sequence code plain bind
       app andb].
  unfold bracket at 1.
  change (lit "[" ++ (c :: body) ++ lit "]")
    with (("["%char :: c :: body) ++ lit "]").
  now rewrite endswith_bracket.
Qed.

Lemma escaped_bracket_is_text_witness :
  let escapes := [backslash; backslash] in
  nonempty escapes = true
  /\ forallb (Ascii.eqb backslash) escapes = true
  /\ tag_first_char "u" = true
  /\ tokenize_markup base_names hex_translator
       (escapes ++ lit "[unknown tag]")
     = ([mkToken 0 15 (Some (lit "[unknown tag]")) None (Some ESCAPED)],
        None)
  /\ markup_to_ansi base_names hex_translator
       (escapes ++ lit "[unknown tag]") true false
     = Ok (lit "[unknown tag]" ++ reset).
Proof.
  do 3 (split; [reflexivity|]).
  exact (escaped_bracket_is_text base_names hex_translator
           [backslash; backslash] "u" (lit "nknown tag")
           eq_refl eq_refl eq_refl eq_refl).
Defined.

(** ** Parameters that are numeric but not decimal *)

Lemma numeric_char_in_param (ch : ascii) :
  isnumeric_char ch = true ->
  Ascii.eqb ch "m" = false /\ Ascii.eqb ch newline = false
  /\ Ascii.eqb ch ";" = false.
Proof.
  destruct ch as [[] [] [] [] [] [] [] []]; vm_compute; intros H;
    try discriminate H; repeat split.
Qed.

Lemma lazy_until_m_numeric (c r : str) :
  forallb isnumeric_char c = true ->
  lazy_until_m (c ++ lit "m" ++ r) = Some c.
Proof.
  induction c as [|ch c IH]; intros H; [reflexivity|].
  cbn [forallb] in H; apply andb_true_iff in H as [Hch Hc].
  destruct (numeric_char_in_param ch Hch) as (Hm & Hn & _).
  cbn [app lazy_until_m]; rewrite Hm, Hn.
  now rewrite (IH Hc).
Qed.

Lemma ansi_attribute_non_decimal (sgr : str) :
  isnumeric sgr = true ->
  forallb isdecimal_char sgr = false ->
  ansi_attribute sgr = Raise (ValueError_int sgr).
Proof.
  intros Hnum Hdec.
  destruct sgr as [|ch sgr]; [discriminate Hnum|].
  pose proof Hnum as Hall; cbn [isnumeric forallb] in Hall.
  apply andb_true_iff in Hall as [Hch Hrest].
  destruct (numeric_char_in_param ch Hch) as (_ & _ & Hsemi).
  unfold ansi_attribute.
  assert (H38 : startswith (ch :: sgr) (lit "38;") = false).
  { destruct sgr as [|c1 [|c2 sgr]]; cbn [startswith lit list_ascii_of_string];
      try (now rewrite ?andb_false_r).
    cbn [forallb] in Hrest.
    apply andb_true_iff in Hrest as [_ Hrest].
    apply andb_true_iff in Hrest as [Hc2 _].
    destruct (numeric_char_in_param c2 Hc2) as (_ & _ & Hs2).
    now rewrite (Ascii.eqb_sym ";" c2), Hs2, !andb_false_r. }
  assert (H48 : startswith (ch :: sgr) (lit "48;") = false).
  { destruct sgr as [|c1 [|c2 sgr]]; cbn [startswith lit list_ascii_of_string];
      try (now rewrite ?andb_false_r).
    cbn [forallb] in Hrest.
    apply andb_true_iff in Hrest as [_ Hrest].
    apply andb_true_iff in Hrest as [Hc2 _].
    destruct (numeric_char_in_param c2 Hc2) as (_ & _ & Hs2).
    now rewrite (Ascii.eqb_sym ";" c2), Hs2, !andb_false_r. }
  rewrite H38, H48.
  assert (H0 : str_eqb (ch :: sgr) (lit "0") = false).
  { destruct (str_eqb (ch :: sgr) (lit "0")) eqn:E; [|reflexivity].
    apply str_eqb_eq in E; rewrite E in Hdec; discriminate Hdec. }
  rewrite H0, Hnum.
  unfold int_of_str; rewrite Hdec; reflexivity.
Qed.

Lemma tokenize_ansi_non_decimal (pre sgr rest : str) :
  esc_free pre = true ->
  isnumeric sgr = true ->
  forallb isdecimal_char sgr = false ->
  tokenize_ansi (pre ++ sgr_sequence sgr ++ rest)
  = (match pre with
     | [] => []
     | _ :: _ =>
         [mkToken (length pre) (length pre + (2 + length sgr + 1))
            (Some pre) None None]
     end, Some (ValueError_int sgr)).
Proof.
  intros Hpre Hnum Hdec; unfold tokenize_ansi, finditer.
  rewrite (finditer_from_esc_free pre _ 0 Hpre); cbn [Nat.add].
  assert (Hall : forallb isnumeric_char sgr = true)
    by (destruct sgr; [discriminate Hnum | exact Hnum]).
  assert (Hseq : sgr_sequence sgr ++ rest
                 = esc :: "["%char :: sgr ++ lit "m" ++ rest).
  { unfold sgr_sequence; cbn [lit list_ascii_of_string app].
    now rewrite <- app_assoc. }
  assert (Hre : RE_ANSI (esc :: "["%char :: sgr ++ lit "m" ++ rest)
                = Some (2 + length sgr + 1, (Some sgr, None))).
  { unfold RE_ANSI.
    change ((esc =? esc)%char && ("[" =? "[")%char) with true.
    cbv iota; now rewrite (lazy_until_m_numeric sgr rest Hall). }
  rewrite Hseq.
  rewrite (finditer_from_match _ RE_ANSI esc _ (length pre) _ _ Hre).
  cbn [tokenize_ansi_loop].
  rewrite (ansi_attribute_non_decimal sgr Hnum Hdec).
  pose proof (slice_middle [] pre
                (esc :: "["%char :: sgr ++ lit "m" ++ rest)) as Hslice.
  cbn [app length Nat.add] in Hslice; rewrite Hslice.
  destruct pre as [|ch pre]; reflexivity.
Qed.

(** X17: an SGR sequence whose parameter is numeric for [str.isnumeric] but
    is no decimal literal (it holds a superscript digit or a vulgar
    fraction) makes [tokenize_ansi] raise the ValueError of [int] once the
    text before the sequence is yielded; [optimize_ansi] and
    [ansi_to_markup] raise it on such a string. *)
Theorem non_decimal_parameter_raises_ValueError (names : list (str * nat))
    (pre sgr rest : str)
    (Hpre : esc_free pre = true)
    (Hnumeric : isnumeric sgr = true)
    (Hdecimal : forallb isdecimal_char sgr = false) :
  let text := pre ++ sgr_sequence sgr ++ rest in
  snd (tokenize_ansi text) = Some (ValueError_int sgr)
  /\ map plain (fst (tokenize_ansi text))
     = match pre with [] => [] | _ :: _ => [Some pre] end
  /\ optimize_ansi names text = Raise (ValueError_int sgr)
  /\ forall no_duplicates ensure_reset,
       ansi_to_markup names text no_duplicates ensure_reset
       = Raise (ValueError_int sgr).
Proof.
  intros text; unfold text.
  split; [now rewrite tokenize_ansi_non_decimal|].
  split; [rewrite tokenize_ansi_non_decimal by assumption; now destruct pre|].
  split.
  - unfold optimize_ansi, for_each.
    rewrite tokenize_ansi_non_decimal by assumption.
    destruct pre; reflexivity.
  - intros no_duplicates ensure_reset; unfold ansi_to_markup, for_each.
    match goal with
    | |- context [tokenize_ansi ?a] =>
        assert (Ha : exists rest', a = pre ++ sgr_sequence sgr ++ rest')
    end.
    { destruct (ensure_reset && negb _); [|now exists rest].
      exists (rest ++ reset); now rewrite <- !app_assoc. }
    destruct Ha as [rest' ->].
    rewrite tokenize_ansi_non_decimal by assumption.
    destruct pre; reflexivity.
Qed.

Lemma non_decimal_parameter_raises_ValueError_witness :
  let sgr := [ascii_of_nat 178] in
  let text := lit "x" ++ sgr_sequence sgr ++ lit "y" in
  isnumeric sgr = true
  /\ forallb isdecimal_char sgr = false
  /\ snd (tokenize_ansi text) = Some (ValueError_int sgr)
  /\ optimize_ansi base_names text = Raise (ValueError_int sgr).
Proof.
  do 2 (split; [reflexivity|]).
  pose proof (non_decimal_parameter_raises_ValueError base_names (lit "x")
                [ascii_of_nat 178] (lit "y") eq_refl eq_refl eq_refl)
    as (H1 & _ & H3 & _).
  split; [exact H1 | exact H3].
Defined.

(** ** Spans of the tokens of the ANSI tokenizer *)

Lemma finditer_from_sound (G : Type) (f : str -> option (nat * G))
    (s e : nat) (g : G) :
  forall suf skip pos,
    In (s, e, g) (finditer_from f skip pos suf) ->
    pos <= s /\ s - pos < length suf
    /\ exists len, e = s + len /\ f (skipn (s - pos) suf) = Some (len, g).
Proof.
  induction suf as [|c suf IH]; intros skip pos Hin; [destruct Hin|].
  assert (Htail : forall k,
             In (s, e, g) (finditer_from f k (S pos) suf) ->
             pos <= s /\ s - pos < length (c :: suf)
             /\ exists len,
                  e = s + len
                  /\ f (skipn (s - pos) (c :: suf)) = Some (len, g)).
  { intros k Hk; destruct (IH k (S pos) Hk) as (Hle & Hlt & len & He & Hf).
    replace (s - pos) with (S (s - S pos)) by lia.
    cbn [length skipn]; repeat split; try lia.
    now exists len. }
  cbn [finditer_from] in Hin.
  destruct skip as [|k]; [|now apply (Htail k)].
  destruct (f (c :: suf)) as [[len g']|] eqn:Hf; [|now apply (Htail 0)].
  destruct Hin as [Heq|Hin]; [|now apply (Htail (Nat.pred len))].
  injection Heq as <- <- <-.
  rewrite Nat.sub_diag; cbn [length skipn]; repeat split; try lia.
  now exists len.
Qed.

Lemma lazy_until_m_sound (s g : str) :
  lazy_until_m s = Some g -> exists r, s = g ++ lit "m" ++ r.
Proof.
  revert g; induction s as [|c s IH]; intros g H; [discriminate H|].
  cbn [lazy_until_m] in H.
  destruct (Ascii.eqb c "m") eqn:Hm.
  - apply Ascii.eqb_eq in Hm; subst c.
    injection H as <-; now exists s.
  - destruct (Ascii.eqb c newline); [discriminate H|].
    destruct (lazy_until_m s) as [g'|]; [|discriminate H].
    injection H as <-.
    destruct (IH g' eq_refl) as [r ->]; now exists r.
Qed.

Lemma RE_ANSI_sound (s : str) (len : nat) (sgr osc : option str) :
  RE_ANSI s = Some (len, (sgr, osc)) ->
  (exists r, firstn len s = esc :: r)
  /\ (forall c, sgr = Some c -> firstn len s = sgr_sequence c).
Proof.
  unfold RE_ANSI; intros H.
  destruct s as [|c0 [|c1 r]]; try discriminate H.
  destruct (Ascii.eqb c0 esc) eqn:H0; [|discriminate H].
  apply Ascii.eqb_eq in H0; subst c0; cbn [andb] in H.
  destruct (Ascii.eqb c1 "[") eqn:H1.
  - apply Ascii.eqb_eq in H1; subst c1.
    destruct (lazy_until_m r) as [g|] eqn:Hg; [|discriminate H].
    injection H as <- <- <-.
    destruct (lazy_until_m_sound r g Hg) as [r' ->].
    assert (Hfirst : firstn (2 + length g + 1)
                       (esc :: "["%char :: g ++ lit "m" ++ r')
                     = sgr_sequence g).
    { change (esc :: "["%char :: g ++ lit "m" ++ r')
        with ((esc :: "["%char :: g) ++ "m"%char :: r').
      replace (2 + length g + 1) with (length (esc :: "["%char :: g) + 1)
        by (cbn [length]; lia).
      rewrite firstn_app_2; reflexivity. }
    change (S (S (length g + 1))) with (2 + length g + 1).
    split; [rewrite Hfirst; now eexists|].
    intros c Hc; injection Hc as <-; exact Hfirst.
  - destruct (Ascii.eqb c1 "]"); [|discriminate H].
    destruct (lazy_until_st r) as [g|]; [|discriminate H].
    injection H as <- <- <-.
    split; [cbn [Nat.add firstn]; now eexists | discriminate].
Qed.

Lemma finditer_RE_ANSI_ok (text : str) :
  Forall (ansi_match_ok text) (finditer RE_ANSI text).
Proof.
  apply Forall_forall; intros [[s e] [sgr osc]] Hin.
  destruct (finditer_from_sound _ RE_ANSI s e (sgr, osc) text 0 0 Hin)
    as (_ & Hlt & len & -> & Hre).
  rewrite Nat.sub_0_r in Hlt, Hre.
  destruct (RE_ANSI_sound _ len sgr osc Hre) as [Hesc Hsgr].
  unfold ansi_match_ok, slice.
  replace (s + len - s) with len by lia.
  now repeat split.
Qed.

Lemma slice_nonempty (text : str) (a b : nat) :
  a < b -> a < length text -> slice text a b <> [].
Proof.
  intros Hab Ha H; apply (f_equal (@length ascii)) in H.
  unfold slice in H; rewrite length_firstn, length_skipn in H.
  cbn [length] in H; lia.
Qed.

Lemma skipn_nonempty (text : str) (a : nat) :
  a < length text -> skipn a text <> [].
Proof.
  intros Ha H; apply (f_equal (@length ascii)) in H.
  rewrite length_skipn in H; cbn [length] in H; lia.
Qed.

Lemma tokenize_ansi_loop_spans (text : str)
    (matches : list (nat * nat * (option str * option str))) :
  Forall (ansi_match_ok text) matches ->
  forall position start end_ previous,
    (slice text start end_ = [] \/ exists r, slice text start end_ = esc :: r) ->
    Forall (ansi_span_ok text)
      (fst (tokenize_ansi_loop text matches position start end_ previous)).
Proof.
  induction 1 as [|[[s e] [sgr osc]] matches Hm _ IH];
    intros position start0 end0 previous Hspan.
  - cbn [tokenize_ansi_loop].
    destruct (position <? length text) eqn:Hpos; [|constructor].
    apply Nat.ltb_lt in Hpos.
    cbn [fst]; constructor; [|constructor].
    split; [now apply skipn_nonempty | exact Hspan].
  - destruct Hm as (Hlt & Hesc & Hsgr).
    cbn [tokenize_ansi_loop].
    assert (Hrest : forall previous',
               Forall (ansi_span_ok text)
                 (fst match sgr with
                      | None => ([], Some AttributeError)
                      | Some sgr0 =>
                          match ansi_attribute sgr0 with
                          | Raise e0 => ([], Some e0)
                          | Ok attribute0 =>
                              if differs_from_previous previous' sgr0
                              then yield
                                     (mkToken s e None (Some sgr0) attribute0)
                                     (tokenize_ansi_loop text matches e s e
                                        (Some (mkToken s e None (Some sgr0)
                                                 attribute0)))
                              else tokenize_ansi_loop text matches e s e
                                     previous'
                          end
                      end)).
    { intros previous'.
      destruct sgr as [c|]; [|constructor].
      destruct (ansi_attribute c) as [a|e0]; [|constructor].
      destruct (differs_from_previous previous' c).
      - constructor; [exact (Hsgr c eq_refl)|].
        apply IH; now right.
      - apply IH; now right. }
    destruct (position <? s) eqn:Hpos; [|apply Hrest].
    apply Nat.ltb_lt in Hpos.
    constructor; [|apply Hrest].
    split; [apply slice_nonempty; lia | now right].
Qed.

(** X18: the span of a code token of [tokenize_ansi] delimits its sequence
    in the text; the text of a text token is never empty, and its span is
    not the one of its text: it delimits nothing, or a part of the string
    that begins with ESC (the tokenizer gives a text token the span of a
    sequence next to it), so that it never delimits a text without ESC. *)
Theorem tokenize_ansi_spans (text : str) (t : Token)
    (Ht : In t (fst (tokenize_ansi text))) :
  ansi_span_ok text t
  /\ (forall c, code t = Some c -> span_text text t = sgr_sequence c)
  /\ (forall p,
         code t = None -> plain t = Some p ->
         p <> [] /\ (esc_free p = true -> span_text text t <> p)).
Proof.
  assert (Hok : ansi_span_ok text t).
  { pose proof (tokenize_ansi_loop_spans text (finditer RE_ANSI text)
                  (finditer_RE_ANSI_ok text) 0 0 0 None (or_introl eq_refl))
      as Hall.
    rewrite Forall_forall in Hall; exact (Hall t Ht). }
  split; [exact Hok|]; unfold ansi_span_ok in Hok; split.
  - intros c Hc; now rewrite Hc in Hok.
  - intros p Hc Hp; rewrite Hc, Hp in Hok.
    destruct Hok as [Hne Hspan]; split; [exact Hne|].
    intros Hfree Heq; rewrite Heq in Hspan.
    destruct Hspan as [Hnil|[r Hr]]; [now apply Hne|].
    rewrite Hr in Hfree; cbn [esc_free forallb] in Hfree.
    now rewrite Ascii.eqb_refl in Hfree.
Qed.

Lemma tokenize_ansi_spans_witness :
  let text := lit "ab" ++ sgr_sequence (lit "1") ++ lit "cd" in
  let t := mkToken 2 6 (Some (lit "ab")) None None in
  In t (fst (tokenize_ansi text))
  /\ span_text text t = sgr_sequence (lit "1")
  /\ span_text text t <> lit "ab".
Proof.
  split; [now left|].
  split; [reflexivity|].
  exact (proj2 (proj2 (proj2 (tokenize_ansi_spans
           (lit "ab" ++ sgr_sequence (lit "1") ++ lit "cd")
           (mkToken 2 6 (Some (lit "ab")) None None) (or_introl eq_refl)))
           (lit "ab") eq_refl eq_refl) eq_refl).
Defined.

(** ** Markup of style names *)

Lemma style_word_In (w : str) : style_word w = true -> In w (tl NAMES).
Proof.
  unfold style_word, str_in; intros H.
  apply existsb_exists in H as (x & Hx & Heq).
  apply str_eqb_eq in Heq; now subst x.
Qed.

Ltac style_cases H :=
  apply style_word_In in H; cbn in H;
  repeat (destruct H as [H|H]; [subst|]); try contradiction.

Lemma style_word_chars (w : str) :
  style_word w = true ->
  forallb (fun ch => negb (isspace_char ch) && negb (Ascii.eqb ch "]")
                     && negb (Ascii.eqb ch newline)) w = true
  /\ exists c w', w = c :: w' /\ tag_first_char c = true.
Proof.
  intros H; style_cases H; (split; [reflexivity|]);
    do 2 eexists; split; reflexivity.
Qed.

Lemma style_code_param (w : str) :
  style_word w = true -> style_param (style_code w) = true.
Proof. intros H; style_cases H; reflexivity. Qed.

Lemma style_code_name (names : list (str * nat)) (w : str) :
  style_word w = true ->
  to_name names (mkToken 0 0 None (Some (style_code w)) None) = Ok w.
Proof. intros H; style_cases H; reflexivity. Qed.

Lemma style_code_apart (a b : str) :
  style_word a = true -> style_word b = true ->
  str_eqb a b = false -> str_eqb (style_code a) (style_code b) = false.
Proof.
  intros Ha Hb; style_cases Ha; style_cases Hb; intros H;
    solve [reflexivity | discriminate H].
Qed.

Lemma dedup_from_distinct (ws : list str) :
  forallb style_word ws = true ->
  distinct_neighbours ws = true ->
  forall previous,
    match ws with
    | w :: _ => opt_str_eqb previous (Some (style_code w)) = false
    | [] => True
    end ->
    dedup_from previous (map style_code ws) = map style_code ws.
Proof.
  induction ws as [|a ws IH]; intros Hstyle Hdistinct previous Hprev;
    [reflexivity|].
  cbn [forallb] in Hstyle; apply andb_true_iff in Hstyle as [Ha Hws].
  cbn [distinct_neighbours] in Hdistinct.
  apply andb_true_iff in Hdistinct as [Hab Hrest].
  cbn [map dedup_from]; rewrite Hprev; f_equal.
  apply IH; try assumption.
  destruct ws as [|b ws]; [exact I|].
  cbn [forallb] in Hws; apply andb_true_iff in Hws as [Hb _].
  apply negb_true_iff in Hab; cbn [opt_str_eqb].
  now apply style_code_apart.
Qed.

Lemma split_ws_from_word (w : str) :
  forall cur rest,
    forallb (fun ch => negb (isspace_char ch)) w = true ->
    split_ws_from cur (w ++ rest) = split_ws_from (rev w ++ cur) rest.
Proof.
  induction w as [|c w IH]; intros cur rest H; [reflexivity|].
  cbn [forallb] in H; apply andb_true_iff in H as [Hc Hw].
  apply negb_true_iff in Hc.
  cbn [app split_ws_from rev]; rewrite Hc, (IH _ _ Hw).
  now rewrite <- app_assoc.
Qed.

Lemma split_ws_join (ws : list str) :
  Forall (fun w => w <> []
                   /\ forallb (fun ch => negb (isspace_char ch)) w = true)
    ws ->
  split_ws (join (lit " ") ws) = ws.
Proof.
  unfold split_ws; induction 1 as [|w ws [Hne Hw] _ IH]; [reflexivity|].
  assert (Hrev : rev w <> [])
    by (intros E; apply Hne; now rewrite <- (rev_involutive w), E).
  destruct ws as [|w2 ws].
  - cbn [join]; rewrite <- (app_nil_r w) at 1.
    rewrite (split_ws_from_word w [] [] Hw), app_nil_r.
    cbn [split_ws_from].
    destruct (rev w) eqn:E; [now elim Hrev|].
    now rewrite <- E, rev_involutive.
  - change (join (lit " ") (w :: w2 :: ws))
      with (w ++ " "%char :: join (lit " ") (w2 :: ws)).
    rewrite (split_ws_from_word w [] _ Hw), app_nil_r.
    cbn [split_ws_from].
    change (isspace_char " ") with true; cbv iota.
    destruct (rev w) eqn:E; [now elim Hrev|].
    now rewrite <- E, rev_involutive, IH.
Qed.

Lemma forallb_join (f : ascii -> bool) (ws : list str) :
  f " "%char = true ->
  forallb (forallb f) ws = true ->
  forallb f (join (lit " ") ws) = true.
Proof.
  intros Hsp; induction ws as [|w ws IH]; intros H; [reflexivity|].
  cbn [forallb] in H; apply andb_true_iff in H as [Hw Hws].
  destruct ws as [|w2 ws]; [exact Hw|].
  change (join (lit " ") (w :: w2 :: ws))
    with (w ++ " "%char :: join (lit " ") (w2 :: ws)).
  rewrite forallb_app, Hw; cbn [forallb andb]; rewrite Hsp; cbn [andb].
  now apply IH.
Qed.

Lemma forallb_rev (f : ascii -> bool) (s : str) :
  forallb f (rev s) = forallb f s.
Proof.
  induction s as [|c s IH]; [reflexivity|].
  cbn [rev forallb]; rewrite forallb_app, IH; cbn [forallb].
  rewrite andb_true_r; apply andb_comm.
Qed.

Lemma text_after_codes_not_endswith_reset (cs : list str) (text : str) :
  nonempty text = true -> esc_free text = true ->
  endswith (render_codes cs ++ text) reset = false.
Proof.
  intros Hne Hesc.
  assert (Ha : rev (render_codes cs) = []
               \/ exists a, rev (render_codes cs) = "m"%char :: a).
  { induction cs as [|c cs IH] using rev_ind; [now left|right].
    rewrite render_codes_app; unfold render_codes at 2.
    cbn [map concat]; rewrite app_nil_r, rev_app_distr.
    unfold sgr_sequence.
    change (esc :: lit "[" ++ c ++ lit "m")
      with ((esc :: "["%char :: c) ++ ["m"%char]).
    rewrite rev_app_distr; cbn [rev app]; now eexists. }
  unfold endswith; rewrite rev_app_distr.
  pose proof (forallb_rev (fun ch => negb (Ascii.eqb ch esc)) text) as Hrev.
  unfold esc_free in Hesc; rewrite Hesc in Hrev.
  assert (Hnil : rev text <> []).
  { intros E; apply (f_equal (@rev ascii)) in E.
    rewrite rev_involutive in E; subst text; discriminate Hne. }
  change (rev reset) with ["m"%char; "0"%char; "["%char; esc].
  destruct (rev text) as [|x1 [|x2 [|x3 [|x4 rt]]]]; [now elim Hnil| | | |].
  - destruct Ha as [->|[a ->]]; cbn [app startswith];
      [now rewrite andb_false_r|].
    change (("0" =? "m")%char) with false.
    now rewrite andb_false_r.
  - destruct Ha as [->|[a ->]]; cbn [app startswith];
      [now rewrite !andb_false_r|].
    change (("[" =? "m")%char) with false.
    now rewrite !andb_false_r.
  - destruct Ha as [->|[a ->]]; cbn [app startswith];
      [now rewrite !andb_false_r|].
    change ((esc =? "m")%char) with false.
    now rewrite !andb_false_r.
  - cbn [forallb] in Hrev.
    apply andb_true_iff in Hrev as [_ Hrev].
    apply andb_true_iff in Hrev as [_ Hrev].
    apply andb_true_iff in Hrev as [_ Hrev].
    apply andb_true_iff in Hrev as [H4 _].
    apply negb_true_iff in H4.
    cbn [app startswith].
    rewrite (Ascii.eqb_sym esc x4), H4.
    now rewrite !andb_false_r.
Qed.

Section StyleMarkup.

Variable names : list (str * nat).
Variable translate_hex : str -> option (list nat).

Lemma style_word_token (text : str) (start end_ : nat) (w : str) :
  style_word w = true ->
  tag_token names translate_hex text start end_ w
  = Ok (mkToken start end_ None (Some (style_code w)) (Some STYLE)).
Proof. intros H; style_cases H; reflexivity. Qed.

Lemma tokenize_tags_style_words (text : str) (start end_ : nat)
    (ws : list str) (rest : generator) :
  forallb style_word ws = true ->
  tokenize_tags names translate_hex text start end_ ws rest
  = (map (fun w => mkToken start end_ None (Some (style_code w))
                     (Some STYLE)) ws ++ fst rest, snd rest).
Proof.
  induction ws as [|w ws IH]; intros H; [now destruct rest|].
  cbn [forallb] in H; apply andb_true_iff in H as [Hw Hws].
  cbn [tokenize_tags]; rewrite (style_word_token _ _ _ _ Hw), (IH Hws).
  reflexivity.
Qed.

Lemma RE_TAGS_style_bracket (ws : list str) (text : str) :
  nonempty ws = true ->
  forallb style_word ws = true ->
  RE_TAGS (bracketed ws ++ text)
  = Some (length (bracketed ws),
          (bracketed ws, [], join (lit " ") ws)).
Proof.
  intros Hne Hstyle.
  assert (Hbody : forallb (fun ch => negb (Ascii.eqb ch "]")
                                     && negb (Ascii.eqb ch newline))
                    (join (lit " ") ws) = true).
  { apply forallb_join; [reflexivity|].
    apply forallb_forall; intros w Hw.
    rewrite forallb_forall in Hstyle.
    destruct (style_word_chars w (Hstyle w Hw)) as [Hchars _].
    rewrite forallb_forall in Hchars |- *; intros ch Hch.
    specialize (Hchars ch Hch).
    apply andb_true_iff in Hchars as [Hchars Hn].
    apply andb_true_iff in Hchars as [_ Hb].
    now rewrite Hb, Hn. }
  assert (Hfirst : exists c body,
             join (lit " ") ws = c :: body /\ tag_first_char c = true).
  { destruct ws as [|w ws]; [discriminate Hne|].
    cbn [forallb] in Hstyle; apply andb_true_iff in Hstyle as [Hw _].
    destruct (style_word_chars w Hw) as (_ & c & w' & -> & Hc).
    destruct ws; cbn [join app]; now eauto. }
  destruct Hfirst as (c & body & Hjoin & Hc).
  unfold bracketed; rewrite Hjoin in *.
  cbn [forallb] in Hbody; apply andb_true_iff in Hbody as [_ Hbody].
  unfold RE_TAGS.
  change ((lit "[" ++ (c :: body) ++ lit "]") ++ text)
    with ("["%char :: c :: (body ++ lit "]") ++ text).
  cbn [span_backslashes].
  change (("[" =? backslash)%char) with false; cbv iota.
  change (("[" =? "[")%char) with true; rewrite Hc; cbn [andb].
  rewrite <- app_assoc.
  change (lit "]" ++ text) with ("]"%char :: text).
  now rewrite (lazy_until_bracket_body body text Hbody).
Qed.

Lemma tokenize_markup_style_bracket (ws : list str) (text : str) :
  nonempty ws = true ->
  forallb style_word ws = true ->
  nonempty text = true ->
  bracket_free text = true ->
  tokenize_markup names translate_hex (bracketed ws ++ text)
  = (map (fun w => mkToken 0 (length (bracketed ws)) None
                     (Some (style_code w)) (Some STYLE)) ws
     ++ [mkToken 0 (length (bracketed ws)) (Some text) None None], None).
Proof.
  intros Hne Hstyle Htext Hbracket.
  pose proof (RE_TAGS_style_bracket ws text Hne Hstyle) as Hre.
  assert (Hwords : split_ws (join (lit " ") ws) = ws).
  { apply split_ws_join, Forall_forall; intros w Hw.
    rewrite forallb_forall in Hstyle.
    destruct (style_word_chars w (Hstyle w Hw))
      as (Hchars & c & w' & -> & _).
    split; [discriminate|].
    rewrite forallb_forall in Hchars |- *; intros ch Hch.
    specialize (Hchars ch Hch).
    apply andb_true_iff in Hchars as [Hchars _].
    now apply andb_true_iff in Hchars as [Hs _]. }
  unfold tokenize_markup, finditer.
  set (n := length (bracketed ws)) in *.
  assert (Hopen : bracketed ws = "["%char :: tl (bracketed ws))
    by reflexivity.
  assert (Hlen : Nat.pred n = length (tl (bracketed ws)))
    by (unfold n; rewrite Hopen at 1; reflexivity).
  assert (Hmatches : finditer_from RE_TAGS 0 0 (bracketed ws ++ text)
                     = [(0, n, (bracketed ws, [], join (lit " ") ws))]).
  { revert Hre; rewrite Hopen at 1 3; cbn [app]; intros Hre.
    rewrite (finditer_from_match _ RE_TAGS _ _ 0 _ _ Hre).
    rewrite Hlen, finditer_from_skip.
    rewrite <- (app_nil_r text), (finditer_from_bracket_free text [] _ Hbracket).
    reflexivity. }
  rewrite Hmatches.
  cbn [tokenize_markup_loop str_eqb negb].
  change (0 <? 0) with false; cbv iota.
  rewrite Hwords, (tokenize_tags_style_words _ _ _ _ _ Hstyle).
  replace (skipn n (bracketed ws ++ text)) with text
    by (symmetry; apply skipn_prefix).
  replace (n <? length (bracketed ws ++ text)) with true; [reflexivity|].
  symmetry; apply Nat.ltb_lt; rewrite length_app; fold n.
  destruct text; [discriminate Htext | cbn [length]; lia].
Qed.

Lemma for_tokens_style_codes (ws : list str) (start end_ : nat)
    (rest : list Token) :
  forall ansi,
    for_tokens markup_to_ansi_body
      (map (fun w => mkToken start end_ None (Some (style_code w))
                       (Some STYLE)) ws ++ rest) ansi
    = for_tokens markup_to_ansi_body rest
        (ansi ++ render_codes (map style_code ws)).
Proof.
  induction ws as [|w ws IH]; intros ansi.
  - cbn [map app render_codes concat]; now rewrite app_nil_r.
  - cbn [map app for_tokens markup_to_ansi_body to_sequence code bind].
    rewrite IH; f_equal.
    unfold render_codes; cbn [map concat]; now rewrite <- app_assoc.
Qed.

End StyleMarkup.

Lemma fold_style_names (names : list (str * nat)) (ws : list str) :
  forallb style_word ws = true ->
  forall s,
    fold_left (fun r p => s' <- r ;; ansi_to_markup_content names s' p)
      (map Sgr (map style_code ws)) (Ok s)
    = Ok (mkMarkup (markup s) (in_attr s || nonempty ws)
            (current_bracket s ++ ws)).
Proof.
  induction ws as [|w ws IH]; intros H s.
  - cbn [map fold_left nonempty]; rewrite orb_false_r, app_nil_r.
    now destruct s.
  - cbn [forallb] in H; apply andb_true_iff in H as [Hw Hws].
    cbn [map fold_left bind ansi_to_markup_content].
    pose proof (style_code_param w Hw) as Hparam.
    unfold style_param in Hparam.
    apply andb_true_iff in Hparam as [_ Hzero].
    apply negb_true_iff in Hzero; rewrite Hzero.
    rewrite (style_code_name names w Hw); cbn [bind].
    rewrite (IH Hws); cbn [markup in_attr current_bracket nonempty].
    now rewrite <- app_assoc, orb_true_r.
Qed.

(** X19: markup made of one bracket of style names, of which none repeats
    the one before it, and of a text without ESC, opening bracket and
    backslash, converts to the sequences of the styles in order, the text
    and the reset sequence, with or without optimization; [ansi_to_markup]
    of that string gives the markup back, followed by the closing tag. *)
Theorem style_markup_round_trip (names : list (str * nat))
    (translate_hex : str -> option (list nat)) (ws : list str) (text : str)
    (ensure_optimized no_duplicates : bool)
    (Hwords : nonempty ws = true)
    (Hstyle : forallb style_word ws = true)
    (Hdistinct : distinct_neighbours ws = true)
    (Hnonempty : nonempty text = true)
    (Hesc : esc_free text = true)
    (Hbracket : bracket_free text = true) :
  let ansi := render_codes (map style_code ws) ++ text ++ reset in
  markup_to_ansi names translate_hex (bracketed ws ++ text) true
    ensure_optimized
  = Ok ansi
  /\ ansi_to_markup names ansi no_duplicates true
     = Ok (bracketed ws ++ text ++ lit "[/]").
Proof.
  intros ansi.
  set (cs := map style_code ws).
  set (ps := map Sgr cs ++ [Text text; Sgr (lit "0")]).
  assert (Hcs : forallb style_param cs = true).
  { unfold cs; rewrite forallb_forall in Hstyle |- *; intros c Hc.
    apply in_map_iff in Hc as (w & <- & Hw).
    now apply style_code_param, Hstyle. }
  assert (Hps : forallb piece_ok ps = true).
  { unfold ps; rewrite forallb_app; apply andb_true_iff; split.
    - rewrite forallb_forall; intros p Hp.
      apply in_map_iff in Hp as (c & <- & Hc).
      pose proof (style_params_numeric cs Hcs) as Hnum.
      rewrite forallb_forall in Hnum; exact (Hnum c Hc).
    - cbn [forallb piece_ok]; now rewrite Hesc. }
  assert (Hrender : render ps = ansi).
  { unfold ps, ansi; rewrite render_app, render_map_Sgr.
    unfold render; cbn [map concat render_content].
    now rewrite app_nil_r. }
  assert (Hlex : lex [] None ps = ps).
  { assert (Hdedup : dedup_from None cs = cs).
    { apply (dedup_from_distinct ws Hstyle Hdistinct None).
      destruct ws; [exact I | reflexivity]. }
    unfold ps; rewrite lex_codes, Hdedup; f_equal.
    cbn [lex app].
    destruct text; [discriminate Hnonempty | reflexivity]. }
  assert (Hend : endswith (render_codes cs ++ text) reset = false)
    by now apply text_after_codes_not_endswith_reset.
  assert (Hopt : optimize_ansi names ansi = Ok ansi).
  { rewrite <- Hrender, (optimize_ansi_render names ps Hps), Hlex.
    unfold ps at 1; rewrite fold_left_app, (fold_codes cs _ Hcs).
    cbn [fold_left optimize_content out sequence previous_sequence
         opt_str_eqb negb app].
    change (str_eqb (lit "0") (lit "0")) with true; cbv iota.
    cbn [out sequence length Nat.ltb Nat.leb].
    unfold ensure_reset_at_end; rewrite Hend; cbn [negb].
    rewrite Hrender; unfold ansi; now rewrite <- app_assoc. }
  split.
  - unfold markup_to_ansi, for_each.
    rewrite (tokenize_markup_style_bracket names translate_hex ws text
               Hwords Hstyle Hnonempty Hbracket).
    cbn [fst snd]; rewrite for_tokens_style_codes.
    cbn [for_tokens markup_to_ansi_body to_sequence code plain bind app].
    fold cs; rewrite Hend; cbn [andb negb].
    replace ((render_codes cs ++ text) ++ reset) with ansi
      by (unfold ansi; now rewrite <- app_assoc).
    destruct ensure_optimized; [exact Hopt | reflexivity].
  - rewrite ansi_to_markup_ensures_reset.
    replace (endswith ansi reset) with true
      by (unfold ansi; rewrite app_assoc; symmetry; apply endswith_app).
    rewrite <- Hrender, (ansi_to_markup_render names ps no_duplicates Hps).
    rewrite Hlex; unfold ps at 1; rewrite fold_left_app.
    unfold cs; rewrite (fold_style_names names ws Hstyle).
    cbn [fold_left bind ansi_to_markup_content markup in_attr
         current_bracket app orb].
    rewrite Hwords; cbn [andb].
    replace (0 <? length ws) with true
      by (destruct ws; [discriminate Hwords | reflexivity]).
    cbv iota; cbn [app].
    rewrite (replace_first_bracket_free text Hbracket).
    change (str_eqb (lit "0") (lit "0")) with true; cbv iota.
    cbn [bind markup current_bracket].
    replace (0 <? length (bracketed ws ++ text)) with true
      by (unfold bracketed; reflexivity).
    cbn [length Nat.ltb Nat.leb].
    now rewrite <- app_assoc.
Qed.

Lemma style_markup_round_trip_witness :
  let ws := [lit "bold"; lit "italic"; lit "bold"] in
  nonempty ws = true
  /\ forallb style_word ws = true
  /\ distinct_neighbours ws = true
  /\ markup_to_ansi base_names hex_translator
       (lit "[bold italic bold]hello") true true
     = Ok (sgr_sequence (lit "1") ++ sgr_sequence (lit "3")
           ++ sgr_sequence (lit "1") ++ lit "hello" ++ reset)
  /\ ansi_to_markup base_names
       (sgr_sequence (lit "1") ++ sgr_sequence (lit "3")
        ++ sgr_sequence (lit "1") ++ lit "hello" ++ reset) false true
     = Ok (lit "[bold italic bold]hello[/]").
Proof.
  do 3 (split; [reflexivity|]).
  exact (style_markup_round_trip base_names hex_translator
           [lit "bold"; lit "italic"; lit "bold"] (lit "hello") true false
           eq_refl eq_refl eq_refl eq_refl eq_refl eq_refl).
Defined.

(** ** Unsetters of unset codes and of colours *)

Lemma unset_code_cases (u : str) :
  dict_has_value str_eqb UNSET_MAP u = true ->
  In u (map snd UNSET_MAP).
Proof.
  unfold dict_has_value; intros H.
  apply existsb_exists in H as ([k v] & Hin & Heq).
  apply str_eqb_eq in Heq; cbn [snd] in Heq; subst v.
  now apply (in_map snd) in Hin.
Qed.

(** X20: [tokenize_ansi] gives the attribute [CLEAR] to every code that is
    a value of [UNSET_MAP], and [get_unsetter] of a [CLEAR] token with such
    a code is the code itself: an unsetter is its own unsetter.  The
    unsetter of a colour token does not depend on its code: it is 39 for a
    foreground and 49 for a background, and [get_setter] finds no setter
    for these two. *)
Theorem unsetters_of_clear_and_colour_tokens (names : list (str * nat))
    (start end_ : nat) (u c : str)
    (Hu : dict_has_value str_eqb UNSET_MAP u = true) :
  ansi_attribute u = Ok (Some CLEAR)
  /\ get_unsetter names (mkToken start end_ None (Some u) (Some CLEAR))
     = Ok (Some u)
  /\ get_unsetter names (mkToken start end_ None (Some c) (Some COLOR))
     = Ok (Some (lit "39"))
  /\ get_unsetter names
       (mkToken start end_ None (Some c) (Some BACKGROUND_COLOR))
     = Ok (Some (lit "49"))
  /\ get_setter names (mkToken start end_ None (Some (lit "39")) (Some CLEAR))
     = Ok None
  /\ get_setter names (mkToken start end_ None (Some (lit "49")) (Some CLEAR))
     = Ok None.
Proof.
  apply unset_code_cases in Hu; cbn in Hu.
  split; [|split; [|now repeat split]].
  - repeat (destruct Hu as [Hu|Hu]; [subst u; reflexivity|]).
    contradiction.
  - repeat (destruct Hu as [Hu|Hu]; [subst u; reflexivity|]).
    contradiction.
Qed.

Lemma unsetters_of_clear_and_colour_tokens_witness :
  dict_has_value str_eqb UNSET_MAP (lit "24") = true
  /\ get_unsetter base_names (mkToken 0 5 None (Some (lit "24")) (Some CLEAR))
     = Ok (Some (lit "24"))
  /\ get_unsetter base_names
       (mkToken 0 9 None (Some (lit "38;5;1")) (Some COLOR))
     = Ok (Some (lit "39")).
Proof.
  split; [reflexivity|].
  pose proof (unsetters_of_clear_and_colour_tokens base_names 0 5 (lit "24")
                (lit "38;5;1") eq_refl) as (_ & H & _).
  split; [exact H|].
  pose proof (unsetters_of_clear_and_colour_tokens base_names 0 9 (lit "24")
                (lit "38;5;1") eq_refl) as (_ & _ & H' & _).
  exact H'.
Defined.

(** ** Spans of the tokens of the markup tokenizer *)

Lemma span_backslashes_sound (s : str) :
  forall b r,
    span_backslashes s = (b, r) ->
    s = b ++ r /\ forallb (Ascii.eqb backslash) b = true.
Proof.
  induction s as [|c s IH]; intros b r H; cbn [span_backslashes] in H.
  - injection H as <- <-; now split.
  - destruct (Ascii.eqb c backslash) eqn:Hc.
    + destruct (span_backslashes s) as [b' r'].
      injection H as <- <-.
      destruct (IH b' r' eq_refl) as [-> Hb]; split; [reflexivity|].
      cbn [forallb]; now rewrite Ascii.eqb_sym, Hc.
    + injection H as <- <-; now split.
Qed.

Lemma lazy_until_bracket_sound (s g : str) :
  lazy_until_bracket s = Some g -> exists r, s = g ++ lit "]" ++ r.
Proof.
  revert g; induction s as [|c s IH]; intros g H; [discriminate H|].
  cbn [lazy_until_bracket] in H.
  destruct (Ascii.eqb c "]") eqn:Hm.
  - apply Ascii.eqb_eq in Hm; subst c.
    injection H as <-; now exists s.
  - destruct (Ascii.eqb c newline); [discriminate H|].
    destruct (lazy_until_bracket s) as [g'|]; [|discriminate H].
    injection H as <-.
    destruct (IH g' eq_refl) as [r ->]; now exists r.
Qed.

Lemma RE_TAGS_sound (s : str) (len : nat) (full escapes tag_text : str) :
  RE_TAGS s = Some (len, (full, escapes, tag_text)) ->
  firstn len s = full
  /\ full = escapes ++ lit "[" ++ tag_text ++ lit "]"
  /\ forallb (Ascii.eqb backslash) escapes = true.
Proof.
  unfold RE_TAGS; intros H.
  destruct (span_backslashes s) as [b r] eqn:Hspan.
  destruct (span_backslashes_sound s b r Hspan) as [-> Hb].
  destruct r as [|c0 [|c1 r]]; try discriminate H.
  destruct (Ascii.eqb c0 "[") eqn:H0; [|discriminate H].
  apply Ascii.eqb_eq in H0; subst c0.
  destruct (tag_first_char c1); [|discriminate H]; cbn [andb] in H.
  destruct (lazy_until_bracket r) as [g|] eqn:Hg; [|discriminate H].
  injection H as <- <- <- <-.
  destruct (lazy_until_bracket_sound r g Hg) as [r' ->].
  split; [|now split].
  replace (b ++ "["%char :: c1 :: g ++ lit "]" ++ r')
    with ((b ++ lit "[" ++ (c1 :: g) ++ lit "]") ++ r').
  - rewrite firstn_app, firstn_all, Nat.sub_diag; cbn [firstn].
    apply app_nil_r.
  - rewrite <- !app_assoc; reflexivity.
Qed.

Lemma finditer_RE_TAGS_ok (text : str) :
  Forall (markup_match_ok text) (finditer RE_TAGS text).
Proof.
  apply Forall_forall; intros [[s e] [[full escapes] tag_text]] Hin.
  destruct (finditer_from_sound _ RE_TAGS s e (full, escapes, tag_text)
              text 0 0 Hin) as (_ & Hlt & len & -> & Hre).
  rewrite Nat.sub_0_r in Hlt, Hre.
  destruct (RE_TAGS_sound _ len full escapes tag_text Hre)
    as (Hfull & Heq & Hb).
  unfold markup_match_ok, slice.
  replace (s + len - s) with len by lia.
  now repeat split.
Qed.

Section MarkupSpans.

Variable names : list (str * nat).
Variable translate_hex : str -> option (list nat).

Lemma tag_token_span (text : str) (start0 end0 : nat) (tag : str)
    (t : Token) :
  tag_token names translate_hex text start0 end0 tag = Ok t ->
  start t = start0 /\ end_ t = end0 /\ plain t = None
  /\ exists c, code t = Some c.
Proof.
  unfold tag_token.
  destruct (str_index tag NAMES); [intros [= <-]; cbn; eauto|].
  destruct (dict_get UNSET_MAP tag); [intros [= <-]; cbn; eauto|].
  destruct (_handle_named_color names translate_hex tag) as [[[c b]|]|e];
    cbn [bind]; try discriminate; [intros [= <-]; cbn; eauto|].
  destruct (_handle_color translate_hex tag) as [[[c b]|]|e];
    cbn [bind]; try discriminate.
  intros [= <-]; cbn; eauto.
Qed.

Lemma tokenize_tags_spans (text : str) (start0 end0 : nat)
    (tag_text : str) (rest : generator) :
  slice text start0 end0 = lit "[" ++ tag_text ++ lit "]" ->
  Forall (markup_span_ok names translate_hex text) (fst rest) ->
  forall tags,
    incl tags (split_ws tag_text) ->
    Forall (markup_span_ok names translate_hex text)
      (fst (tokenize_tags names translate_hex text start0 end0 tags rest)).
Proof.
  intros Hslice Hrest; induction tags as [|tag tags IH]; intros Hincl;
    cbn [tokenize_tags]; [exact Hrest|].
  destruct (tag_token names translate_hex text start0 end0 tag) as [t|e]
    eqn:Ht; [|constructor].
  constructor; [|apply IH; intros w Hw; apply Hincl; now right].
  destruct (tag_token_span _ _ _ _ _ Ht) as (Hs & He & _ & c & Hc).
  unfold markup_span_ok, span_text; rewrite Hc, Hs, He.
  exists tag_text, tag; repeat split; try assumption.
  apply Hincl; now left.
Qed.

Lemma tokenize_markup_loop_spans (text : str)
    (matches : list (nat * nat * (str * str * str))) :
  Forall (markup_match_ok text) matches ->
  forall position start0 end0,
    (slice text start0 end0 = []
     \/ exists escapes tag_text,
          slice text start0 end0
          = escapes ++ lit "[" ++ tag_text ++ lit "]") ->
    Forall (markup_span_ok names translate_hex text)
      (fst (tokenize_markup_loop names translate_hex text matches
              position start0 end0)).
Proof.
  induction 1 as [|[[s e] [[full escapes] tag_text]] matches Hm _ IH];
    intros position start0 end0 Hspan.
  - cbn [tokenize_markup_loop].
    destruct (position <? length text) eqn:Hpos; [|constructor].
    apply Nat.ltb_lt in Hpos.
    cbn [fst]; constructor; [|constructor].
    split; [now apply skipn_nonempty | exact Hspan].
  - destruct Hm as (Hlt & Hslice & Hfull & Hb).
    assert (Hnext : slice text s e = []
                    \/ exists escapes0 tag_text0,
                         slice text s e
                         = escapes0 ++ lit "[" ++ tag_text0 ++ lit "]")
      by (right; exists escapes, tag_text; congruence).
    cbn [tokenize_markup_loop].
    assert (Hrest :
      Forall (markup_span_ok names translate_hex text)
        (fst (if negb (str_eqb escapes [])
              then yield (mkToken s e (Some (skipn (length escapes) full))
                            None (Some ESCAPED))
                     (tokenize_markup_loop names translate_hex text matches
                        e s e)
              else tokenize_tags names translate_hex text s e
                     (split_ws tag_text)
                     (tokenize_markup_loop names translate_hex text matches
                        e s e)))).
    { destruct (str_eqb escapes []) eqn:Hesc; cbn [negb].
      - apply str_eqb_eq in Hesc; subst escapes.
        apply (tokenize_tags_spans text s e tag_text);
          [now rewrite Hslice, Hfull | now apply IH | apply incl_refl].
      - apply str_eqb_neq in Hesc.
        constructor; [|now apply IH].
        unfold markup_span_ok, span_text; cbn [code plain attribute start end_].
        rewrite Hfull, skipn_prefix; split; [discriminate|].
        exists escapes; repeat split; try assumption; congruence. }
    destruct (position <? s) eqn:Hpos; [|exact Hrest].
    apply Nat.ltb_lt in Hpos.
    constructor; [|exact Hrest].
    split; [apply slice_nonempty; lia | exact Hnext].
Qed.

End MarkupSpans.

(** X21: the span of a code token of [tokenize_markup] delimits the whole
    bracket in which its tag is one of the words, so that the tokens of the
    tags of one bracket share a span; the span of an escaped bracket
    delimits its backslashes and the bracket.  The text of a text token is
    never empty, and its span is not the one of its text: it never
    delimits a text without an opening bracket. *)
Theorem tokenize_markup_spans (names : list (str * nat))
    (translate_hex : str -> option (list nat)) (text : str) (t : Token)
    (Ht : In t (fst (tokenize_markup names translate_hex text))) :
  markup_span_ok names translate_hex text t
  /\ (forall p,
         code t = None -> plain t = Some p ->
         p <> []
         /\ (forallb (fun ch => negb (Ascii.eqb ch "[")) p = true ->
             span_text text t <> p)).
Proof.
  assert (Hok : markup_span_ok names translate_hex text t).
  { pose proof (tokenize_markup_loop_spans names translate_hex text
                  (finditer RE_TAGS text) (finditer_RE_TAGS_ok text) 0 0 0
                  (or_introl eq_refl)) as Hall.
    rewrite Forall_forall in Hall; exact (Hall t Ht). }
  split; [exact Hok|].
  intros p Hc Hp; unfold markup_span_ok in Hok; rewrite Hc, Hp in Hok.
  destruct Hok as [Hne Hspan]; split; [exact Hne|].
  intros Hfree Heq; rewrite Heq in Hspan.
  assert (Hbracket : forall escapes tag_text,
             p <> escapes ++ lit "[" ++ tag_text ++ lit "]").
  { intros escapes tag_text E; rewrite E, forallb_app in Hfree.
    apply andb_true_iff in Hfree as [_ Hfree]; discriminate Hfree. }
  destruct (attribute t) as [[]|];
    try (destruct Hspan as [Hnil|(escapes & tag_text & E)];
         [now apply Hne | exact (Hbracket escapes tag_text E)]).
  destruct Hspan as (escapes & Hesc & _ & E).
  apply (f_equal (@length ascii)) in E; rewrite length_app in E.
  destruct escapes; [now apply Hesc | cbn [length] in E; lia].
Qed.

Lemma tokenize_markup_spans_witness :
  let text := lit "ab[bold italic]cd" in
  let t := mkToken 2 15 None (Some (lit "3")) (Some STYLE) in
  In t (fst (tokenize_markup base_names hex_translator text))
  /\ span_text text t = lit "[bold italic]"
  /\ markup_span_ok base_names hex_translator text t.
Proof.
  split; [right; right; now left|].
  split; [reflexivity|].
  exact (proj1 (tokenize_markup_spans base_names hex_translator
                  (lit "ab[bold italic]cd")
                  (mkToken 2 15 None (Some (lit "3")) (Some STYLE))
                  (or_intror (or_intror (or_introl eq_refl))))).
Defined.

(** ** Names of the colour registry *)

Lemma digit_char_value (d : nat) :
  d < 10 -> nat_of_ascii (digit_char d) - 48 = d.
Proof.
  intros H; unfold digit_char.
  rewrite nat_ascii_embedding by lia; lia.
Qed.

Lemma int_of_str_of_nat_fuel (fuel : nat) :
  forall n acc,
    n < fuel ->
    fold_left (fun a c => 10 * a + (nat_of_ascii c - 48))
      (str_of_nat_fuel fuel n acc) 0
    = fold_left (fun a c => 10 * a + (nat_of_ascii c - 48)) acc n.
Proof.
  induction fuel as [|fuel IH]; intros n acc Hn; [lia|].
  cbn [str_of_nat_fuel].
  assert (Hmod : n mod 10 < 10) by (apply Nat.mod_upper_bound; discriminate).
  destruct (n <? 10) eqn:Hsmall.
  - apply Nat.ltb_lt in Hsmall.
    cbn [fold_left]; rewrite (digit_char_value _ Hmod).
    now rewrite (Nat.mod_small n 10 Hsmall).
  - apply Nat.ltb_ge in Hsmall.
    assert (Hdiv : n / 10 < fuel).
    { pose proof (Nat.div_lt n 10 ltac:(lia) ltac:(lia)); lia. }
    rewrite (IH (n / 10) _ Hdiv).
    cbn [fold_left]; rewrite (digit_char_value _ Hmod).
    f_equal; symmetry; apply (Nat.div_mod_eq n 10).
Qed.

Lemma str_of_nat_nonempty (n : nat) : str_of_nat n <> [].
Proof.
  unfold str_of_nat; cbn [str_of_nat_fuel].
  destruct (n <? 10); [discriminate|].
  generalize (digit_char (n mod 10)), (n / 10); intros c m.
  assert (H : forall fuel k acc, acc <> [] -> str_of_nat_fuel fuel k acc <> []).
  { induction fuel as [|fuel IH]; intros k acc Hacc; [exact Hacc|].
    cbn [str_of_nat_fuel]; destruct (k <? 10); [discriminate|].
    apply IH; discriminate. }
  apply H; discriminate.
Qed.

Lemma int_of_str_of_nat (n : nat) : int_of_str (str_of_nat n) = Ok n.
Proof.
  unfold int_of_str.
  pose proof (str_of_nat_nonempty n) as Hne.
  rewrite (str_of_nat_decimal n).
  destruct (str_of_nat n) eqn:E; [now elim Hne|].
  rewrite <- E; unfold str_of_nat.
  now rewrite (int_of_str_of_nat_fuel (S n) n [] (Nat.lt_succ_diag_r n)).
Qed.

Lemma isdigit_str_of_nat (n : nat) : isdigit (str_of_nat n) = true.
Proof.
  pose proof (str_of_nat_nonempty n) as Hne.
  pose proof (str_of_nat_decimal n) as Hdec.
  unfold isdigit; destruct (str_of_nat n) as [|c d]; [now elim Hne|].
  rewrite forallb_forall in Hdec |- *; intros ch Hch.
  unfold isdigit_char; now rewrite (Hdec ch Hch).
Qed.

Lemma split_on_decimal (d : str) :
  forallb isdecimal_char d = true -> split_on ";" d = [d].
Proof.
  induction d as [|c d IH]; intros H; [reflexivity|].
  cbn [forallb] in H; apply andb_true_iff in H as [Hc Hd].
  cbn [split_on]; rewrite (IH Hd).
  replace (Ascii.eqb c ";") with false; [reflexivity|].
  revert Hc; clear; destruct c as [[] [] [] [] [] [] [] []];
    vm_compute; intros H; try discriminate H; reflexivity.
Qed.

Lemma dict_key_of_nat_has_value (names : list (str * nat)) (v : nat)
    (k : str) :
  dict_key_of Nat.eqb names v = Some k ->
  dict_has_value Nat.eqb names v = true.
Proof.
  induction names as [|[k' v'] names IH]; [discriminate|].
  cbn [dict_key_of dict_has_value existsb snd].
  destruct (Nat.eqb v' v); [reflexivity|exact IH].
Qed.

(** X22: a key of the colour registry that is no style name and no key of
    [UNSET_MAP], with or without the at sign of the background, yields a
    colour token of the 8-bit palette index of the key, and the name of
    that token is the first key that the registry holds for the index,
    with the at sign when the token is a background: a colour name comes
    back as itself when no earlier key shares its index. *)
Theorem named_color_tag_round_trip (names : list (str * nat))
    (translate_hex : str -> option (list nat)) (text : str)
    (start end_ : nat) (name first : str) (value : nat) (background : bool)
    (Hname : dict_get names name = Some value)
    (Hat : startswith name (lit "@") = false)
    (Hstyle : str_index (at_sign background ++ name) NAMES = None)
    (Hunset : dict_get UNSET_MAP (at_sign background ++ name) = None)
    (Hfirst : dict_key_of Nat.eqb names value = Some first) :
  let t := mkToken start end_ None
             (Some (color_layer background ++ lit "5;" ++ str_of_nat value))
             (Some (color_attribute background)) in
  tag_token names translate_hex text start end_ (at_sign background ++ name)
  = Ok t
  /\ to_name names t = Ok (at_sign background ++ first).
Proof.
  intros t; unfold t.
  pose proof (str_of_nat_decimal value) as Hdec.
  destruct (handle_color_decimal translate_hex (str_of_nat value) Hdec)
    as [Hfg Hbg].
  split.
  - unfold tag_token; rewrite Hstyle, Hunset.
    unfold _handle_named_color, dict_mem, dict_subscript.
    destruct background; cbn [at_sign color_layer color_attribute].
    + change (lstrip_char "@" (lit "@" ++ name)) with (lstrip_char "@" name).
      rewrite (lstrip_char_no_prefix "@" name Hat), Hname.
      change (startswith (lit "@" ++ name) (lit "@")) with true.
      cbn [negb tl app lit list_ascii_of_string]; rewrite Hname.
      cbn [bind]; cbn [lit list_ascii_of_string app] in Hbg.
      now rewrite Hbg.
    + cbn [app]; rewrite (lstrip_char_no_prefix "@" name Hat), Hname, Hat.
      cbn [negb]; rewrite Hname; cbn [bind app].
      cbn [lit list_ascii_of_string app] in Hfg.
      now rewrite Hfg.
  - pose proof (to_name_color names start end_ (str_of_nat value) background
                  (Some (color_attribute background))) as Hto.
    unfold color_depth, semicolon_parts in Hto.
    rewrite (split_on_decimal _ Hdec) in Hto.
    cbn [length Nat.ltb Nat.leb forallb hd Nat.eqb andb] in Hto.
    rewrite isdigit_str_of_nat, int_of_str_of_nat in Hto.
    cbn [negb bind andb] in Hto.
    rewrite (dict_key_of_nat_has_value names value first Hfirst), Hfirst
      in Hto.
    exact Hto.
Qed.

Lemma named_color_tag_round_trip_witness :
  dict_get base_names (lit "red") = Some 1
  /\ dict_key_of Nat.eqb base_names 1 = Some (lit "red")
  /\ tag_token base_names hex_translator (lit "[@red]") 0 6 (lit "@red")
     = Ok (mkToken 0 6 None (Some (lit "48;5;1")) (Some BACKGROUND_COLOR))
  /\ to_name base_names
       (mkToken 0 6 None (Some (lit "48;5;1")) (Some BACKGROUND_COLOR))
     = Ok (lit "@red").
Proof.
  do 2 (split; [reflexivity|]).
  exact (named_color_tag_round_trip base_names hex_translator (lit "[@red]")
           0 6 (lit "red") (lit "red") 1 true
           eq_refl eq_refl eq_refl eq_refl eq_refl).
Defined.

(** ** The escaped form of a text is lossless *)

Lemma unescape_head_escape_char (c : ascii) (rest : str) :
  unescape_head (escape_char c ++ rest) = Some (c, rest).
Proof. destruct c as [[] [] [] [] [] [] [] []]; reflexivity. Qed.

Lemma unescape_fuel_escape_ansi (text : str) :
  forall fuel,
    length text <= fuel -> unescape_fuel fuel (escape_ansi text) = text.
Proof.
  induction text as [|c text IH]; intros fuel Hfuel.
  - destruct fuel; reflexivity.
  - destruct fuel as [|fuel]; [cbn [length] in Hfuel; lia|].
    unfold escape_ansi; cbn [map concat unescape_fuel].
    rewrite unescape_head_escape_char; f_equal.
    apply IH; cbn [length] in Hfuel; lia.
Qed.

(** X23: [escape_ansi] loses nothing: reading its result back, one escaped
    character after the other, gives the text again, so that two
    different texts never have the same escaped form. *)
Theorem escape_ansi_is_lossless (text other : str) :
  unescape (escape_ansi text) = text
  /\ (escape_ansi text = escape_ansi other -> text = other).
Proof.
  assert (Hback : forall t, unescape (escape_ansi t) = t).
  { intros t; unfold unescape.
    apply unescape_fuel_escape_ansi.
    pose proof (escape_ansi_length t); lia. }
  split; [apply Hback|].
  intros Heq; rewrite <- (Hback text), <- (Hback other).
  now rewrite Heq.
Qed.

(** ** A bracket of tags before a text *)

Lemma not_space_not_newline (ch : ascii) :
  isspace_char ch = false -> Ascii.eqb ch newline = false.
Proof.
  intros H; destruct (Ascii.eqb ch newline) eqn:E; [|reflexivity].
  apply Ascii.eqb_eq in E; subst ch; discriminate H.
Qed.

Lemma tag_word_chars_inv (w : str) :
  tag_word_chars w = true ->
  w <> []
  /\ forallb (fun ch => negb (isspace_char ch)) w = true
  /\ forallb (fun ch => negb (Ascii.eqb ch "]") && negb (Ascii.eqb ch newline))
       w = true.
Proof.
  unfold tag_word_chars; intros H.
  apply andb_true_iff in H as [Hne Hall].
  split; [now destruct w|].
  rewrite forallb_forall in Hall.
  split; apply forallb_forall; intros ch Hch; specialize (Hall ch Hch);
    apply andb_true_iff in Hall as [Hs Hb]; [exact Hs|].
  rewrite Hb; apply negb_true_iff in Hs.
  now rewrite (not_space_not_newline ch Hs).
Qed.

Section Brackets.

Variable names : list (str * nat).
Variable translate_hex : str -> option (list nat).

Lemma RE_TAGS_bracket (ws : list str) (rest : str) :
  opens_tag ws = true ->
  forallb tag_word_chars ws = true ->
  RE_TAGS (bracketed ws ++ rest)
  = Some (length (bracketed ws), (bracketed ws, [], join (lit " ") ws)).
Proof.
  intros Hopen Hwords.
  assert (Hbody : forallb (fun ch => negb (Ascii.eqb ch "]")
                                     && negb (Ascii.eqb ch newline))
                    (join (lit " ") ws) = true).
  { apply forallb_join; [reflexivity|].
    apply forallb_forall; intros w Hw.
    rewrite forallb_forall in Hwords.
    now destruct (tag_word_chars_inv w (Hwords w Hw)) as (_ & _ & H). }
  assert (Hfirst : exists c body,
             join (lit " ") ws = c :: body /\ tag_first_char c = true).
  { destruct ws as [|[|c w] ws]; try discriminate Hopen.
    cbn [opens_tag] in Hopen.
    destruct ws; cbn [join app]; eauto. }
  destruct Hfirst as (c & body & Hjoin & Hc).
  unfold bracketed; rewrite Hjoin in *.
  cbn [forallb] in Hbody; apply andb_true_iff in Hbody as [_ Hbody].
  unfold RE_TAGS.
  change ((lit "[" ++ (c :: body) ++ lit "]") ++ rest)
    with ("["%char :: c :: (body ++ lit "]") ++ rest).
  cbn [span_backslashes].
  change (("[" =? backslash)%char) with false; cbv iota.
  change (("[" =? "[")%char) with true; rewrite Hc; cbn [andb].
  rewrite <- app_assoc.
  change (lit "]" ++ rest) with ("]"%char :: rest).
  now rewrite (lazy_until_bracket_body body rest Hbody).
Qed.

Lemma finditer_bracket (ws : list str) (rest : str) (pos : nat) :
  opens_tag ws = true ->
  forallb tag_word_chars ws = true ->
  finditer_from RE_TAGS 0 pos (bracketed ws ++ rest)
  = (pos, pos + length (bracketed ws),
     (bracketed ws, [], join (lit " ") ws))
    :: finditer_from RE_TAGS 0 (pos + length (bracketed ws)) rest.
Proof.
  intros Hopen Hwords.
  pose proof (RE_TAGS_bracket ws rest Hopen Hwords) as Hre.
  assert (Hhead : bracketed ws = "["%char :: tl (bracketed ws))
    by reflexivity.
  assert (Hlen : length (bracketed ws) = S (length (tl (bracketed ws))))
    by (rewrite Hhead at 1; reflexivity).
  revert Hre; rewrite Hhead at 1; cbn [app]; intros Hre.
  rewrite Hhead at 1; cbn [app].
  rewrite (finditer_from_match _ RE_TAGS _ _ pos _ _ Hre).
  rewrite Hlen at 2; cbn [Nat.pred]; rewrite finditer_from_skip.
  do 2 f_equal; lia.
Qed.

Lemma split_ws_words (ws : list str) :
  forallb tag_word_chars ws = true -> split_ws (join (lit " ") ws) = ws.
Proof.
  intros Hwords; apply split_ws_join, Forall_forall; intros w Hw.
  rewrite forallb_forall in Hwords.
  now destruct (tag_word_chars_inv w (Hwords w Hw)) as (H1 & H2 & _).
Qed.

Lemma tokenize_markup_bracket (ws : list str) (text : str) :
  opens_tag ws = true ->
  forallb tag_word_chars ws = true ->
  nonempty text = true ->
  bracket_free text = true ->
  tokenize_markup names translate_hex (bracketed ws ++ text)
  = tokenize_tags names translate_hex (bracketed ws ++ text) 0
      (length (bracketed ws)) ws
      ([mkToken 0 (length (bracketed ws)) (Some text) None None], None).
Proof.
  intros Hopen Hwords Htext Hbracket.
  unfold tokenize_markup, finditer.
  rewrite (finditer_bracket ws text 0 Hopen Hwords).
  rewrite <- (app_nil_r text) at 2.
  rewrite (finditer_from_bracket_free text [] _ Hbracket).
  cbn [finditer_from Nat.add tokenize_markup_loop str_eqb negb].
  change (0 <? 0) with false; cbv iota.
  rewrite (split_ws_words ws Hwords).
  replace (skipn (length (bracketed ws)) (bracketed ws ++ text)) with text
    by (symmetry; apply skipn_prefix).
  replace (length (bracketed ws) <? length (bracketed ws ++ text)) with true;
    [reflexivity|].
  symmetry; apply Nat.ltb_lt; rewrite length_app.
  destruct text; [discriminate Htext | cbn [length]; lia].
Qed.

End Brackets.

Lemma color_char_in_word (ch : ascii) :
  color_char ch = true ->
  negb (isspace_char ch) && negb (Ascii.eqb ch "]") = true.
Proof.
  destruct ch as [[] [] [] [] [] [] [] []]; vm_compute; intros H;
    try discriminate H; reflexivity.
Qed.

(** ** The pretty-printer *)

Section PrettyPrinter.

Variable names : list (str * nat).
Variable translate_hex : str -> option (list nat).
Variable bold : str -> option bool -> str.
Variable foreground : str -> nat -> str.

Lemma join_styled (x : str) (xs : list str) :
  join (lit " ") (x :: xs) = x ++ concat (map (app (lit " ")) xs).
Proof.
  revert x; induction xs as [|y xs IH]; intros x.
  - cbn [join map concat]; now rewrite app_nil_r.
  - change (join (lit " ") (x :: y :: xs))
      with (x ++ lit " " ++ join (lit " ") (y :: xs)).
    rewrite IH; cbn [map concat]; now rewrite <- !app_assoc.
Qed.

Lemma style_attribute_word (start0 end0 : nat) (w : str) :
  style_word w = true ->
  style_attribute names bold foreground
    (mkToken start0 end0 None (Some (style_code w)) (Some STYLE))
  = Ok (styled_word foreground w).
Proof.
  intros Hw; unfold style_attribute; cbn [attribute to_sequence code bind].
  assert (Hname : to_name names
                    (mkToken start0 end0 None (Some (style_code w))
                       (Some STYLE)) = Ok w)
    by (pose proof (style_code_name names w Hw) as H; exact H).
  rewrite Hname; reflexivity.
Qed.

Lemma style_items_words (start0 end0 : nat) (ws : list str) :
  forallb style_word ws = true ->
  forall i styled,
    style_items names bold foreground (S i)
      (map (fun w => mkToken start0 end0 None (Some (style_code w))
                       (Some STYLE)) ws) styled
    = Ok (styled
          ++ concat (map (app (lit " "))
                       (map (styled_word foreground) ws))).
Proof.
  induction ws as [|w ws IH]; intros H i styled.
  - cbn [map concat style_items]; now rewrite app_nil_r.
  - cbn [forallb] in H; apply andb_true_iff in H as [Hw Hws].
    cbn [map style_items concat].
    rewrite (style_attribute_word _ _ w Hw); cbn [bind].
    change (0 <? S i) with true; cbv iota.
    rewrite (IH Hws); now rewrite <- !app_assoc.
Qed.

Lemma style_attributes_words (start0 end0 : nat) (ws : list str) :
  nonempty ws = true ->
  forallb style_word ws = true ->
  _style_attributes names bold foreground
    (map (fun w => mkToken start0 end0 None (Some (style_code w))
                     (Some STYLE)) ws)
  = Ok (bold (lit "[") None
        ++ join (lit " ") (map (styled_word foreground) ws)
        ++ bold (lit "]") None).
Proof.
  intros Hne H; destruct ws as [|w ws]; [discriminate Hne|].
  cbn [forallb] in H; apply andb_true_iff in H as [Hw Hws].
  unfold _style_attributes; cbn [map style_items].
  rewrite (style_attribute_word _ _ w Hw); cbn [bind].
  change (0 <? 0) with false; cbv iota.
  rewrite (style_items_words _ _ ws Hws); cbn [bind].
  rewrite join_styled; now rewrite <- !app_assoc.
Qed.

Lemma prettify_style_tokens (start0 end0 : nat) (ws : list str)
    (rest : list Token) :
  forall s,
    for_tokens (prettify_body names bold foreground)
      (map (fun w => mkToken start0 end0 None (Some (style_code w))
                       (Some STYLE)) ws ++ rest) s
    = for_tokens (prettify_body names bold foreground) rest
        (mkPrettify
           (visual_bracket s
            ++ map (fun w => mkToken start0 end0 None (Some (style_code w))
                               (Some STYLE)) ws)
           (applied_bracket s ++ map sgr_sequence (map style_code ws))
           (pretty_out s)).
Proof.
  induction ws as [|w ws IH]; intros s.
  - cbn [map app]; rewrite !app_nil_r; now destruct s.
  - cbn [map app for_tokens prettify_body code attribute to_sequence bind].
    rewrite IH; cbn [visual_bracket applied_bracket pretty_out].
    now rewrite <- !app_assoc.
Qed.

End PrettyPrinter.

(** X24: [prettify_markup] on a text without an opening bracket and
    without a backslash calls no sequence builder: it returns the text
    followed by the reset sequence, and the empty string for the empty
    text.  On a bracket that one or more backslashes precede it returns
    one backslash, the bracket and the reset sequence: the other
    backslashes are lost. *)
Theorem prettify_markup_without_tags (names : list (str * nat))
    (translate_hex : str -> option (list nat))
    (bold : str -> option bool -> str) (foreground : str -> nat -> str)
    (text escapes body : str) (c : ascii)
    (Htext : bracket_free text = true)
    (Hescapes : nonempty escapes = true)
    (Hbackslashes : forallb (Ascii.eqb backslash) escapes = true)
    (Hfirst : tag_first_char c = true)
    (Hbody :
       forallb (fun ch => negb (Ascii.eqb ch "]")
                          && negb (Ascii.eqb ch newline)) body = true) :
  prettify_markup names translate_hex bold foreground text
  = Ok (match text with [] => [] | _ :: _ => text ++ reset end)
  /\ prettify_markup names translate_hex bold foreground
       (escapes ++ lit "[" ++ (c :: body) ++ lit "]")
     = Ok (backslash :: lit "[" ++ (c :: body) ++ lit "]" ++ reset).
Proof.
  split.
  - unfold prettify_markup, for_each.
    rewrite (tokenize_markup_bracket_free names translate_hex text Htext).
    destruct text as [|ch text]; [reflexivity|].
    cbn [fst snd for_tokens prettify_body code plain attribute to_name bind
         flush_visual visual_bracket applied_bracket pretty_out length
         Nat.ltb Nat.leb concat app].
    reflexivity.
  - unfold prettify_markup, for_each.
    pose proof (tokenize_markup_escaped_bracket names translate_hex escapes c
                  body Hescapes Hbackslashes Hfirst Hbody) as Htok.
    cbv zeta in Htok; rewrite Htok.
    cbn [fst snd for_tokens prettify_body code plain attribute to_name bind
         flush_visual visual_bracket applied_bracket pretty_out length
         Nat.ltb Nat.leb concat app].
    cbn [lit list_ascii_of_string app]; now rewrite <- app_assoc.
Qed.

Lemma prettify_markup_without_tags_witness :
  let bold := fun (t : str) (_ : option bool) => t in
  let foreground := fun (t : str) (_ : nat) => t in
  bracket_free (lit "plain text") = true
  /\ prettify_markup base_names hex_translator bold foreground
       (lit "plain text")
     = Ok (lit "plain text" ++ reset)
  /\ prettify_markup base_names hex_translator bold foreground
       ([backslash; backslash] ++ lit "[bold]")
     = Ok (backslash :: lit "[bold]" ++ reset).
Proof.
  split; [reflexivity|].
  exact (prettify_markup_without_tags base_names hex_translator
           (fun t _ => t) (fun t _ => t) (lit "plain text")
           [backslash; backslash] (lit "old") "b"
           eq_refl eq_refl eq_refl eq_refl eq_refl).
Defined.

(** X25: [prettify_markup] on one bracket of style names followed by a
    text without opening bracket and backslash returns the bracket between
    the two bold delimiters, each name after its own sequence and in the
    colour 114, with single spaces between the names, and then the
    sequences of all the names, the text and the reset sequence: a name
    that is written twice is applied twice. *)
Theorem prettify_markup_style_bracket (names : list (str * nat))
    (translate_hex : str -> option (list nat))
    (bold : str -> option bool -> str) (foreground : str -> nat -> str)
    (ws : list str) (text : str)
    (Hwords : nonempty ws = true)
    (Hstyle : forallb style_word ws = true)
    (Hnonempty : nonempty text = true)
    (Hbracket : bracket_free text = true) :
  prettify_markup names translate_hex bold foreground (bracketed ws ++ text)
  = Ok (bold (lit "[") None
        ++ join (lit " ") (map (styled_word foreground) ws)
        ++ bold (lit "]") None
        ++ render_codes (map style_code ws) ++ text ++ reset).
Proof.
  unfold prettify_markup, for_each.
  rewrite (tokenize_markup_style_bracket names translate_hex ws text
             Hwords Hstyle Hnonempty Hbracket).
  cbn [fst snd]; rewrite prettify_style_tokens.
  cbn [for_tokens prettify_body code plain attribute to_name
       visual_bracket applied_bracket pretty_out app].
  unfold flush_visual at 1.
  replace (0 <? length
                  (map (fun w => mkToken 0 (length (bracketed ws)) None
                                   (Some (style_code w)) (Some STYLE)) ws))
    with true
    by (destruct ws; [discriminate Hwords | reflexivity]).
  rewrite (style_attributes_words names bold foreground _ _ ws Hwords Hstyle).
  cbn [bind flush_visual visual_bracket pretty_out length Nat.ltb Nat.leb
       app].
  unfold render_codes; now rewrite <- !app_assoc.
Qed.

Lemma prettify_markup_style_bracket_witness :
  let bold := fun (t : str) (_ : option bool) => lit "<" ++ t ++ lit ">" in
  let foreground := fun (t : str) (_ : nat) => t in
  forallb style_word [lit "bold"; lit "bold"] = true
  /\ prettify_markup base_names hex_translator bold foreground
       (lit "[bold bold]hi")
     = Ok (lit "<[>" ++ sgr_sequence (lit "1") ++ lit "bold "
           ++ sgr_sequence (lit "1") ++ lit "bold<]>"
           ++ sgr_sequence (lit "1") ++ sgr_sequence (lit "1")
           ++ lit "hi" ++ reset).
Proof.
  split; [reflexivity|].
  exact (prettify_markup_style_bracket base_names hex_translator
           (fun t _ => lit "<" ++ t ++ lit ">") (fun t _ => t)
           [lit "bold"; lit "bold"] (lit "hi")
           eq_refl eq_refl eq_refl eq_refl).
Defined.

(** X26: on a bracket with one colour tag of which a field is no number
    (a tag of hex letters, as abc), followed by a text, [markup_to_ansi]
    without optimization returns the sequence with the tag as its colour,
    the text and the reset sequence, while [prettify_markup] raises the
    SyntaxError for a non-digit, which comes from the name of the token
    when the bracket is styled. *)
Theorem prettify_markup_rejects_non_numeric_color
    (names : list (str * nat)) (translate_hex : str -> option (list nat))
    (bold : str -> option bool -> str) (foreground : str -> nat -> str)
    (tag text : str)
    (Hopen : opens_tag [tag] = true)
    (Hchars : forallb color_char tag = true)
    (Hat : startswith tag (lit "@") = false)
    (Hsharp : startswith tag (lit "#") = false)
    (Hname : dict_mem names tag = false)
    (Hfield : forallb isdigit (split_on ";" tag) = false)
    (Hnonempty : nonempty text = true)
    (Hesc : esc_free text = true)
    (Hbracket : bracket_free text = true) :
  markup_to_ansi names translate_hex (bracketed [tag] ++ text) true false
  = Ok (sgr_sequence (lit "38;" ++ color_depth tag ++ tag) ++ text ++ reset)
  /\ prettify_markup names translate_hex bold foreground
       (bracketed [tag] ++ text)
     = Raise SyntaxError_non_digit.
Proof.
  assert (Hwords : forallb tag_word_chars [tag] = true).
  { cbn [forallb]; rewrite andb_true_r; unfold tag_word_chars.
    destruct tag as [|c tag]; [discriminate Hopen|]; cbn [nonempty andb].
    apply forallb_forall; intros ch Hch.
    rewrite forallb_forall in Hchars.
    exact (color_char_in_word ch (Hchars ch Hch)). }
  pose proof (tokenize_markup_bracket names translate_hex [tag] text Hopen
                Hwords Hnonempty Hbracket) as Htok.
  set (n := length (bracketed [tag])) in *.
  set (markup := bracketed [tag] ++ text) in *.
  pose proof (tag_token_color names translate_hex markup 0 n tag false
                Hchars Hat Hsharp Hname) as Htag.
  cbn [at_sign app color_layer color_attribute] in Htag.
  cbn [tokenize_tags] in Htok; rewrite Htag in Htok.
  cbn [tokenize_tags] in Htok; unfold yield in Htok; cbn [fst snd] in Htok.
  pose proof (to_name_color names 0 n tag false (Some COLOR)) as Hto.
  rewrite Hfield in Hto.
  cbn [negb color_layer] in Hto.
  split.
  - unfold markup_to_ansi, for_each; rewrite Htok.
    cbn [fst snd for_tokens markup_to_ansi_body to_sequence code plain bind
         app andb].
    pose proof (text_after_codes_not_endswith_reset
                  [lit "38;" ++ color_depth tag ++ tag] text Hnonempty Hesc)
      as Hend.
    unfold render_codes in Hend; cbn [map concat] in Hend.
    rewrite app_nil_r in Hend; unfold sgr_sequence in Hend |- *.
    cbn [app] in Hend |- *; rewrite Hend; cbn [negb].
    now rewrite <- app_assoc.
  - unfold prettify_markup, for_each; rewrite Htok.
    cbn [fst snd for_tokens prettify_body code plain attribute to_sequence
         bind visual_bracket applied_bracket pretty_out app].
    unfold flush_visual, _style_attributes.
    cbn [length Nat.ltb Nat.leb style_items style_attribute attribute
         to_sequence code bind].
    now rewrite Hto.
Qed.

Lemma prettify_markup_rejects_non_numeric_color_witness :
  let bold := fun (t : str) (_ : option bool) => t in
  let foreground := fun (t : str) (_ : nat) => t in
  forallb color_char (lit "abc") = true
  /\ forallb isdigit (split_on ";" (lit "abc")) = false
  /\ markup_to_ansi base_names hex_translator (lit "[abc]x") true false
     = Ok (sgr_sequence (lit "38;5;abc") ++ lit "x" ++ reset)
  /\ prettify_markup base_names hex_translator bold foreground (lit "[abc]x")
     = Raise SyntaxError_non_digit.
Proof.
  do 2 (split; [reflexivity|]).
  exact (prettify_markup_rejects_non_numeric_color base_names hex_translator
           (fun t _ => t) (fun t _ => t) (lit "abc") (lit "x")
           eq_refl eq_refl eq_refl eq_refl eq_refl eq_refl eq_refl eq_refl
           eq_refl).
Defined.

Section TwoBrackets.

Variable names : list (str * nat).
Variable translate_hex : str -> option (list nat).

Lemma tokenize_markup_two_brackets (ws1 ws2 : list str) (a b : str) :
  opens_tag ws1 = true -> forallb tag_word_chars ws1 = true ->
  opens_tag ws2 = true -> forallb tag_word_chars ws2 = true ->
  nonempty a = true -> bracket_free a = true ->
  nonempty b = true -> bracket_free b = true ->
  let text := bracketed ws1 ++ a ++ bracketed ws2 ++ b in
  let n1 := length (bracketed ws1) in
  let s2 := n1 + length a in
  let e2 := s2 + length (bracketed ws2) in
  tokenize_markup names translate_hex text
  = tokenize_tags names translate_hex text 0 n1 ws1
      (yield (mkToken s2 e2 (Some a) None None)
         (tokenize_tags names translate_hex text s2 e2 ws2
            ([mkToken s2 e2 (Some b) None None], None))).
Proof.
  intros Ho1 Hw1 Ho2 Hw2 Hna Hba Hnb Hbb text n1 s2 e2.
  unfold tokenize_markup, finditer, text.
  rewrite (finditer_bracket ws1 _ 0 Ho1 Hw1).
  rewrite (finditer_from_bracket_free a _ _ Hba).
  rewrite (finditer_bracket ws2 _ _ Ho2 Hw2).
  assert (Hlast : forall pos, finditer_from RE_TAGS 0 pos b = []).
  { intros pos.
    pose proof (finditer_from_bracket_free b [] pos Hbb) as H.
    now rewrite app_nil_r in H. }
  rewrite Hlast.
  cbn [Nat.add]; fold n1 s2 e2 text.
  cbn [tokenize_markup_loop str_eqb negb].
  change (0 <? 0) with false; cbv iota.
  rewrite (split_ws_words ws1 Hw1), (split_ws_words ws2 Hw2).
  replace (n1 <? s2) with true
    by (symmetry; apply Nat.ltb_lt; unfold s2;
        destruct a; [discriminate Hna | cbn [length]; lia]).
  replace (slice text n1 s2) with a
    by (symmetry; exact (slice_middle (bracketed ws1) a (bracketed ws2 ++ b))).
  assert (Hlen : length text = e2 + length b)
    by (unfold text, e2, s2, n1; rewrite !length_app; lia).
  replace (e2 <? length text) with true
    by (symmetry; apply Nat.ltb_lt; rewrite Hlen;
        destruct b; [discriminate Hnb | cbn [length]; lia]).
  replace (skipn e2 text) with b; [reflexivity|].
  unfold text, e2, s2, n1.
  replace (bracketed ws1 ++ a ++ bracketed ws2 ++ b)
    with ((bracketed ws1 ++ a ++ bracketed ws2) ++ b)
    by now rewrite <- !app_assoc.
  replace (length (bracketed ws1) + length a + length (bracketed ws2))
    with (length (bracketed ws1 ++ a ++ bracketed ws2))
    by (rewrite !length_app; lia).
  symmetry; apply skipn_prefix.
Qed.

End TwoBrackets.

Lemma unset_word_token (names : list (str * nat))
    (translate_hex : str -> option (list nat)) (text : str)
    (start0 end0 : nat) (w : str) :
  style_word w = true ->
  tag_token names translate_hex text start0 end0 (lit "/" ++ w)
  = Ok (mkToken start0 end0 None (Some (unset_code w)) (Some CLEAR))
  /\ to_name names
       (mkToken start0 end0 None (Some (unset_code w)) (Some CLEAR))
     = Ok (unset_name w).
Proof. intros H; style_cases H; split; reflexivity. Qed.

Lemma prettify_body_unsetter (names : list (str * nat))
    (bold : str -> option bool -> str) (foreground : str -> nat -> str)
    (start0 end0 : nat) (w : str) (visual : list Token) (out : str) :
  style_word w = true ->
  prettify_body names bold foreground
    (mkPrettify visual [sgr_sequence (style_code w)] out)
    (mkToken start0 end0 None (Some (unset_code w)) (Some CLEAR))
  = Ok (mkPrettify
          (visual
           ++ [mkToken start0 end0 None (Some (unset_code w)) (Some CLEAR)])
          ((if str_eqb w (lit "dim") then [sgr_sequence (style_code w)]
            else [])
           ++ [sgr_sequence (unset_code w)])
          out).
Proof. intros H; style_cases H; reflexivity. Qed.

Lemma prettify_body_style (names : list (str * nat))
    (bold : str -> option bool -> str) (foreground : str -> nat -> str)
    (s : prettify_state) (start0 end0 : nat) (c : str) :
  prettify_body names bold foreground s
    (mkToken start0 end0 None (Some c) (Some STYLE))
  = Ok (mkPrettify
          (visual_bracket s
           ++ [mkToken start0 end0 None (Some c) (Some STYLE)])
          (applied_bracket s ++ [sgr_sequence c]) (pretty_out s)).
Proof. reflexivity. Qed.

Lemma prettify_body_text (names : list (str * nat))
    (bold : str -> option bool -> str) (foreground : str -> nat -> str)
    (s : prettify_state) (start0 end0 : nat) (p : str) :
  prettify_body names bold foreground s
    (mkToken start0 end0 (Some p) None None)
  = out <- flush_visual names bold foreground (visual_bracket s)
             (pretty_out s) ;;
    Ok (mkPrettify [] (applied_bracket s)
          (out ++ concat (applied_bracket s) ++ p ++ reset)).
Proof. reflexivity. Qed.

(** X27: [prettify_markup] on a style, a text, the unsetter of the style
    and a second text: the first text is written after the sequence of the
    style; at the unsetter the sequence of the style is removed from the
    applied sequences and the one of the unsetter is added, so that the
    second text is written after the unsetter only.  For dim the sequence
    that is removed is the one of bold: the sequence of dim stays applied
    to the second text, and the unsetter is shown as /bold. *)
Theorem prettify_markup_unsets_style (names : list (str * nat))
    (translate_hex : str -> option (list nat))
    (bold : str -> option bool -> str) (foreground : str -> nat -> str)
    (w a b : str)
    (Hstyle : style_word w = true)
    (Hna : nonempty a = true) (Hba : bracket_free a = true)
    (Hnb : nonempty b = true) (Hbb : bracket_free b = true) :
  prettify_markup names translate_hex bold foreground
    (bracketed [w] ++ a ++ bracketed [lit "/" ++ w] ++ b)
  = Ok (bold (lit "[") None ++ styled_word foreground w
        ++ bold (lit "]") None
        ++ sgr_sequence (style_code w) ++ a ++ reset
        ++ bold (lit "[") None ++ foreground (unset_name w) 210
        ++ bold (lit "]") None
        ++ (if str_eqb w (lit "dim") then sgr_sequence (style_code w)
            else [])
        ++ sgr_sequence (unset_code w) ++ b ++ reset).
Proof.
  assert (Hwords : opens_tag [w] = true
                   /\ forallb tag_word_chars [w] = true
                   /\ forallb tag_word_chars [lit "/" ++ w] = true).
  { pose proof Hstyle as H; style_cases H; repeat split. }
  destruct Hwords as (Ho1 & Hw1 & Hw2).
  pose proof (tokenize_markup_two_brackets names translate_hex [w]
                [lit "/" ++ w] a b Ho1 Hw1 eq_refl Hw2 Hna Hba Hnb Hbb)
    as Htok.
  cbv zeta in Htok.
  unfold prettify_markup, for_each; rewrite Htok; clear Htok.
  set (text := bracketed [w] ++ a ++ bracketed [lit "/" ++ w] ++ b).
  set (n1 := length (bracketed [w])).
  set (s2 := n1 + length a).
  set (e2 := s2 + length (bracketed [lit "/" ++ w])).
  clearbody text n1 s2 e2.
  destruct (unset_word_token names translate_hex text s2 e2 w Hstyle)
    as [Hunset Hname].
  cbn [tokenize_tags].
  rewrite (style_word_token names translate_hex text 0 n1 w Hstyle), Hunset.
  unfold yield; cbn [fst snd].
  pose proof (style_attributes_words names bold foreground 0 n1 [w]
                eq_refl) as Hfirst.
  cbn [forallb map join] in Hfirst; rewrite Hstyle in Hfirst.
  specialize (Hfirst eq_refl).
  assert (Hsecond : _style_attributes names bold foreground
                      [mkToken s2 e2 None (Some (unset_code w)) (Some CLEAR)]
                    = Ok (bold (lit "[") None
                          ++ foreground (unset_name w) 210
                          ++ bold (lit "]") None)).
  { unfold _style_attributes.
    cbn [style_items style_attribute attribute Nat.ltb Nat.leb].
    rewrite Hname; cbn [bind]; now rewrite <- app_assoc. }
  cbn [for_tokens].
  rewrite prettify_body_style; cbn [bind visual_bracket applied_bracket
                                    pretty_out app].
  rewrite prettify_body_text; cbn [visual_bracket applied_bracket pretty_out].
  unfold flush_visual at 1; cbn [length Nat.ltb Nat.leb].
  rewrite Hfirst; cbn [bind].
  rewrite (prettify_body_unsetter names bold foreground s2 e2 w [] _ Hstyle).
  cbn [bind app].
  rewrite prettify_body_text; cbn [visual_bracket applied_bracket pretty_out].
  unfold flush_visual at 1; cbn [length Nat.ltb Nat.leb].
  rewrite Hsecond.
  cbn [bind flush_visual visual_bracket pretty_out length Nat.ltb Nat.leb].
  f_equal.
  destruct (str_eqb w (lit "dim")); cbn [app concat];
    rewrite ?app_nil_r, <- ?app_assoc; reflexivity.
Qed.

Lemma prettify_markup_unsets_style_witness :
  let bold := fun (t : str) (_ : option bool) => t in
  let foreground := fun (t : str) (_ : nat) => t in
  style_word (lit "dim") = true
  /\ prettify_markup base_names hex_translator bold foreground
       (lit "[dim]a[/dim]b")
     = Ok (lit "[" ++ sgr_sequence (lit "2") ++ lit "dim]"
           ++ sgr_sequence (lit "2") ++ lit "a" ++ reset
           ++ lit "[/bold]"
           ++ sgr_sequence (lit "2") ++ sgr_sequence (lit "22")
           ++ lit "b" ++ reset).
Proof.
  split; [reflexivity|].
  exact (prettify_markup_unsets_style base_names hex_translator
           (fun t _ => t) (fun t _ => t) (lit "dim") (lit "a") (lit "b")
           eq_refl eq_refl eq_refl eq_refl eq_refl).
Defined.
